(** * Multi-adapter hosting on a managed endpoint: the notebook's own logic

    A shallow embedding of the code the repository authors itself:
    - the upload cell of the notebook: [upload_folder_to_s3] and the loop
      that stores one copy of the adapter per prefix, with the [os.path]
      functions they call;
    - the manifest cells of the notebook: [list_s3_leaf_directories] and
      the [--lora-modules] line built from its result;
    - the container entrypoint script, which composes the launch command
      from environment variables, and the environment the deployment cell
      declares for it;
    - the two [sed] route substitutions of the container Dockerfile;
    - the threaded benchmark of the notebook: [invoke_adapter] and
      [benchmark_scenario], and the warm-up loop before it.

    Python integers are [Z]; Python and shell strings are lists of
    characters; wall-clock readings and latencies are exact rationals, so
    floating-point rounding is left out. Threads are a transition system:
    a state holds the module globals, the lock and one record per worker,
    and any worker that is not blocked may take the next step.

    The notebook cell that calls the listing names it [list_s3_directories],
    which the notebook does not define, and the upload names
    [lora_modules_file] for [lora_modules_manifest_file]; the model follows
    the functions as they are defined. *)

From Stdlib Require Import ZArith QArith Ascii String DecimalString DecimalZ DecimalPos Lia.
From stdpp Require Import base option list relations strings.

Set Default Proof Using "Type".

(** * Text *)

Definition text := list ascii.

Definition txt (s : string) : text := list_ascii_of_string s.

(** Python's [str] on an integer. *)
Definition str_int (z : Z) : text := txt (NilZero.string_of_int (Z.to_int z)).

Definition is_char (a c : ascii) : bool := Ascii.eqb a c.

(** Python's [s.rstrip(chars)]. *)
Fixpoint rstrip (strip : ascii → bool) (s : text) : text :=
  match s with
  | [] => []
  | c :: rest =>
      match rstrip strip rest with
      | [] => if strip c then [] else [c]
      | r => c :: r
      end
  end.

(** Python's [s.rsplit(sep, 1)]: one piece when [sep] does not occur,
    otherwise what stands before the last [sep] and what stands after it. *)
Fixpoint rsplit1 (sep : ascii) (s : text) : list text :=
  match s with
  | [] => [[]]
  | c :: rest =>
      match rsplit1 sep rest with
      | [tail] => if is_char sep c then [[]; tail] else [c :: tail]
      | head :: more => (c :: head) :: more
      | [] => [[c]]
      end
  end.

(** Python's [s.split(sep)]. *)
Fixpoint split_on (sep : ascii) (s : text) : list text :=
  match s with
  | [] => [[]]
  | c :: rest =>
      if is_char sep c then [] :: split_on sep rest
      else match split_on sep rest with
           | w :: ws => (c :: w) :: ws
           | [] => [[c]]
           end
  end.

(** Python's [sep.join(pieces)]. *)
Fixpoint join (sep : text) (pieces : list text) : text :=
  match pieces with
  | [] => []
  | [p] => p
  | p :: rest => p ++ sep ++ join sep rest
  end.

(** The shell's field separators (default [IFS]): space, tab, newline. *)
Definition is_space (c : ascii) : bool :=
  is_char " " c || is_char "009" c || is_char "010" c.

Definition at_word_end (rest : text) : bool :=
  match rest with
  | [] => true
  | c :: _ => is_space c
  end.

(** Word splitting of an unquoted expansion: the maximal runs of
    characters that are not field separators. *)
Fixpoint fields (s : text) : list text :=
  match s with
  | [] => []
  | c :: rest =>
      if is_space c then fields rest
      else if at_word_end rest then [c] :: fields rest
      else match fields rest with
           | w :: ws => (c :: w) :: ws
           | [] => [[c]]
           end
  end.

Fixpoint starts_with (p s : text) : bool :=
  match p, s with
  | [], _ => true
  | a :: p', b :: s' => is_char a b && starts_with p' s'
  | _ :: _, [] => false
  end.

(** [p] occurs somewhere in [s]. *)
Fixpoint occurs (p s : text) : bool :=
  starts_with p s ||
  match s with
  | [] => false
  | _ :: rest => occurs p rest
  end.

Fixpoint strip_prefix (p s : text) : option text :=
  match p, s with
  | [], _ => Some s
  | a :: p', b :: s' => if is_char a b then strip_prefix p' s' else None
  | _ :: _, [] => None
  end.

Fixpoint until (sep : ascii) (s : text) : text :=
  match s with
  | [] => []
  | c :: rest => if is_char sep c then [] else c :: until sep rest
  end.

Definition no_space (w : text) : Prop := Forall (λ c, is_space c = false) w.

(** The decimal digits, the characters of [str(i)] for a natural [i]. *)
Definition is_digit (c : ascii) : bool :=
  (48 <=? nat_of_ascii c)%nat && (nat_of_ascii c <=? 57)%nat.

(** ** Facts about the string functions *)

Lemma is_char_true a c : is_char a c = true ↔ a = c.
Proof. apply Ascii.eqb_eq. Qed.

Lemma is_char_false a c : is_char a c = false ↔ a ≠ c.
Proof. apply Ascii.eqb_neq. Qed.

Lemma rstrip_snoc strip s c :
  rstrip strip (s ++ [c]) = if strip c then rstrip strip s else s ++ [c].
Proof.
  induction s as [|x s IH]; simpl; [by destruct (strip c)|].
  rewrite IH. destruct (strip c); [done|]. by destruct s.
Qed.

Lemma rstrip_keep strip s c : strip c = false → rstrip strip (s ++ [c]) = s ++ [c].
Proof. intros H. by rewrite rstrip_snoc, H. Qed.

Lemma split_on_nonempty sep s : split_on sep s ≠ [].
Proof. destruct s as [|c s]; simpl; [done|]. destruct (is_char sep c); [done|]. by destruct (split_on sep s). Qed.



Lemma rsplit1_shape sep s :
  (∃ tail, rsplit1 sep s = [tail]) ∨ (∃ head tail, rsplit1 sep s = [head; tail]).
Proof.
  induction s as [|c s IH]; simpl; [by left; eexists|].
  destruct IH as [[tail ->]|(head & tail & ->)].
  - destruct (is_char sep c); [right|left]; by repeat eexists.
  - right. by repeat eexists.
Qed.

Lemma rsplit1_snoc sep s c :
  rsplit1 sep (s ++ [c]) =
    if is_char sep c then [s; []]
    else match rsplit1 sep s with
         | [tail] => [tail ++ [c]]
         | head :: more => head :: map (λ tail, tail ++ [c]) more
         | [] => []
         end.
Proof.
  induction s as [|x s IH]; simpl; [by destruct (is_char sep c)|].
  rewrite IH. destruct (is_char sep c); [done|].
  destruct (rsplit1_shape sep s) as [[t ->]|(h & t & ->)]; simpl;
    by destruct (is_char sep x).
Qed.

Lemma rsplit1_last_snoc sep s c :
  default [] (last (rsplit1 sep (s ++ [c]))) =
    if is_char sep c then [] else default [] (last (rsplit1 sep s)) ++ [c].
Proof.
  rewrite rsplit1_snoc. destruct (is_char sep c); [done|].
  by destruct (rsplit1_shape sep s) as [[t ->]|(h & t & ->)].
Qed.


Lemma rsplit1_last_after sep base name :
  Forall (λ c, c ≠ sep) name →
  default [] (last (rsplit1 sep (base ++ sep :: name))) = name.
Proof.
  induction name as [|c name IH] using rev_ind; intros Hname.
  - rewrite (rsplit1_last_snoc sep base sep).
    by rewrite (proj2 (is_char_true sep sep)).
  - apply Forall_app in Hname as [Hname Hc]. inversion Hc; subst.
    replace (base ++ sep :: name ++ [c]) with ((base ++ sep :: name) ++ [c])
      by (by rewrite <-app_assoc).
    rewrite rsplit1_last_snoc, (proj2 (is_char_false sep c)) by done.
    by rewrite IH.
Qed.


Lemma strip_prefix_Some p s r : strip_prefix p s = Some r → s = p ++ r.
Proof.
  revert s. induction p as [|a p IH]; intros [|b s]; simpl; try by intros [= ->].
  destruct (is_char a b) eqn:Hab; [|done].
  apply is_char_true in Hab as ->. intros ->%IH. done.
Qed.


Lemma occurs_char_true c s : occurs [c] s = true → c ∈ s.
Proof.
  induction s as [|x s IH]; simpl; [done|].
  destruct (is_char c x) eqn:Hx; simpl.
  - apply is_char_true in Hx as ->. intros _. by left.
  - intros ?%IH. by right.
Qed.


Lemma until_no_sep sep s : Forall (λ c, c ≠ sep) (until sep s).
Proof.
  induction s as [|c s IH]; simpl; [constructor|].
  destruct (is_char sep c) eqn:Hc; [constructor|].
  constructor; [|done]. apply is_char_false in Hc. congruence.
Qed.

Lemma fields_cons c rest :
  fields (c :: rest) =
    if is_space c then fields rest
    else if at_word_end rest then [c] :: fields rest
    else match fields rest with
         | w :: ws => (c :: w) :: ws
         | [] => [[c]]
         end.
Proof. done. Qed.

Lemma fields_word w : w ≠ [] → no_space w → fields w = [w].
Proof.
  induction w as [|c w IH]; [done|]. intros _ Hw. inversion Hw as [|? ? Hc Hw']; subst.
  rewrite fields_cons, Hc. destruct w as [|c' w]; [done|].
  inversion Hw' as [|? ? Hc' _]; subst. simpl at_word_end. rewrite Hc'.
  by rewrite IH.
Qed.

Lemma fields_word_space w sp rest :
  w ≠ [] → no_space w → is_space sp = true →
  fields (w ++ sp :: rest) = w :: fields rest.
Proof.
  induction w as [|c w IH]; [done|]. intros _ Hw Hsp.
  inversion Hw as [|? ? Hc Hw']; subst.
  rewrite <-app_comm_cons, fields_cons, Hc. destruct w as [|c' w].
  - change ([] ++ sp :: rest) with (sp :: rest). simpl at_word_end.
    by rewrite Hsp, fields_cons, Hsp.
  - inversion Hw' as [|? ? Hc' _]; subst.
    change ((c' :: w) ++ sp :: rest) with (c' :: (w ++ sp :: rest)) at 1.
    simpl at_word_end. rewrite Hc'.
    by rewrite (IH ltac:(done) Hw' Hsp).
Qed.

Lemma fields_join_words (words : list text) :
  Forall (λ w, w ≠ [] ∧ no_space w) words →
  fields (join (txt " ") words) = words.
Proof.
  induction 1 as [|w ws [Hne Hw] Hws IH]; [done|].
  destruct ws as [|w' ws]; [by apply fields_word|].
  change (join (txt " ") (w :: w' :: ws))
    with (w ++ " "%char :: join (txt " ") (w' :: ws)).
  by rewrite fields_word_space, IH.
Qed.

Lemma fields_head c rest :
  is_space c = false → ∃ w ws, fields (c :: rest) = w :: ws.
Proof.
  intros Hc. rewrite fields_cons, Hc.
  destruct (at_word_end rest); [by eauto|].
  destruct (fields rest); by eauto.
Qed.

Lemma fields_app_space a sp b :
  is_space sp = true → fields (a ++ sp :: b) = fields a ++ fields b.
Proof.
  intros Hsp. induction a as [|c a IH].
  - simpl app. by rewrite fields_cons, Hsp.
  - rewrite <-app_comm_cons, !fields_cons, IH.
    destruct (is_space c); [done|].
    destruct a as [|c' a].
    + simpl. by rewrite Hsp.
    + simpl at_word_end. destruct (is_space c') eqn:Hc'; [done|].
      destruct (fields_head c' a Hc') as (w & ws & ->). done.
Qed.




Lemma starts_with_app p s : starts_with p s = true → s = p ++ drop (length p) s.
Proof.
  revert s. induction p as [|a p IH]; intros [|b s]; simpl; try done.
  intros [Hab Hp]%andb_prop. apply is_char_true in Hab as ->.
  by rewrite <-(IH s Hp).
Qed.




Lemma starts_with_other a p c s : c ≠ a → starts_with (a :: p) (c :: s) = false.
Proof. intros H. simpl. by rewrite (proj2 (is_char_false a c)). Qed.


(** ** More on [rstrip], [rsplit] and word splitting *)


Lemma rstrip_app_strip strip s u :
  Forall (λ c, strip c = true) u → rstrip strip (s ++ u) = rstrip strip s.
Proof.
  induction u as [|c u IH] using rev_ind; intros Hu; [by rewrite app_nil_r|].
  apply Forall_app in Hu as [Hu Hc]. inversion Hc as [|? ? Hc' _]; subst.
  by rewrite app_assoc, rstrip_snoc, Hc', IH.
Qed.

Lemma rstrip_nil strip s : rstrip strip s = [] ↔ Forall (λ c, strip c = true) s.
Proof.
  induction s as [|c s IH] using rev_ind; [done|].
  rewrite rstrip_snoc, Forall_app, Forall_singleton.
  destruct (strip c) eqn:Hc.
  - rewrite IH. split; [by intros ? | by intros [? _]].
  - split; [by destruct s | by intros [_ ?]].
Qed.

Lemma rstrip_clean strip s : Forall (λ c, strip c = false) s → rstrip strip s = s.
Proof.
  destruct s as [|c s _] using rev_ind; [done|].
  intros [_ Hc]%Forall_app. inversion Hc; subst. by apply rstrip_keep.
Qed.

Lemma rstrip_not_strip_last strip s c :
  last (rstrip strip s) = Some c → strip c = false.
Proof.
  induction s as [|x s IH] using rev_ind; [done|].
  rewrite rstrip_snoc. destruct (strip x) eqn:Hx; [done|].
  rewrite last_snoc. by intros [= <-].
Qed.

Lemma rsplit1_clean sep s : Forall (λ c, c ≠ sep) s → rsplit1 sep s = [s].
Proof.
  induction 1 as [|c s Hc _ IH]; [done|]. simpl. rewrite IH.
  by rewrite (proj2 (is_char_false sep c)).
Qed.

Lemma rsplit1_last_no_sep sep s :
  Forall (λ c, c ≠ sep) (default [] (last (rsplit1 sep s))).
Proof.
  induction s as [|c s IH] using rev_ind; [constructor|].
  rewrite rsplit1_last_snoc. destruct (is_char sep c) eqn:Hc; [constructor|].
  apply Forall_app. split; [done|]. constructor; [|constructor].
  apply is_char_false in Hc. congruence.
Qed.

Lemma rsplit1_last_nil sep s :
  default [] (last (rsplit1 sep s)) = [] → s = [] ∨ last s = Some sep.
Proof.
  destruct s as [|c s _] using rev_ind; [by left|]. intros Hnil. right.
  rewrite rsplit1_last_snoc in Hnil. rewrite last_snoc.
  destruct (is_char sep c) eqn:Hc; [by apply is_char_true in Hc as ->|].
  by destruct (default [] (last (rsplit1 sep s))).
Qed.

Lemma fields_sep a b : fields (a ++ [" "%char] ++ b) = fields a ++ fields b.
Proof. by apply fields_app_space. Qed.

(** ** Decimal numerals *)

Lemma txt_inj s1 s2 : txt s1 = txt s2 → s1 = s2.
Proof.
  unfold txt. intros H%(f_equal string_of_list_ascii).
  by rewrite !string_of_list_ascii_of_string in H.
Qed.

Lemma to_int_proper z :
  Z.to_int z ≠ Decimal.Pos Decimal.Nil ∧ Z.to_int z ≠ Decimal.Neg Decimal.Nil.
Proof.
  destruct z as [|p|p]; simpl; (split; [|try done]); try done;
    intros [= H]; by apply Unsigned.to_uint_nonnil in H.
Qed.

(** [str] is injective on the integers. *)
Lemma str_int_inj z1 z2 : str_int z1 = str_int z2 → z1 = z2.
Proof.
  unfold str_int. intros H%txt_inj.
  destruct (to_int_proper z1) as [H1 H1'], (to_int_proper z2) as [H2 H2'].
  pose proof (NilZero.isi _ H1 H1') as E1. pose proof (NilZero.isi _ H2 H2') as E2.
  rewrite H in E1. rewrite E1 in E2. injection E2 as E.
  rewrite <-(DecimalZ.of_to z1), <-(DecimalZ.of_to z2). by rewrite E.
Qed.

Lemma uint_digits d : Forall (λ c, is_digit c = true) (txt (NilEmpty.string_of_uint d)).
Proof. induction d; simpl; by constructor. Qed.

(** [str] of a natural number is a run of digits that is not empty. *)
Lemma str_int_digits (z : Z) :
  (0 ≤ z)%Z → str_int z ≠ [] ∧ Forall (λ c, is_digit c = true) (str_int z).
Proof.
  intros Hz. unfold str_int. destruct z as [|p|p]; [by repeat constructor| |lia].
  simpl. unfold NilZero.string_of_uint.
  pose proof (Unsigned.to_uint_nonnil p) as Hn.
  destruct (Pos.to_uint p) eqn:Hp; try done; (split; [done|]);
    rewrite <-Hp; apply uint_digits.
Qed.

Lemma digit_no_space c : is_digit c = true → is_space c = false.
Proof. destruct c as [[] [] [] [] [] [] [] []]; vm_compute; congruence. Qed.

Lemma digit_not_slash c : is_digit c = true → c ≠ "/"%char.
Proof. by intros H ->. Qed.

(** [str] of an integer is one shell word. *)
Lemma str_int_word (z : Z) : str_int z ≠ [] ∧ no_space (str_int z).
Proof.
  destruct (Z.lt_ge_cases z 0) as [Hneg|Hpos].
  - destruct z as [|p|p]; try lia. unfold str_int. simpl.
    split; [done|]. constructor; [done|].
    pose proof (str_int_digits (Z.pos p) ltac:(lia)) as [_ Hd].
    unfold str_int in Hd. simpl in Hd.
    eapply Forall_impl; [exact Hd|]. apply digit_no_space.
  - destruct (str_int_digits z Hpos) as [Hne Hd]. split; [done|].
    eapply Forall_impl; [exact Hd|]. apply digit_no_space.
Qed.

Lemma fields_str_int (z : Z) : fields (str_int z) = [str_int z].
Proof. destruct (str_int_word z). by apply fields_word. Qed.

(** ** More on [join] and [split] *)

Lemma join_snoc sep pieces p :
  pieces ≠ [] → join sep (pieces ++ [p]) = join sep pieces ++ sep ++ p.
Proof.
  induction pieces as [|q qs IH]; [done|]. intros _.
  destruct qs as [|q' qs]; [done|].
  change (join sep ((q :: q' :: qs) ++ [p])) with (q ++ sep ++ join sep ((q' :: qs) ++ [p])).
  rewrite IH by done. change (join sep (q :: q' :: qs)) with (q ++ sep ++ join sep (q' :: qs)).
  by rewrite <-!app_assoc.
Qed.

Lemma join_app sep l1 l2 :
  l1 ≠ [] → l2 ≠ [] → join sep (l1 ++ l2) = join sep l1 ++ sep ++ join sep l2.
Proof.
  intros H1 H2. induction l1 as [|q qs IH]; [done|].
  destruct qs as [|q' qs].
  - simpl app. by destruct l2.
  - change (join sep ((q :: q' :: qs) ++ l2)) with (q ++ sep ++ join sep ((q' :: qs) ++ l2)).
    rewrite IH by done.
    change (join sep (q :: q' :: qs)) with (q ++ sep ++ join sep (q' :: qs)).
    by rewrite <-!app_assoc.
Qed.

Lemma split_on_app_sep sep a b :
  split_on sep (a ++ sep :: b) = split_on sep a ++ split_on sep b.
Proof.
  induction a as [|c a IH]; simpl.
  - by rewrite (proj2 (is_char_true sep sep)).
  - rewrite IH. destruct (is_char sep c); [done|].
    destruct (split_on sep a) eqn:Ha; [by destruct (split_on_nonempty sep a)|done].
Qed.

Lemma split_on_clean sep s : Forall (λ c, c ≠ sep) s → split_on sep s = [s].
Proof.
  induction 1 as [|c s Hc _ IH]; [done|]. simpl.
  by rewrite (proj2 (is_char_false sep c)), IH.
Qed.

Lemma mapM_map {A B} (f : A → option B) (g : A → B) (l : list A) :
  Forall (λ x, f x = Some (g x)) l → mapM f l = Some (map g l).
Proof.
  induction 1 as [|x l Hx _ IH]; [done|]. simpl. by rewrite Hx, IH.
Qed.

Lemma length_concat_map {A B} (f : A → list B) (l : list A) (n : nat) :
  (∀ x, length (f x) = n) → length (concat (map f l)) = (length l * n)%nat.
Proof.
  intros Hf. induction l as [|x l IH]; [done|].
  simpl. rewrite length_app, Hf, IH. done.
Qed.

Example rstrip_example :
  rstrip (is_char "/") (txt "vllm/mistral-adapters/12//") = txt "vllm/mistral-adapters/12".
Proof. reflexivity. Qed.

Example rsplit1_example :
  rsplit1 "/" (txt "vllm/mistral-adapters/12") = [txt "vllm/mistral-adapters"; txt "12"] ∧
  rsplit1 "/" (txt "12") = [txt "12"].
Proof. split; reflexivity. Qed.

Example split_on_example :
  split_on "/" (txt "a//b/") = [txt "a"; txt ""; txt "b"; txt ""].
Proof. reflexivity. Qed.

Example fields_example :
  fields (txt "  --port 8080   --model  m ") = [txt "--port"; txt "8080"; txt "--model"; txt "m"].
Proof. reflexivity. Qed.

(** * The upload of the adapters *)

Module Upload.

(** [os.path.join(a, b)] on POSIX. *)
Definition path_join (a b : text) : text :=
  if starts_with ["/"%char] b then b
  else if bool_decide (a = []) || bool_decide (last a = Some "/"%char) then a ++ b
  else a ++ "/"%char :: b.

(** [os.path.join(a, *p)] *)
Definition path_join_all (a : text) (p : list text) : text := foldl path_join a p.

(** One round of the loop of [os.path.normpath]. *)
Definition normpath_step (initial_slashes : nat) (new_comps : list text) (comp : text)
  : list text :=
  if bool_decide (comp = []) || bool_decide (comp = txt ".") then new_comps
  else if negb (bool_decide (comp = txt ".."))
          || (bool_decide (initial_slashes = 0%nat) && bool_decide (new_comps = []))
          || bool_decide (last new_comps = Some (txt ".."))
       then new_comps ++ [comp]
       else removelast new_comps.

(** [os.path.normpath(path)] *)
Definition normpath (path : text) : text :=
  if bool_decide (path = []) then txt "."
  else
    let initial_slashes :=
      if starts_with (txt "/") path
      then if starts_with (txt "//") path && negb (starts_with (txt "///") path)
           then 2%nat else 1%nat
      else 0%nat in
    let comps := foldl (normpath_step initial_slashes) [] (split_on "/" path) in
    let path' := replicate initial_slashes "/"%char ++ join (txt "/") comps in
    if bool_decide (path' = []) then txt "." else path'.

(** [os.path.abspath(path)] in a process whose working directory is [cwd]. *)
Definition abspath (cwd path : text) : text :=
  normpath (if starts_with (txt "/") path then path else path_join cwd path).

Fixpoint common_prefix_length (l1 l2 : list text) : nat :=
  match l1, l2 with
  | a :: l1', b :: l2' =>
      if bool_decide (a = b) then S (common_prefix_length l1' l2') else 0%nat
  | _, _ => 0%nat
  end.

(** [[x for x in path.split(sep) if x]] *)
Definition components (path : text) : list text :=
  filter (λ x : text, x ≠ []) (split_on "/" path).

(** [os.path.relpath(path, start)]; [None] stands for its [ValueError]. *)
Definition relpath (cwd path start : text) : option text :=
  if bool_decide (path = []) then None
  else
    let start_list := components (abspath cwd start) in
    let path_list := components (abspath cwd path) in
    let i := common_prefix_length start_list path_list in
    let rel_list := replicate (length start_list - i) (txt "..") ++ drop i path_list in
    Some (match rel_list with
          | [] => txt "."
          | a :: p => path_join_all a p
          end).

(** The contents of a directory, as [os.walk] finds them: files, and
    folders with their own contents. *)
#[local] Unset Elimination Schemes.
Inductive entry :=
| File (name : text)
| Folder (name : text) (entries : list entry).
#[local] Set Elimination Schemes.

Definition file_names (entries : list entry) : list text :=
  omap (λ e, match e with File name => Some name | Folder _ _ => None end) entries.

Definition folder_names (entries : list entry) : list text :=
  omap (λ e, match e with Folder name _ => Some name | File _ => None end) entries.

(** [os.walk(top)], top-down: one [(root, dirs, files)] per directory. *)
Fixpoint walk_entry (top : text) (e : entry) : list (text * list text * list text) :=
  match e with
  | File _ => []
  | Folder name entries =>
      let new_path := path_join top name in
      (new_path, folder_names entries, file_names entries) ::
      flat_map (walk_entry new_path) entries
  end.

Definition walk (top : text) (entries : list entry) : list (text * list text * list text) :=
  (top, folder_names entries, file_names entries) :: flat_map (walk_entry top) entries.

(** The body of the inner loop of [upload_folder_to_s3]: the arguments of
    the [s3.upload_file] call; [None] when [relpath] raises. *)
Definition upload_file_call (cwd local_path s3_bucket s3_prefix root file : text)
  : option (text * text * text) :=
  let local_file_path := path_join root file in
  s3_object_key ← path_join s3_prefix <$> relpath cwd local_file_path local_path;
  Some (local_file_path, s3_bucket, s3_object_key).

(** [upload_folder_to_s3(local_path, s3_bucket, s3_prefix)], run in the
    working directory [cwd] with [tree] for the contents of [local_path]:
    the [upload_file] calls it makes, in order. *)
Definition upload_folder_to_s3 (cwd : text) (tree : list entry)
    (local_path s3_bucket s3_prefix : text) : option (list (text * text * text)) :=
  (λ calls, concat calls) <$>
    mapM (λ '(root, dirs, files),
            mapM (upload_file_call cwd local_path s3_bucket s3_prefix root) files)
         (walk local_path tree).

(** The files below [top], each with its path from [top] on. *)
Definition files_below (top : text) (tree : list entry) : list text :=
  concat (map (λ '(root, dirs, files), map (path_join root) files) (walk top tree)).

(** A file or directory name: not empty, without ['/'], and neither [.]
    nor [..]. *)
Definition clean (name : text) : Prop :=
  name ≠ [] ∧ Forall (λ c, c ≠ "/"%char) name ∧ name ≠ txt "." ∧ name ≠ txt "..".

#[local] Unset Elimination Schemes.
Inductive clean_entry : entry → Prop :=
| clean_file name : clean name → clean_entry (File name)
| clean_folder name entries :
    clean name → Forall clean_entry entries → clean_entry (Folder name entries).
#[local] Set Elimination Schemes.

(** An absolute path in normal form, and a relative one. *)
Definition absolute (comps : list text) : text := "/"%char :: join (txt "/") comps.

Definition relative (comps : list text) : text := join (txt "/") comps.

(** Induction on a directory tree. *)
Fixpoint entry_ind (P : entry → Prop) (Hfile : ∀ name, P (File name))
    (Hfolder : ∀ name entries, Forall P entries → P (Folder name entries))
    (e : entry) : P e :=
  match e with
  | File name => Hfile name
  | Folder name entries =>
      Hfolder name entries
        ((fix go (l : list entry) : Forall P l :=
            match l with
            | [] => Forall_nil_2 P
            | x :: l' => Forall_cons_2 P x l' (entry_ind P Hfile Hfolder x) (go l')
            end) entries)
  end.

(** The upload cell: [prefix = f'{base_prefix}/{i}'] for
    [i in range(1, n_adapters + 1)]. *)
Definition adapter_prefix (base_prefix : text) (i : Z) : text :=
  base_prefix ++ txt "/" ++ str_int i.

(** The prefixes of that loop, in order. *)
Definition adapter_prefixes (base_prefix : text) (n_adapters : Z) : list text :=
  map (adapter_prefix base_prefix) (seqZ 1 n_adapters).

(** The loop of the upload cell. *)
Definition upload_adapters (cwd : text) (tree : list entry)
    (model_dir sagemaker_session_bucket base_prefix : text) (n_adapters : Z)
  : option (list (text * text * text)) :=
  (λ calls, concat calls) <$>
    mapM (λ i, upload_folder_to_s3 cwd tree model_dir sagemaker_session_bucket
                 (adapter_prefix base_prefix i))
         (seqZ 1 n_adapters).

(** The walk by path components: the directories below a folder, each by
    the components of its path from the folder on, with its files. *)
Fixpoint visit_entry (comps : list text) (e : entry)
  : list (list text * list text * list text) :=
  match e with
  | File _ => []
  | Folder name entries =>
      (comps ++ [name], folder_names entries, file_names entries) ::
      flat_map (visit_entry (comps ++ [name])) entries
  end.

(** The same walk from the folder itself. *)
Definition visit_folder (comps : list text) (entries : list entry)
  : list (list text * list text * list text) :=
  (comps, folder_names entries, file_names entries) :: flat_map (visit_entry comps) entries.

(** The files below a folder, by the components of their paths. *)
Definition file_paths (visited : list (list text * list text * list text))
  : list (list text) :=
  concat (map (λ '(c, dirs, files), map (λ file, c ++ [file]) files) visited).

(** Below a folder, no two files and no two folders of one directory
    share a name. *)
#[local] Unset Elimination Schemes.
Inductive distinct_entry : entry → Prop :=
| distinct_file name : distinct_entry (File name)
| distinct_folder name entries :
    NoDup (file_names entries) → NoDup (folder_names entries) →
    Forall distinct_entry entries → distinct_entry (Folder name entries).
#[local] Set Elimination Schemes.

(** The same for the contents of a folder and all that is below it. *)
Definition distinct_names (entries : list entry) : Prop :=
  NoDup (file_names entries) ∧ NoDup (folder_names entries) ∧
  Forall distinct_entry entries.

#[local] Instance clean_dec name : Decision (clean name).
Proof. unfold clean. apply _. Defined.

(** A working directory and a model folder to run the upload on. *)
Definition example_cwd : list text := map txt ["home"; "ec2-user"; "SageMaker"]%string.

Definition example_tree : list entry :=
  [File (txt "adapter_config.json");
   Folder (txt "logs") [File (txt "events.out"); Folder (txt "old") []];
   File (txt "adapter_model.bin")].

(** ** Paths in normal form *)

Lemma clean_head name : clean name → starts_with ["/"%char] name = false.
Proof.
  intros (Hne & Hs & _). destruct name as [|c name]; [done|].
  inversion Hs; subst.
  change (starts_with ["/"%char] (c :: name)) with (is_char "/" c && true).
  rewrite andb_true_r. apply is_char_false. congruence.
Qed.

Lemma clean_last name : clean name → last name ≠ Some "/"%char.
Proof.
  intros (_ & Hs & _) Hl. apply last_Some in Hl as [init ->].
  apply Forall_app in Hs as [_ Hs]. by inversion Hs.
Qed.

Lemma path_join_plain a b :
  a ≠ [] → last a ≠ Some "/"%char → starts_with ["/"%char] b = false →
  path_join a b = a ++ "/"%char :: b.
Proof.
  intros Ha Hl Hb. unfold path_join. rewrite Hb.
  by rewrite bool_decide_eq_false_2, bool_decide_eq_false_2.
Qed.

Lemma path_join_nil b : starts_with ["/"%char] b = false → path_join [] b = b.
Proof. intros Hb. unfold path_join. by rewrite Hb. Qed.

Lemma relative_head comps :
  comps ≠ [] → Forall clean comps → starts_with ["/"%char] (relative comps) = false.
Proof.
  intros Hne Hc. destruct comps as [|c comps]; [done|].
  inversion Hc as [|? ? Hcl _]; subst. pose proof (clean_head _ Hcl) as Hh.
  destruct Hcl as (Hcne & _). destruct c as [|x c]; [done|].
  unfold relative. destruct comps; simpl in *; done.
Qed.

Lemma relative_last comps :
  comps ≠ [] → Forall clean comps →
  relative comps ≠ [] ∧ last (relative comps) ≠ Some "/"%char.
Proof.
  intros Hne Hc. destruct comps as [|c comps _] using rev_ind; [done|].
  apply Forall_app in Hc as [_ Hc]. inversion Hc as [|? ? Hcl _]; subst.
  pose proof (clean_last _ Hcl) as Hl. destruct Hcl as (Hcne & _).
  unfold relative. destruct comps as [|d comps].
  - simpl. done.
  - rewrite join_snoc by done. split.
    + by destruct (join (txt "/") (d :: comps)).
    + rewrite !last_app. destruct (last c) as [z|] eqn:Hz; [done|].
      by apply last_None in Hz.
Qed.

(** Joining a name to a relative path adds a component. *)
Lemma path_join_relative comps name :
  comps ≠ [] → Forall clean comps → clean name →
  path_join (relative comps) name = relative (comps ++ [name]).
Proof.
  intros Hne Hc Hn. destruct (relative_last comps Hne Hc) as [Hr Hl].
  rewrite path_join_plain by (done || by apply clean_head).
  unfold relative. by rewrite join_snoc.
Qed.

Lemma path_join_all_relative comps rest :
  comps ≠ [] → Forall clean comps → Forall clean rest →
  path_join_all (relative comps) rest = relative (comps ++ rest).
Proof.
  intros Hne Hc Hr. revert comps Hne Hc.
  induction Hr as [|x rest Hx _ IH]; intros comps Hne Hc; [by rewrite app_nil_r|].
  unfold path_join_all in *. simpl. rewrite path_join_relative by done.
  rewrite IH; [by rewrite <-app_assoc | by destruct comps |].
  apply Forall_app. split; [done|]. by constructor.
Qed.

Lemma split_on_relative comps :
  comps ≠ [] → Forall clean comps → split_on "/" (relative comps) = comps.
Proof.
  intros Hne Hc. induction Hc as [|c comps Hcl Hc IH]; [done|].
  destruct Hcl as (_ & Hs & _). unfold relative in *.
  destruct comps as [|d comps]; [by apply split_on_clean|].
  change (join (txt "/") (c :: d :: comps)) with (c ++ "/"%char :: join (txt "/") (d :: comps)).
  by rewrite split_on_app_sep, split_on_clean, IH.
Qed.

Lemma normpath_steps n acc comps :
  Forall clean comps → foldl (normpath_step n) acc comps = acc ++ comps.
Proof.
  intros Hc. revert acc. induction Hc as [|c comps Hcl _ IH]; intros acc;
    [by rewrite app_nil_r|].
  simpl. destruct Hcl as (Hne & _ & Hdot & Hdd). unfold normpath_step at 2.
  rewrite (bool_decide_eq_false_2 (c = [])), (bool_decide_eq_false_2 (c = txt ".")),
    (bool_decide_eq_false_2 (c = txt "..")) by done.
  simpl. rewrite IH. by rewrite <-app_assoc.
Qed.

(** An absolute path in normal form is its own normal form. *)
Lemma split_on_absolute comps :
  Forall clean comps →
  split_on "/" (absolute comps) = [] :: (if comps is [] then [[]] else comps).
Proof.
  intros Hc. unfold absolute.
  change ("/"%char :: join (txt "/") comps) with ([] ++ "/"%char :: relative comps).
  rewrite split_on_app_sep. destruct comps as [|c comps]; [done|].
  by rewrite (split_on_relative (c :: comps)).
Qed.

(** An absolute path in normal form is its own normal form. *)
Lemma normpath_absolute comps :
  Forall clean comps → normpath (absolute comps) = absolute comps.
Proof.
  intros Hc. unfold normpath. rewrite split_on_absolute by done.
  rewrite bool_decide_eq_false_2 by done.
  change (starts_with (txt "/") (absolute comps)) with true.
  assert (starts_with (txt "//") (absolute comps) = false) as ->.
  { destruct comps as [|c comps]; [done|].
    change (starts_with (txt "//") (absolute (c :: comps)))
      with (starts_with ["/"%char] (relative (c :: comps))).
    by rewrite relative_head. }
  simpl andb. cbv iota.
  assert (foldl (normpath_step 1) [] ([] :: (if comps is [] then [[]] else comps)) = comps)
    as ->.
  { destruct comps as [|c comps]; [done|].
    change (foldl (normpath_step 1) [] ([] :: c :: comps))
      with (foldl (normpath_step 1) [] (c :: comps)).
    by rewrite normpath_steps. }
  done.
Qed.

Lemma path_join_absolute cwd_comps comps :
  Forall clean cwd_comps → comps ≠ [] → Forall clean comps →
  path_join (absolute cwd_comps) (relative comps) = absolute (cwd_comps ++ comps).
Proof.
  intros Hcwd Hne Hc. destruct cwd_comps as [|d cwd_comps].
  - unfold path_join. rewrite relative_head by done. done.
  - destruct (relative_last (d :: cwd_comps) ltac:(done) Hcwd) as [Hr Hl].
    rewrite path_join_plain.
    + unfold absolute. fold (relative (d :: cwd_comps)). fold (relative ((d :: cwd_comps) ++ comps)).
      unfold relative. by rewrite join_app.
    + done.
    + unfold absolute. fold (relative (d :: cwd_comps)).
      change ("/"%char :: relative (d :: cwd_comps))
        with (["/"%char] ++ relative (d :: cwd_comps)).
      rewrite last_app. destruct (last (relative (d :: cwd_comps))) as [z|] eqn:Hz; [done|].
      by apply last_None in Hz.
    + by apply relative_head.
Qed.

Lemma abspath_relative cwd_comps comps :
  Forall clean cwd_comps → comps ≠ [] → Forall clean comps →
  abspath (absolute cwd_comps) (relative comps) = absolute (cwd_comps ++ comps).
Proof.
  intros Hcwd Hne Hc. unfold abspath.
  change (starts_with (txt "/") (relative comps)) with (starts_with ["/"%char] (relative comps)).
  rewrite relative_head, path_join_absolute by done.
  apply normpath_absolute. by apply Forall_app.
Qed.

Lemma filter_nonempty_clean comps :
  Forall clean comps → filter (λ x : text, x ≠ []) comps = comps.
Proof.
  induction 1 as [|c comps (Hne & _) _ IH]; [done|].
  by rewrite filter_cons_True, IH.
Qed.

Lemma components_absolute comps :
  Forall clean comps → components (absolute comps) = comps.
Proof.
  intros Hc. unfold components. rewrite split_on_absolute by done.
  rewrite filter_cons_False by (by intros H; apply H).
  destruct comps as [|c comps]; [done|]. by apply filter_nonempty_clean.
Qed.

Lemma common_prefix_length_app l r : common_prefix_length l (l ++ r) = length l.
Proof.
  induction l as [|x l IH]; [by destruct r|]. simpl.
  by rewrite bool_decide_eq_true_2, IH.
Qed.

(** [relpath] undoes the [join]: from a directory given by a relative path
    to a file below it. *)
Lemma relpath_below cwd_comps top_comps rel_comps :
  Forall clean cwd_comps → top_comps ≠ [] → Forall clean top_comps →
  rel_comps ≠ [] → Forall clean rel_comps →
  relpath (absolute cwd_comps) (relative (top_comps ++ rel_comps)) (relative top_comps) =
    Some (relative rel_comps).
Proof.
  intros Hcwd Hne Htop Hrne Hrel. unfold relpath.
  assert (Forall clean (top_comps ++ rel_comps)) as Hall by (by apply Forall_app).
  assert (top_comps ++ rel_comps ≠ []) as Hallne by (by destruct top_comps).
  destruct (relative_last _ Hallne Hall) as [Hr _].
  rewrite bool_decide_eq_false_2 by done.
  rewrite !abspath_relative by done.
  rewrite (components_absolute (cwd_comps ++ top_comps)) by (by apply Forall_app).
  rewrite (components_absolute (cwd_comps ++ top_comps ++ rel_comps))
    by (by apply Forall_app).
  rewrite (app_assoc cwd_comps), common_prefix_length_app, Nat.sub_diag, drop_app_length.
  simpl. destruct rel_comps as [|a p]; [done|].
  inversion Hrel; subst.
  by rewrite (path_join_all_relative [a]) by (done || by constructor).
Qed.

Lemma path_join_components comps name :
  Forall clean comps → clean name →
  path_join (relative comps) name = relative (comps ++ [name]).
Proof.
  intros Hc Hn. destruct comps as [|c comps].
  - apply path_join_nil. by apply clean_head.
  - by apply path_join_relative.
Qed.

Lemma file_names_clean entries :
  Forall clean_entry entries → Forall clean (file_names entries).
Proof.
  induction 1 as [|e entries He _ IH]; [constructor|].
  unfold file_names. simpl. destruct e; [|exact IH].
  constructor; [by inversion He | exact IH].
Qed.

(** The directories [os.walk] visits, by the components of their paths:
    the same below every place the walk may start from. *)
Definition visits (comps : list text) (walked : text → list (text * list text * list text))
    (triples : list (list text * list text * list text)) : Prop :=
  (∀ pre, Forall clean pre →
     walked (relative (pre ++ comps)) =
       map (λ '(c, dirs, files), (relative (pre ++ c), dirs, files)) triples) ∧
  Forall (λ '(c, dirs, files), Forall clean c ∧ Forall clean files) triples.

Lemma walk_entry_visits e :
  clean_entry e → ∀ comps, Forall clean comps →
  ∃ triples, visits comps (λ top, walk_entry top e) triples.
Proof.
  induction e as [name|name entries IH] using entry_ind; intros Hclean comps Hc.
  - exists []. by split.
  - inversion Hclean as [|? ? Hname Hentries]; subst.
    assert (Forall clean (comps ++ [name])) as Hc'
      by (apply Forall_app; split; [done | by constructor]).
    assert (∃ below, visits (comps ++ [name])
                       (λ top, flat_map (walk_entry top) entries) below) as [below [Hb1 Hb2]].
    { clear Hclean. induction entries as [|e entries IHl].
      - exists []. by split.
      - inversion IH as [|? ? IHe IHes]; subst.
        inversion Hentries as [|? ? He Hes]; subst.
        destruct (IHe He _ Hc') as (t1 & H11 & H12).
        destruct (IHl IHes Hes) as (t2 & H21 & H22).
        exists (t1 ++ t2). split.
        + intros pre Hpre. simpl. by rewrite H11, H21, map_app.
        + by apply Forall_app. }
    exists ((comps ++ [name], folder_names entries, file_names entries) :: below).
    split.
    + intros pre Hpre. simpl.
      rewrite path_join_components by (done || by apply Forall_app).
      rewrite <-app_assoc. by rewrite Hb1.
    + constructor; [|done]. split; [done|]. by apply file_names_clean.
Qed.

Lemma walk_visits entries :
  Forall clean_entry entries →
  ∃ triples, visits [] (λ top, walk top entries) triples.
Proof.
  intros Hentries.
  assert (∃ below, visits [] (λ top, flat_map (walk_entry top) entries) below)
    as [below [Hb1 Hb2]].
  { induction Hentries as [|e entries He _ IHl].
    - exists []. by split.
    - destruct (walk_entry_visits e He [] ltac:(done)) as (t1 & H11 & H12).
      destruct IHl as (t2 & H21 & H22).
      exists (t1 ++ t2). split.
      + intros pre Hpre. simpl. by rewrite H11, H21, map_app.
      + by apply Forall_app. }
  exists (([], folder_names entries, file_names entries) :: below). split.
  - intros pre Hpre. unfold walk. by rewrite Hb1.
  - constructor; [|done]. split; [done|]. by apply file_names_clean.
Qed.

Lemma relative_app l1 l2 :
  l1 ≠ [] → l2 ≠ [] → relative (l1 ++ l2) = relative l1 ++ "/"%char :: relative l2.
Proof. intros H1 H2. unfold relative. by rewrite join_app. Qed.

Lemma upload_file_call_below cwd_comps top_comps c file s3_bucket s3_prefix :
  Forall clean cwd_comps → top_comps ≠ [] → Forall clean top_comps →
  Forall clean c → clean file →
  s3_prefix ≠ [] → last s3_prefix ≠ Some "/"%char →
  upload_file_call (absolute cwd_comps) (relative top_comps) s3_bucket s3_prefix
    (relative (top_comps ++ c)) file =
  Some (relative top_comps ++ "/"%char :: path_join (relative c) file, s3_bucket,
        s3_prefix ++ "/"%char :: path_join (relative c) file).
Proof.
  intros Hcwd Hne Htop Hc Hfile Hp Hpl. unfold upload_file_call.
  assert (Forall clean (c ++ [file])) as Hrel
    by (apply Forall_app; split; [done | by constructor]).
  assert (c ++ [file] ≠ []) as Hrne by (by destruct c).
  rewrite !path_join_components by (done || by apply Forall_app).
  rewrite <-app_assoc, relpath_below by done. simpl.
  rewrite relative_app by done.
  rewrite (path_join_plain s3_prefix) by (done || by apply relative_head).
  done.
Qed.

Lemma upload_folder_paths (cwd_comps top_comps : list text) (tree : list entry)
    (s3_bucket s3_prefix : text) :
  Forall clean cwd_comps → top_comps ≠ [] → Forall clean top_comps →
  Forall clean_entry tree →
  s3_prefix ≠ [] → last s3_prefix ≠ Some "/"%char →
  upload_folder_to_s3 (absolute cwd_comps) tree (relative top_comps) s3_bucket s3_prefix =
    Some (map (λ rel, (relative top_comps ++ "/"%char :: rel, s3_bucket,
                       s3_prefix ++ "/"%char :: rel))
              (files_below [] tree)) ∧
  files_below (relative top_comps) tree =
    map (λ rel, relative top_comps ++ "/"%char :: rel) (files_below [] tree).
Proof.
  intros Hcwd Hne Htop Htree Hp Hpl.
  destruct (walk_visits tree Htree) as (triples & Hwalk & Hclean).
  pose proof (Hwalk [] ltac:(done)) as Hrel.
  pose proof (Hwalk top_comps Htop) as Habs.
  rewrite app_nil_r in Habs.
  change (relative ([] ++ [])) with (@nil ascii) in Hrel.
  unfold upload_folder_to_s3, files_below. rewrite Habs, Hrel.
  clear Hwalk Habs Hrel. split.
  - induction Hclean as [|[[c dirs] files] triples [Hc Hfiles] _ IH]; [done|].
    simpl in *.
    rewrite (mapM_map _ (λ file, (relative top_comps ++ "/"%char :: path_join (relative c) file,
                                  s3_bucket,
                                  s3_prefix ++ "/"%char :: path_join (relative c) file))).
    + simpl. destruct (mapM _ (map _ triples)) as [rest|] eqn:Hrest; [|done].
      simpl in *. injection IH as IH. by rewrite IH, map_app, !map_map.
    + eapply Forall_impl; [exact Hfiles|]. intros file Hfile. simpl.
      by apply upload_file_call_below.
  - induction Hclean as [|[[c dirs] files] triples [Hc Hfiles] _ IH]; [done|].
    simpl. rewrite IH, map_app. f_equal. rewrite map_map.
    apply map_ext_in. intros file Hin%list_elem_of_In.
    pose proof (proj1 (Forall_forall _ _) Hfiles file Hin) as Hfile.
    assert (c ++ [file] ≠ []) by (by destruct c).
    rewrite !path_join_components by (done || by apply Forall_app).
    by rewrite <-app_assoc, relative_app.
Qed.

(** X17. [upload_folder_to_s3], run in a working directory given by an
    absolute path in normal form, on a folder given by a relative path in
    normal form, with a key prefix that is not empty and does not end in
    ['/']: it never raises, and it makes one [upload_file] call per file
    below the folder, in the order of the walk; the call for the file whose
    path from the folder is [rel] uploads [local_path/rel] to the key
    [s3_prefix/rel] of the bucket. (Names are not empty, hold no ['/'] and
    are neither [.] nor [..], as in a file system.) *)
Theorem upload_folder_keys (cwd_comps top_comps : list text) (tree : list entry)
    (s3_bucket s3_prefix : text) :
  Forall clean cwd_comps → top_comps ≠ [] → Forall clean top_comps →
  Forall clean_entry tree →
  s3_prefix ≠ [] → last s3_prefix ≠ Some "/"%char →
  upload_folder_to_s3 (absolute cwd_comps) tree (relative top_comps) s3_bucket s3_prefix =
    Some (map (λ rel, (relative top_comps ++ "/"%char :: rel, s3_bucket,
                       s3_prefix ++ "/"%char :: rel))
              (files_below [] tree)) ∧
  files_below (relative top_comps) tree =
    map (λ rel, relative top_comps ++ "/"%char :: rel) (files_below [] tree).
Proof. apply upload_folder_paths. Qed.

(** *** The walk by path components *)

(** [os.walk] and the walk by components visit the same directories. *)
Lemma walk_entry_visit e :
  clean_entry e → ∀ comps pre, Forall clean comps → Forall clean pre →
  walk_entry (relative (pre ++ comps)) e =
    map (λ '(c, dirs, files), (relative (pre ++ c), dirs, files)) (visit_entry comps e).
Proof.
  induction e as [name|name entries IH] using entry_ind; intros Hclean comps pre Hc Hpre;
    [done|].
  inversion Hclean as [|? ? Hname Hentries]; subst.
  assert (Forall clean (comps ++ [name])) as Hc'
    by (apply Forall_app; split; [done | by constructor]).
  simpl. rewrite path_join_components by (done || by apply Forall_app).
  rewrite <-app_assoc. f_equal.
  clear Hclean. induction entries as [|e entries IHl]; [done|].
  inversion IH as [|? ? IHe IHes]; subst.
  inversion Hentries as [|? ? He Hes]; subst.
  simpl. rewrite map_app, <-(IHl IHes Hes), <-(IHe He) by done. done.
Qed.

Lemma walk_visit entries comps pre :
  Forall clean_entry entries → Forall clean comps → Forall clean pre →
  walk (relative (pre ++ comps)) entries =
    map (λ '(c, dirs, files), (relative (pre ++ c), dirs, files))
        (visit_folder comps entries).
Proof.
  intros Hentries Hc Hpre. unfold walk, visit_folder. simpl. f_equal.
  induction Hentries as [|e entries He _ IHl]; [done|].
  simpl. by rewrite map_app, <-IHl, <-walk_entry_visit.
Qed.

Lemma visit_entry_clean e :
  clean_entry e → ∀ comps, Forall clean comps →
  Forall (λ '(c, dirs, files), Forall clean c ∧ Forall clean files) (visit_entry comps e).
Proof.
  induction e as [name|name entries IH] using entry_ind; intros Hclean comps Hc;
    [constructor|].
  inversion Hclean as [|? ? Hname Hentries]; subst.
  assert (Forall clean (comps ++ [name])) as Hc'
    by (apply Forall_app; split; [done | by constructor]).
  simpl. constructor; [split; [done | by apply file_names_clean]|].
  clear Hclean. induction entries as [|e entries IHl]; [constructor|].
  inversion IH as [|? ? IHe IHes]; subst.
  inversion Hentries as [|? ? He Hes]; subst.
  simpl. apply Forall_app. split; [by apply IHe | by apply IHl].
Qed.

Lemma visit_folder_clean entries comps :
  Forall clean_entry entries → Forall clean comps →
  Forall (λ '(c, dirs, files), Forall clean c ∧ Forall clean files)
    (visit_folder comps entries).
Proof.
  intros Hentries Hc. unfold visit_folder.
  constructor; [split; [done | by apply file_names_clean]|].
  induction Hentries as [|e entries He _ IHl]; [constructor|].
  simpl. apply Forall_app. split; [by apply visit_entry_clean | done].
Qed.

(** *** No two files share a path *)

Lemma file_paths_app v1 v2 : file_paths (v1 ++ v2) = file_paths v1 ++ file_paths v2.
Proof. unfold file_paths. by rewrite map_app, concat_app. Qed.

Lemma file_paths_below e comps p :
  p ∈ file_paths (visit_entry comps e) →
  ∃ name entries rest, e = Folder name entries ∧ rest ≠ [] ∧ p = comps ++ name :: rest.
Proof.
  revert comps p. induction e as [name|name entries IH] using entry_ind;
    intros comps p Hin; [by apply elem_of_nil in Hin|].
  exists name, entries. simpl in Hin.
  change (file_paths ((comps ++ [name], folder_names entries, file_names entries) ::
                      flat_map (visit_entry (comps ++ [name])) entries))
    with (map (λ file, (comps ++ [name]) ++ [file]) (file_names entries) ++
          file_paths (flat_map (visit_entry (comps ++ [name])) entries)) in Hin.
  apply elem_of_app in Hin as [Hin|Hin].
  - apply list_elem_of_fmap in Hin as (file & -> & _).
    exists [file]. split; [done|]. split; [done|]. by rewrite <-app_assoc.
  - assert (∃ n' rest, p = (comps ++ [name]) ++ n' :: rest) as (n' & rest & ->).
    { clear -IH Hin. induction entries as [|e entries IHl]; [by apply elem_of_nil in Hin|].
      inversion IH as [|? ? IHe IHes]; subst. simpl in Hin.
      rewrite file_paths_app in Hin. apply elem_of_app in Hin as [Hin|Hin].
      - destruct (IHe _ _ Hin) as (n' & es' & rest & _ & _ & ->). by exists n', rest.
      - by apply IHl. }
    exists (n' :: rest). split; [done|]. split; [done|]. by rewrite <-app_assoc.
Qed.

Lemma file_paths_folder_name entries comps p :
  p ∈ file_paths (flat_map (visit_entry comps) entries) →
  ∃ name rest, name ∈ folder_names entries ∧ rest ≠ [] ∧ p = comps ++ name :: rest.
Proof.
  induction entries as [|e entries IHl]; [by intros ?%elem_of_nil|].
  simpl. rewrite file_paths_app. intros [Hin|Hin]%elem_of_app.
  - destruct (file_paths_below _ _ _ Hin) as (name & es & rest & -> & Hrest & ->).
    exists name, rest. split; [|done]. unfold folder_names. simpl. by left.
  - destruct (IHl Hin) as (name & rest & Hname & Hrest & ->).
    exists name, rest. split; [|done]. unfold folder_names in *. simpl.
    destruct e; [done | by right].
Qed.

Lemma NoDup_file_paths_folder entries comps :
  NoDup (file_names entries) → NoDup (folder_names entries) →
  Forall (λ e, ∀ comps, NoDup (file_paths (visit_entry comps e))) entries →
  NoDup (file_paths (visit_folder comps entries)).
Proof.
  intros Hfiles Hfolders IH.
  change (file_paths (visit_folder comps entries))
    with (map (λ file, comps ++ [file]) (file_names entries) ++
          file_paths (flat_map (visit_entry comps) entries)).
  apply NoDup_app. split; [|split].
  - apply NoDup_fmap_2; [|done]. intros f1 f2 H. by apply app_inj_1 in H as [_ [= ->]].
  - intros p (file & -> & _)%list_elem_of_fmap Hin.
    apply file_paths_folder_name in Hin as (n' & rest & _ & Hrest & Heq).
    apply app_inv_head in Heq. by destruct rest.
  - clear Hfiles. induction entries as [|e entries IHl]; [constructor|].
    inversion IH as [|? ? IHe IHes]; subst.
    simpl. rewrite file_paths_app. apply NoDup_app. split; [by apply IHe|]. split.
    + intros p Hp1 Hp2.
      apply file_paths_below in Hp1 as (n1 & es1 & r1 & -> & _ & ->).
      apply file_paths_folder_name in Hp2 as (n2 & r2 & Hn2 & _ & Heq).
      apply app_inv_head in Heq. injection Heq as -> _.
      unfold folder_names in Hfolders. simpl in Hfolders.
      by apply NoDup_cons in Hfolders as [Hnot _].
    + apply IHl; [|done].
      unfold folder_names in *. simpl in Hfolders.
      destruct e; [done|]. by apply NoDup_cons in Hfolders as [_ ?].
Qed.

Lemma NoDup_file_paths_entry e :
  distinct_entry e → ∀ comps, NoDup (file_paths (visit_entry comps e)).
Proof.
  induction e as [name|name entries IH] using entry_ind; intros Hd comps;
    [constructor|].
  inversion Hd as [|? ? Hfiles Hfolders Hentries]; subst.
  apply (NoDup_file_paths_folder entries (comps ++ [name])); [done..|].
  clear -IH Hentries. induction Hentries as [|e entries He _ IHl]; [constructor|].
  inversion IH; subst. constructor; [auto | by apply IHl].
Qed.

Lemma NoDup_file_paths entries comps :
  distinct_names entries → NoDup (file_paths (visit_folder comps entries)).
Proof.
  intros (Hfiles & Hfolders & Hentries).
  apply NoDup_file_paths_folder; [done..|].
  eapply Forall_impl; [done|]. intros e He. by apply NoDup_file_paths_entry.
Qed.

Lemma relative_inj c1 c2 :
  c1 ≠ [] → Forall clean c1 → c2 ≠ [] → Forall clean c2 →
  relative c1 = relative c2 → c1 = c2.
Proof.
  intros H1 Hc1 H2 Hc2 Heq.
  by rewrite <-(split_on_relative c1), <-(split_on_relative c2), Heq.
Qed.

Lemma files_below_paths tree :
  Forall clean_entry tree →
  files_below [] tree = map relative (file_paths (visit_folder [] tree)).
Proof.
  intros Htree. unfold files_below, file_paths.
  pose proof (walk_visit tree [] [] Htree ltac:(done) ltac:(done)) as Hwalk.
  change (relative ([] ++ [])) with (@nil ascii) in Hwalk. rewrite Hwalk. clear Hwalk.
  pose proof (visit_folder_clean tree [] Htree ltac:(done)) as Hclean.
  induction Hclean as [|[[c dirs] files] visited [Hc Hfiles] _ IH]; [done|].
  cbn [map concat]. rewrite IH, map_app, map_map. f_equal.
  apply map_ext_in. intros file Hin%list_elem_of_In.
  pose proof (proj1 (Forall_forall _ _) Hfiles file Hin) as Hfile.
  simpl. by rewrite path_join_components.
Qed.

Lemma file_paths_clean visited :
  Forall (λ '(c, dirs, files), Forall clean c ∧ Forall clean files) visited →
  Forall (λ p, p ≠ [] ∧ Forall clean p) (file_paths visited).
Proof.
  induction 1 as [|[[c dirs] files] visited [Hc Hfiles] _ IH]; [constructor|].
  unfold file_paths. simpl. apply Forall_app. split; [|done].
  apply Forall_fmap. eapply Forall_impl; [exact Hfiles|]. intros file Hfile. simpl.
  split; [by destruct c|]. apply Forall_app. split; [done | by constructor].
Qed.

Lemma NoDup_files_below tree :
  Forall clean_entry tree → distinct_names tree → NoDup (files_below [] tree).
Proof.
  intros Htree Hd. rewrite files_below_paths by done.
  pose proof (file_paths_clean _ (visit_folder_clean tree [] Htree ltac:(done))) as Hclean.
  pose proof (NoDup_file_paths tree [] Hd) as Hnd.
  induction Hnd as [|p paths Hnot _ IH]; [constructor|].
  inversion Hclean as [|? ? [Hp1 Hp2] Hrest]; subst.
  simpl. constructor; [|by apply IH].
  intros (q & Heq & Hq)%list_elem_of_fmap.
  pose proof (proj1 (Forall_forall _ _) Hrest q Hq) as [Hq1 Hq2].
  apply relative_inj in Heq; [by subst | done..].
Qed.

(** X19. Under the conditions of X17, when no two files and no two folders
    of a directory share a name, anywhere below the folder:
    [upload_folder_to_s3] uploads every file to a key of its own, so that
    no upload overwrites another, and no local file is uploaded twice. *)
Theorem upload_keys_distinct (cwd_comps top_comps : list text) (tree : list entry)
    (s3_bucket s3_prefix : text) :
  Forall clean cwd_comps → top_comps ≠ [] → Forall clean top_comps →
  Forall clean_entry tree → distinct_names tree →
  s3_prefix ≠ [] → last s3_prefix ≠ Some "/"%char →
  ∃ calls,
    upload_folder_to_s3 (absolute cwd_comps) tree (relative top_comps) s3_bucket s3_prefix =
      Some calls ∧
    NoDup (map (λ '(local_file_path, bucket, s3_object_key), s3_object_key) calls) ∧
    NoDup (map (λ '(local_file_path, bucket, s3_object_key), local_file_path) calls).
Proof.
  intros Hcwd Hne Htop Htree Hd Hp Hpl.
  destruct (upload_folder_paths cwd_comps top_comps tree s3_bucket s3_prefix) as [-> _];
    [done..|].
  eexists. split; [done|]. rewrite !map_map. simpl.
  split; (apply NoDup_fmap_2; [|by apply NoDup_files_below]);
    intros r1 r2 H; by apply app_inv_head in H as [= ->].
Qed.

Lemma adapter_prefix_plain base_prefix (i : Z) :
  (0 ≤ i)%Z →
  adapter_prefix base_prefix i ≠ [] ∧ last (adapter_prefix base_prefix i) ≠ Some "/"%char.
Proof.
  intros Hi. destruct (str_int_digits i Hi) as [Hne Hd]. unfold adapter_prefix.
  split; [by destruct base_prefix|].
  rewrite !last_app. destruct (last (str_int i)) as [z|] eqn:Hz.
  - intros [= ->]. apply last_Some in Hz as [init Hz]. rewrite Hz in Hd.
    apply Forall_app in Hd as [_ Hd]. by inversion Hd.
  - by apply last_None in Hz.
Qed.

Lemma upload_folder_calls (cwd_comps top_comps : list text) (tree : list entry)
    (s3_bucket s3_prefix : text) :
  Forall clean cwd_comps → top_comps ≠ [] → Forall clean top_comps →
  Forall clean_entry tree →
  s3_prefix ≠ [] → last s3_prefix ≠ Some "/"%char →
  upload_folder_to_s3 (absolute cwd_comps) tree (relative top_comps) s3_bucket s3_prefix =
    Some (map (λ rel, (relative top_comps ++ "/"%char :: rel, s3_bucket,
                       s3_prefix ++ "/"%char :: rel))
              (files_below [] tree)).
Proof. intros. by apply upload_folder_paths. Qed.

(** X18. The upload cell, under the same conditions: for every
    [n_adapters] it makes, for [i] from 1 to [n_adapters] in turn, one call
    per file of the model folder, to the key [base_prefix/i/rel]; that is
    [n_adapters] times the number of files, and none when the folder holds
    no file. *)
Theorem upload_adapters_keys (cwd_comps top_comps : list text) (tree : list entry)
    (bucket base_prefix : text) (n_adapters : Z) :
  Forall clean cwd_comps → top_comps ≠ [] → Forall clean top_comps →
  Forall clean_entry tree →
  upload_adapters (absolute cwd_comps) tree (relative top_comps) bucket base_prefix
    n_adapters =
    Some (concat (map (λ i, map (λ rel, (relative top_comps ++ "/"%char :: rel, bucket,
                                         adapter_prefix base_prefix i ++ "/"%char :: rel))
                                (files_below [] tree))
                      (seqZ 1 n_adapters))) ∧
  length (concat (map (λ i, map (λ rel, (relative top_comps ++ "/"%char :: rel, bucket,
                                         adapter_prefix base_prefix i ++ "/"%char :: rel))
                                (files_below [] tree))
                      (seqZ 1 n_adapters))) =
    (Z.to_nat n_adapters * length (files_below [] tree))%nat.
Proof.
  intros Hcwd Hne Htop Htree. split.
  - unfold upload_adapters.
    rewrite (mapM_map _ (λ i, map (λ rel, (relative top_comps ++ "/"%char :: rel, bucket,
                                           adapter_prefix base_prefix i ++ "/"%char :: rel))
                                  (files_below [] tree))); [done|].
    apply Forall_forall. intros i Hi%elem_of_seqZ.
    destruct (adapter_prefix_plain base_prefix i ltac:(lia)).
    by apply upload_folder_calls.
  - rewrite (length_concat_map _ _ (length (files_below [] tree)))
      by (intros i; by rewrite length_map).
    by rewrite length_seqZ.
Qed.

Lemma example_cwd_clean : Forall clean example_cwd.
Proof. apply (bool_decide_unpack _). vm_compute. exact I. Qed.

Lemma example_tree_clean : Forall clean_entry example_tree.
Proof.
  repeat (constructor; try (apply (bool_decide_unpack _); vm_compute; exact I)).
Qed.

Lemma upload_folder_keys_witness :
  upload_folder_to_s3 (absolute example_cwd) example_tree (relative [txt "mistral-adapter"])
    (txt "bucket") (txt "vllm/mistral-adapters/1") =
    Some (map (λ rel, (relative [txt "mistral-adapter"] ++ "/"%char :: rel, txt "bucket",
                       txt "vllm/mistral-adapters/1" ++ "/"%char :: rel))
              (files_below [] example_tree)) ∧
  files_below (relative [txt "mistral-adapter"]) example_tree =
    map (λ rel, relative [txt "mistral-adapter"] ++ "/"%char :: rel)
        (files_below [] example_tree).
Proof.
  apply (upload_folder_keys example_cwd [txt "mistral-adapter"] example_tree).
  - exact example_cwd_clean.
  - done.
  - apply (bool_decide_unpack _). vm_compute. exact I.
  - exact example_tree_clean.
  - done.
  - done.
Defined.

Lemma example_tree_distinct : distinct_names example_tree.
Proof.
  repeat (constructor; try (apply (bool_decide_unpack _); vm_compute; exact I)).
Qed.

Lemma upload_keys_distinct_witness :
  ∃ calls,
    upload_folder_to_s3 (absolute example_cwd) example_tree
      (relative [txt "mistral-adapter"]) (txt "bucket") (txt "vllm/mistral-adapters/1") =
      Some calls ∧
    NoDup (map (λ '(local_file_path, bucket, s3_object_key), s3_object_key) calls) ∧
    NoDup (map (λ '(local_file_path, bucket, s3_object_key), local_file_path) calls).
Proof.
  apply (upload_keys_distinct example_cwd [txt "mistral-adapter"] example_tree).
  - exact example_cwd_clean.
  - done.
  - apply (bool_decide_unpack _). vm_compute. exact I.
  - exact example_tree_clean.
  - exact example_tree_distinct.
  - done.
  - done.
Defined.

Example upload_example :
  upload_folder_to_s3 (txt "/home/ec2-user/SageMaker") example_tree (txt "mistral-adapter")
    (txt "bucket") (txt "vllm/mistral-adapters/1") =
  Some [(txt "mistral-adapter/adapter_config.json", txt "bucket",
         txt "vllm/mistral-adapters/1/adapter_config.json");
        (txt "mistral-adapter/adapter_model.bin", txt "bucket",
         txt "vllm/mistral-adapters/1/adapter_model.bin");
        (txt "mistral-adapter/logs/events.out", txt "bucket",
         txt "vllm/mistral-adapters/1/logs/events.out")].
Proof. vm_compute. reflexivity. Qed.

Lemma upload_adapters_keys_witness :
  upload_adapters (absolute example_cwd) example_tree (relative [txt "mistral-adapter"])
    (txt "bucket") (txt "vllm/mistral-adapters") 50 =
    Some (concat (map (λ i, map (λ rel, (relative [txt "mistral-adapter"] ++ "/"%char :: rel,
                                         txt "bucket",
                                         adapter_prefix (txt "vllm/mistral-adapters") i ++
                                           "/"%char :: rel))
                                (files_below [] example_tree))
                      (seqZ 1 50))) ∧
  length (concat (map (λ i, map (λ rel, (relative [txt "mistral-adapter"] ++ "/"%char :: rel,
                                         txt "bucket",
                                         adapter_prefix (txt "vllm/mistral-adapters") i ++
                                           "/"%char :: rel))
                                (files_below [] example_tree))
                      (seqZ 1 50))) =
    (Z.to_nat 50 * length (files_below [] example_tree))%nat.
Proof.
  apply (upload_adapters_keys example_cwd [txt "mistral-adapter"] example_tree).
  - exact example_cwd_clean.
  - done.
  - apply (bool_decide_unpack _). vm_compute. exact I.
  - exact example_tree_clean.
Defined.

(** The path functions on a few inputs, as CPython computes them. *)
Example posixpath_examples :
  map normpath (map txt [""; "a//b/"; "a/./b/../c"; "../a"; "//a"; "///a"; "/.."]%string) =
    map txt ["."; "a/b"; "a/c"; "../a"; "//a"; "/a"; "/"]%string ∧
  path_join (txt "a") (txt "/b") = txt "/b" ∧
  path_join (txt "a/") (txt "b") = txt "a/b" ∧
  path_join (txt "") (txt "b") = txt "b" ∧
  relpath (txt "/home/u") (txt "m/d/c") (txt "m") = Some (txt "d/c") ∧
  relpath (txt "/home/u") (txt "m") (txt "m/d") = Some (txt "..") ∧
  relpath (txt "/home/u") (txt "m") (txt "m") = Some (txt ".") ∧
  relpath (txt "/home/u") (txt "/x") (txt "m") = Some (txt "../../../x") ∧
  relpath (txt "/home/u") (txt "") (txt "m") = None.
Proof. vm_compute. by repeat split. Qed.

End Upload.

(** * The adapter manifest *)

Module Manifest.

(** The fields of an S3 listing response that the notebook reads. The key
    [CommonPrefixes] is absent when there is no child prefix. *)
Record response := Response {
  Contents : list text;
  CommonPrefixes : option (list text)
}.

(** Modelled from the spec: the storage-prefix listing, a service call
    ([s3.list_objects_v2] with [Delimiter='/']) whose code is not in the
    repository. It returns the immediate child "directories" under a
    prefix, not recursively: a key under the prefix with a ['/'] further on
    contributes the part up to and including that ['/'], once; a key with no
    further ['/'] is a plain object of the prefix. *)
Definition child_prefix (prefix key : text) : option text :=
  match strip_prefix prefix key with
  | Some rest =>
      if occurs ["/"%char] rest then Some (prefix ++ until "/" rest ++ ["/"%char])
      else None
  | None => None
  end.

(** Modelled from the spec: an object directly under the prefix, which the
    listing reports among its contents and not as a child "directory". *)
Definition plain_object (prefix key : text) : bool :=
  match strip_prefix prefix key with
  | Some rest => negb (occurs ["/"%char] rest)
  | None => false
  end.

(** Modelled from the spec: the response of the listing for the keys of a
    bucket (one page; the order of the keys is kept). *)
Definition list_objects_v2 (bucket : list text) (prefix : text) : response :=
  {| Contents := filter (λ key, plain_object prefix key = true) bucket;
     CommonPrefixes :=
       match remove_dups (omap (child_prefix prefix) bucket) with
       | [] => None
       | prefixes => Some prefixes
       end |}.

(** [directory_path.rstrip('/').rsplit('/', 1)[-1]] *)
Definition directory_name (directory_path : text) : text :=
  default [] (last (rsplit1 "/" (rstrip (is_char "/") directory_path))).

(** The body of [list_s3_leaf_directories], from the response on. *)
Definition leaf_directories_of (r : response) : list text :=
  map directory_name (default [] (CommonPrefixes r)).

Definition list_s3_leaf_directories (bucket : list text) (prefix : text) : list text :=
  leaf_directories_of (list_objects_v2 bucket prefix).


(** [f"{leaf_dir}=/opt/ml/model/{leaf_dir}/"] *)
Definition mount_root : text := txt "/opt/ml/model/".

Definition manifest_token (leaf_dir : text) : text :=
  leaf_dir ++ txt "=" ++ mount_root ++ leaf_dir ++ txt "/".

(** [" ".join([... for leaf_dir in leaf_directories])] *)
Definition vllm_arg_pattern (leaf_directories : list text) : text :=
  join (txt " ") (map manifest_token leaf_directories).

(** The identifiers the notebook uploads: the integers 1 to [n_adapters]. *)
Definition notebook_leaf_directories : list text :=
  map (λ i, str_int (Z.of_nat i)) (seq 1 50).

(** A bucket laid out as the notebook leaves it: adapter artifacts under
    [base_prefix/i/] and the manifest at the root of [base_prefix]. *)
Definition notebook_bucket : list text :=
  map txt ["vllm/mistral-adapters/1/adapter_config.json";
           "vllm/mistral-adapters/1/adapter_model.bin";
           "vllm/mistral-adapters/10/adapter_config.json";
           "vllm/mistral-adapters/2/adapter_config.json";
           "vllm/mistral-adapters/lora_modules.txt";
           "vllm/other/file"]%string.

(** The tokens of the manifest written for the listed child prefixes, as
    word splitting reads them back. *)
Definition registered (listed : list text) : list text :=
  fields (vllm_arg_pattern (map directory_name listed)).

(** *** The identifier is the final path segment *)



(** The child prefix [base/name/] yields [name]. *)
Lemma directory_name_child base name :
  name ≠ [] → Forall (λ c, c ≠ "/"%char) name →
  directory_name (base ++ "/"%char :: name ++ ["/"%char]) = name.
Proof.
  intros Hne Hname. unfold directory_name.
  replace (base ++ "/"%char :: name ++ ["/"%char])
    with ((base ++ "/"%char :: name) ++ ["/"%char]) by (by rewrite <-app_assoc).
  rewrite rstrip_snoc. simpl.
  destruct name as [|c name _] using rev_ind; [done|].
  apply Forall_app in Hname as [Hname Hc]. inversion Hc; subst.
  replace (base ++ "/"%char :: name ++ [c]) with ((base ++ "/"%char :: name) ++ [c])
    by (by rewrite <-app_assoc).
  rewrite rstrip_keep by (by apply is_char_false).
  rewrite <-app_assoc. simpl. apply rsplit1_last_after.
  apply Forall_app. split; [done|]. by constructor.
Qed.

(** *** The listing *)



Lemma child_prefix_not_plain prefix key child :
  child_prefix prefix key = Some child → plain_object prefix key = false.
Proof.
  unfold plain_object, child_prefix. destruct (strip_prefix prefix key); [|done].
  by destruct (occurs ["/"%char] t).
Qed.



(** *** The manifest line *)

Lemma manifest_token_no_space d : no_space d → no_space (manifest_token d).
Proof.
  intros Hd. unfold manifest_token, no_space.
  repeat (apply Forall_app; split); try done; by repeat constructor.
Qed.

Lemma manifest_token_nonempty d : manifest_token d ≠ [].
Proof. unfold manifest_token. by destruct d. Qed.




Lemma common_prefixes_list bucket prefix :
  default [] (CommonPrefixes (list_objects_v2 bucket prefix)) =
    remove_dups (omap (child_prefix prefix) bucket).
Proof.
  unfold list_objects_v2. simpl.
  by destruct (remove_dups (omap (child_prefix prefix) bucket)).
Qed.

Lemma until_nonempty sep rest :
  starts_with [sep] rest = false → occurs [sep] rest = true → until sep rest ≠ [].
Proof.
  destruct rest as [|c rest]; [done|]. simpl.
  rewrite andb_true_r. by intros ->.
Qed.

(** Sibling directories with names that are not empty give pairwise
    distinct identifiers. *)
Lemma leaf_directories_NoDup bucket base :
  (∀ key rest, key ∈ bucket → strip_prefix (base ++ ["/"%char]) key = Some rest →
               starts_with ["/"%char] rest = false) →
  NoDup (list_s3_leaf_directories bucket (base ++ ["/"%char])).
Proof.
  intros Hnames. unfold list_s3_leaf_directories, leaf_directories_of.
  rewrite common_prefixes_list.
  assert (∀ child, child ∈ remove_dups (omap (child_prefix (base ++ ["/"%char])) bucket) →
            child = (base ++ ["/"%char]) ++ directory_name child ++ ["/"%char]) as Hshape.
  { intros child (key & Hkey & Hchild)%elem_of_remove_dups%list_elem_of_omap.
    unfold child_prefix in Hchild.
    destruct (strip_prefix (base ++ ["/"%char]) key) as [rest|] eqn:Hrest; [|done].
    destruct (occurs ["/"%char] rest) eqn:Hocc; [|done]. simplify_eq.
    rewrite <-(app_assoc base). simpl.
    rewrite directory_name_child; [by rewrite <-app_assoc| |apply until_no_sep].
    apply until_nonempty; [|done]. by eapply Hnames. }
  apply (NoDup_fmap_2_strong directory_name); [|apply NoDup_remove_dups].
  intros c1 c2 H1%Hshape H2%Hshape Heq. rewrite H1, H2, Heq. done.
Qed.




Example notebook_listing :
  list_s3_leaf_directories notebook_bucket (txt "vllm/mistral-adapters/") =
    [txt "1"; txt "10"; txt "2"].
Proof. reflexivity. Qed.


(** *** The shape of an identifier *)

(** X1. Whatever the path, the identifier [list_s3_leaf_directories]
    derives from it holds no ['/']; deriving an identifier from an
    identifier gives it back; the identifier is empty exactly when the
    path is nothing but ['/'] (the empty path included); and any number of
    ['/'] added at the end of the path changes nothing. *)
Theorem directory_name_shape (directory_path : text) :
  Forall (λ c, c ≠ "/"%char) (directory_name directory_path) ∧
  directory_name (directory_name directory_path) = directory_name directory_path ∧
  (directory_name directory_path = [] ↔ Forall (λ c, c = "/"%char) directory_path) ∧
  (∀ n, directory_name (directory_path ++ replicate n "/"%char) =
        directory_name directory_path).
Proof.
  assert (Forall (λ c, c ≠ "/"%char) (directory_name directory_path)) as Hclean
    by apply rsplit1_last_no_sep.
  split; [done|]. split; [|split].
  - unfold directory_name at 1.
    rewrite rstrip_clean, rsplit1_clean; [done|done|].
    eapply Forall_impl; [exact Hclean|]. intros c Hc.
    apply (is_char_false "/" c). congruence.
  - unfold directory_name. split.
    + intros [Hnil|Hlast]%rsplit1_last_nil.
      * apply rstrip_nil in Hnil. eapply Forall_impl; [exact Hnil|].
        intros c Hc. by apply (is_char_true "/" c) in Hc.
      * by apply rstrip_not_strip_last in Hlast.
    + intros Hall.
      assert (rstrip (is_char "/") directory_path = []) as ->; [|done].
      apply rstrip_nil. eapply Forall_impl; [exact Hall|].
      intros c ->. by apply (is_char_true "/" "/").
  - intros n. unfold directory_name. rewrite rstrip_app_strip; [done|].
    by apply Forall_replicate.
Qed.

Example directory_name_edge_cases :
  map directory_name (map txt [""; "/"; "///"; "a"; "a/"; "a//"; "/a"; "a/b//"]%string) =
  map txt [""; ""; ""; "a"; "a"; "a"; "a"; "b"]%string.
Proof. reflexivity. Qed.

(** *** From the upload prefixes to the manifest *)

(** The prefix the upload cell builds for adapter [i] leads back to
    [str(i)]. *)
Lemma directory_name_adapter_prefix base_prefix (i : Z) :
  (0 ≤ i)%Z → directory_name (Upload.adapter_prefix base_prefix i ++ txt "/") = str_int i.
Proof.
  intros Hi. destruct (str_int_digits i Hi) as [Hne Hd].
  unfold Upload.adapter_prefix. rewrite <-!app_assoc.
  change (txt "/" ++ str_int i ++ txt "/") with ("/"%char :: str_int i ++ ["/"%char]).
  apply directory_name_child; [done|].
  eapply Forall_impl; [exact Hd|]. apply digit_not_slash.
Qed.

Lemma listed_identifiers base_prefix n_adapters (listed : list text) :
  listed ≡ₚ map (λ prefix, prefix ++ txt "/") (Upload.adapter_prefixes base_prefix n_adapters) →
  map directory_name listed ≡ₚ map str_int (seqZ 1 n_adapters).
Proof.
  intros ->. unfold Upload.adapter_prefixes. rewrite !map_map.
  assert (map (λ i, directory_name (Upload.adapter_prefix base_prefix i ++ txt "/"))
              (seqZ 1 n_adapters) = map str_int (seqZ 1 n_adapters)) as ->; [|done].
  apply map_ext_in. intros i Hi%list_elem_of_In%elem_of_seqZ.
  apply directory_name_adapter_prefix. lia.
Qed.

Lemma registered_tokens base_prefix n_adapters (listed : list text) :
  listed ≡ₚ map (λ prefix, prefix ++ txt "/") (Upload.adapter_prefixes base_prefix n_adapters) →
  registered listed = map manifest_token (map directory_name listed).
Proof.
  intros Hids%listed_identifiers.
  unfold registered, vllm_arg_pattern. apply fields_join_words, Forall_fmap.
  rewrite Hids. apply Forall_fmap, Forall_forall. intros i _. simpl.
  split; [apply manifest_token_nonempty|].
  apply manifest_token_no_space, str_int_word.
Qed.

Lemma registered_adapter base_prefix n_adapters (listed : list text) (i : Z) :
  listed ≡ₚ map (λ prefix, prefix ++ txt "/") (Upload.adapter_prefixes base_prefix n_adapters) →
  (1 ≤ i ≤ n_adapters)%Z → manifest_token (str_int i) ∈ registered listed.
Proof.
  intros Hlisted Hi. rewrite (registered_tokens _ _ _ Hlisted).
  apply (list_elem_of_fmap_2 manifest_token).
  rewrite (listed_identifiers _ _ _ Hlisted).
  apply (list_elem_of_fmap_2 str_int). apply elem_of_seqZ. lia.
Qed.

(** X2. The upload cell stores adapter [i] under [base_prefix/i] for [i]
    from 1 to [n_adapters]. When the listing returns those prefixes, each
    followed by ['/'], in any order, the identifiers are [str(1)] to
    [str(n_adapters)] in that order, pairwise distinct; the manifest
    written for them splits into exactly [n_adapters] tokens, one
    [identifier=/opt/ml/model/identifier/] per identifier, and the token
    of every [i] from 1 to [n_adapters] is among them. *)
Theorem uploaded_adapters_manifest (base_prefix : text) (n_adapters : Z)
    (listed : list text) :
  listed ≡ₚ map (λ prefix, prefix ++ txt "/") (Upload.adapter_prefixes base_prefix n_adapters) →
  map directory_name listed ≡ₚ map str_int (seqZ 1 n_adapters) ∧
  NoDup (map directory_name listed) ∧
  registered listed = map manifest_token (map directory_name listed) ∧
  length (registered listed) = Z.to_nat n_adapters ∧
  (∀ i, (1 ≤ i ≤ n_adapters)%Z → manifest_token (str_int i) ∈ registered listed).
Proof.
  intros Hlisted. pose proof (listed_identifiers _ _ _ Hlisted) as Hids.
  split; [done|]. split; [|split; [by eapply registered_tokens|split]].
  - rewrite Hids. apply NoDup_fmap_2_strong; [|apply NoDup_seqZ].
    intros ? ? _ _. apply str_int_inj.
  - rewrite (registered_tokens _ _ _ Hlisted), !length_map.
    rewrite <-(length_map directory_name), Hids, length_map.
    apply length_seqZ.
  - intros i Hi. by eapply registered_adapter.
Qed.

Lemma uploaded_adapters_manifest_witness :
  map directory_name
      (map (λ prefix, prefix ++ txt "/") (Upload.adapter_prefixes (txt "vllm/mistral-adapters") 50))
    ≡ₚ map str_int (seqZ 1 50) ∧
  NoDup (map directory_name
           (map (λ prefix, prefix ++ txt "/")
                (Upload.adapter_prefixes (txt "vllm/mistral-adapters") 50))) ∧
  registered (map (λ prefix, prefix ++ txt "/")
                  (Upload.adapter_prefixes (txt "vllm/mistral-adapters") 50)) =
    map manifest_token
        (map directory_name
             (map (λ prefix, prefix ++ txt "/")
                  (Upload.adapter_prefixes (txt "vllm/mistral-adapters") 50))) ∧
  length (registered (map (λ prefix, prefix ++ txt "/")
                          (Upload.adapter_prefixes (txt "vllm/mistral-adapters") 50))) =
    Z.to_nat 50 ∧
  (∀ i, (1 ≤ i ≤ 50)%Z →
     manifest_token (str_int i) ∈
       registered (map (λ prefix, prefix ++ txt "/")
                       (Upload.adapter_prefixes (txt "vllm/mistral-adapters") 50))).
Proof.
  apply (uploaded_adapters_manifest (txt "vllm/mistral-adapters") 50).
  reflexivity.
Defined.

End Manifest.

(** * The container entrypoint *)

Module Entrypoint.

(** The process environment and the files the script can read. *)
Definition environment := string → option text.

Definition files := text → option text.

(** ["$NAME"]: an unset variable expands to the empty string. *)
Definition expand (env : environment) (name : string) : text :=
  default [] (env name).

(** [$(<path)]: the contents of the file without its trailing newlines;
    empty when the file cannot be read. *)
Definition read_file (fs : files) (path : text) : text :=
  rstrip (is_char "010") (default [] (fs path)).

Definition LORA_MODULES (env : environment) (fs : files) : text :=
  read_file fs (expand env "MODEL_DIR" ++ txt "/" ++ expand env "LORA_MODULES_MANIFEST_FILE").

(** [LAUNCH_COMMAND] as first assigned (a backslash-newline inside the
    double quotes is a line continuation). *)
Definition base_command (env : environment) (fs : files) : text :=
  txt "vllm.entrypoints.openai.api_server " ++
  txt "--port 8080 " ++
  txt "--model " ++ expand env "HF_MODEL_ID" ++ txt " " ++
  txt "--max-model-len " ++ expand env "MAX_MODEL_LEN" ++ txt " " ++
  txt "--enable-lora " ++
  txt "--lora-modules " ++ LORA_MODULES env fs ++ txt " " ++
  txt "--max-loras " ++ expand env "MAX_GPU_LORAS" ++ txt " " ++
  txt "--max-cpu-loras " ++ expand env "MAX_CPU_LORAS" ++ txt " " ++
  txt "--max-num-seqs " ++ expand env "MAX_NUM_SEQS".

Definition text_eqb (a b : text) : bool := bool_decide (a = b).

(** [LAUNCH_COMMAND] after [if [ "$ENFORCE_EAGER" = "true" ]]. *)
Definition LAUNCH_COMMAND (env : environment) (fs : files) : text :=
  if text_eqb (expand env "ENFORCE_EAGER") (txt "true")
  then base_command env fs ++ txt " --enforce-eager"
  else base_command env fs.

(** The words [python3 -m $LAUNCH_COMMAND] starts the server with. *)
Definition argv (env : environment) (fs : files) : list text :=
  [txt "python3"; txt "-m"] ++ fields (LAUNCH_COMMAND env fs).

Definition base_argv (env : environment) (fs : files) : list text :=
  [txt "python3"; txt "-m"] ++ fields (base_command env fs).

Definition enforce_eager : text := txt "--enforce-eager".

(** The endpoint configuration of the notebook ([json.dumps] of each value). *)
Definition notebook_env : environment := λ name,
  if String.eqb name "MODEL_DIR" then Some (txt "/opt/ml/model")
  else if String.eqb name "LORA_MODULES_MANIFEST_FILE" then Some (txt "lora_modules.txt")
  else if String.eqb name "HF_MODEL_ID" then Some (txt "mistralai/Mistral-7B-Instruct-v0.1")
  else if String.eqb name "MAX_MODEL_LEN" then Some (txt "4096")
  else if String.eqb name "MAX_GPU_LORAS" then Some (txt "20")
  else if String.eqb name "MAX_CPU_LORAS" then Some (txt "50")
  else if String.eqb name "MAX_NUM_SEQS" then Some (txt "100")
  else if String.eqb name "ENFORCE_EAGER" then Some (txt "false")
  else None.

Definition notebook_files : files := λ path,
  if text_eqb path (txt "/opt/ml/model/lora_modules.txt")
  then Some (Manifest.vllm_arg_pattern Manifest.notebook_leaf_directories)
  else None.

(** [env] with one variable set. *)
Definition setenv (name : string) (value : text) (env : environment) : environment :=
  λ n, if String.eqb n name then Some value else env n.

Definition unsetenv (name : string) (env : environment) : environment :=
  λ n, if String.eqb n name then None else env n.

(** The words of the launch command that stand before the first value
    taken from the environment. *)
Definition module_words : list text :=
  [txt "python3"; txt "-m"; txt "vllm.entrypoints.openai.api_server";
   txt "--port"; txt "8080"; txt "--model"].

(** Where the script looks for the manifest:
    ["$MODEL_DIR/$LORA_MODULES_MANIFEST_FILE"]. *)
Definition manifest_path (env : environment) : text :=
  expand env "MODEL_DIR" ++ txt "/" ++ expand env "LORA_MODULES_MANIFEST_FILE".

(** [json.dumps] on the values the notebook passes in: a Python [bool]
    and an [int]. *)
Definition json_dumps_bool (b : bool) : text :=
  if b then txt "true" else txt "false".

Definition json_dumps_int (z : Z) : text := str_int z.

(** The [config] dictionary of the deployment cell, which becomes the
    environment of the container. The five values that go through
    [json.dumps] are parameters here; the notebook has 4096, 20, 50, 100
    and [False]. *)
Definition config (lora_modules_manifest_file : text)
    (max_model_len max_gpu_loras max_cpu_loras max_num_seqs : Z)
    (eager : bool) : environment := λ name,
  if String.eqb name "MODEL_DIR" then Some (txt "/opt/ml/model")
  else if String.eqb name "LORA_MODULES_MANIFEST_FILE" then Some lora_modules_manifest_file
  else if String.eqb name "HF_MODEL_ID" then Some (txt "mistralai/Mistral-7B-Instruct-v0.1")
  else if String.eqb name "MAX_MODEL_LEN" then Some (json_dumps_int max_model_len)
  else if String.eqb name "MAX_GPU_LORAS" then Some (json_dumps_int max_gpu_loras)
  else if String.eqb name "MAX_CPU_LORAS" then Some (json_dumps_int max_cpu_loras)
  else if String.eqb name "MAX_NUM_SEQS" then Some (json_dumps_int max_num_seqs)
  else if String.eqb name "ENFORCE_EAGER" then Some (json_dumps_bool eager)
  else None.

(** A container in which no file can be read. *)
Definition no_files : files := λ _, None.

(** *** The conditional flag *)

Lemma expand_true (env : environment) name value :
  value ≠ [] → expand env name = value ↔ env name = Some value.
Proof.
  intros Hne. unfold expand. destruct (env name) as [v|]; simpl.
  - split; [by intros -> | by intros [= ->]].
  - split; [by intros <- | done].
Qed.

Lemma launch_command_true env fs :
  env "ENFORCE_EAGER" = Some (txt "true") →
  LAUNCH_COMMAND env fs = base_command env fs ++ txt " --enforce-eager".
Proof.
  intros H. unfold LAUNCH_COMMAND, text_eqb.
  by rewrite bool_decide_eq_true_2 by (by apply expand_true).
Qed.

Lemma launch_command_other env fs :
  env "ENFORCE_EAGER" ≠ Some (txt "true") →
  LAUNCH_COMMAND env fs = base_command env fs.
Proof.
  intros H. unfold LAUNCH_COMMAND, text_eqb.
  rewrite bool_decide_eq_false_2; [done|]. by rewrite expand_true.
Qed.

Lemma argv_true env fs :
  env "ENFORCE_EAGER" = Some (txt "true") →
  argv env fs = base_argv env fs ++ [enforce_eager].
Proof.
  intros H. unfold argv, base_argv. rewrite (launch_command_true _ _ H).
  change (txt " --enforce-eager") with (" "%char :: enforce_eager).
  rewrite fields_app_space by done. by rewrite <-app_assoc.
Qed.

Lemma argv_other env fs :
  env "ENFORCE_EAGER" ≠ Some (txt "true") → argv env fs = base_argv env fs.
Proof. intros H. unfold argv, base_argv. by rewrite (launch_command_other _ _ H). Qed.

Lemma base_command_setenv env fs value :
  base_command (setenv "ENFORCE_EAGER" value env) fs = base_command env fs.
Proof. reflexivity. Qed.

Lemma base_command_unsetenv env fs :
  base_command (unsetenv "ENFORCE_EAGER" env) fs = base_command env fs.
Proof. reflexivity. Qed.


(** The values the specification names, on the notebook's configuration:
    each leaves the command line without the flag. *)
Example enforce_eager_other_values :
  Forall (λ env, argv env notebook_files = base_argv notebook_env notebook_files ∧
                 enforce_eager ∉ argv env notebook_files)
    [setenv "ENFORCE_EAGER" (txt "True") notebook_env;
     setenv "ENFORCE_EAGER" (txt "1") notebook_env;
     setenv "ENFORCE_EAGER" (txt "false") notebook_env;
     setenv "ENFORCE_EAGER" (txt "TRUE") notebook_env;
     setenv "ENFORCE_EAGER" (txt " true") notebook_env;
     setenv "ENFORCE_EAGER" (txt "") notebook_env;
     unsetenv "ENFORCE_EAGER" notebook_env].
Proof.
  assert (enforce_eager ∉ base_argv notebook_env notebook_files) as Hbase.
  { apply (bool_decide_unpack _). vm_compute. exact I. }
  repeat (constructor; [rewrite argv_other by (vm_compute; congruence); by split|]).
  constructor.
Qed.

Example enforce_eager_true :
  argv (setenv "ENFORCE_EAGER" (txt "true") notebook_env) notebook_files =
    base_argv notebook_env notebook_files ++ [enforce_eager].
Proof. by rewrite argv_true. Qed.

(** *** The words of the launch command *)

Lemma base_command_words env fs :
  fields (base_command env fs) =
    [txt "vllm.entrypoints.openai.api_server"; txt "--port"; txt "8080"; txt "--model"] ++
    fields (expand env "HF_MODEL_ID") ++
    [txt "--max-model-len"] ++ fields (expand env "MAX_MODEL_LEN") ++
    [txt "--enable-lora"; txt "--lora-modules"] ++ fields (LORA_MODULES env fs) ++
    [txt "--max-loras"] ++ fields (expand env "MAX_GPU_LORAS") ++
    [txt "--max-cpu-loras"] ++ fields (expand env "MAX_CPU_LORAS") ++
    [txt "--max-num-seqs"] ++ fields (expand env "MAX_NUM_SEQS").
Proof.
  unfold base_command.
  change (txt "vllm.entrypoints.openai.api_server ")
    with (txt "vllm.entrypoints.openai.api_server" ++ [" "%char]).
  change (txt "--port 8080 ") with (txt "--port" ++ [" "%char] ++ txt "8080" ++ [" "%char]).
  change (txt "--model ") with (txt "--model" ++ [" "%char]).
  change (txt "--max-model-len ") with (txt "--max-model-len" ++ [" "%char]).
  change (txt "--enable-lora ") with (txt "--enable-lora" ++ [" "%char]).
  change (txt "--lora-modules ") with (txt "--lora-modules" ++ [" "%char]).
  change (txt "--max-loras ") with (txt "--max-loras" ++ [" "%char]).
  change (txt "--max-cpu-loras ") with (txt "--max-cpu-loras" ++ [" "%char]).
  change (txt "--max-num-seqs ") with (txt "--max-num-seqs" ++ [" "%char]).
  change (txt " ") with [" "%char].
  rewrite <-!app_assoc, !fields_sep. reflexivity.
Qed.

Lemma launch_words (env : environment) (fs : files) :
  argv env fs =
    module_words ++ fields (expand env "HF_MODEL_ID") ++
    [txt "--max-model-len"] ++ fields (expand env "MAX_MODEL_LEN") ++
    [txt "--enable-lora"; txt "--lora-modules"] ++ fields (LORA_MODULES env fs) ++
    [txt "--max-loras"] ++ fields (expand env "MAX_GPU_LORAS") ++
    [txt "--max-cpu-loras"] ++ fields (expand env "MAX_CPU_LORAS") ++
    [txt "--max-num-seqs"] ++ fields (expand env "MAX_NUM_SEQS") ++
    (if text_eqb (expand env "ENFORCE_EAGER") (txt "true") then [enforce_eager] else []).
Proof.
  unfold argv, LAUNCH_COMMAND.
  destruct (text_eqb (expand env "ENFORCE_EAGER") (txt "true")).
  - change (txt " --enforce-eager") with ([" "%char] ++ enforce_eager).
    rewrite fields_sep, base_command_words.
    change (fields enforce_eager) with [enforce_eager].
    unfold module_words. by rewrite <-!app_assoc.
  - rewrite base_command_words, !app_nil_r. done.
Qed.

(** X3. For every environment and every file system, the words the server
    is started with are the fixed words of the script in their order and,
    after each option that takes a value, the words that word splitting
    finds in that value: none for a variable that is unset or blank,
    several for a value that holds blanks. Nothing is quoted or checked.
    (Pathname expansion of the words is left out.) *)
Theorem argv_words (env : environment) (fs : files) :
  argv env fs =
    module_words ++ fields (expand env "HF_MODEL_ID") ++
    [txt "--max-model-len"] ++ fields (expand env "MAX_MODEL_LEN") ++
    [txt "--enable-lora"; txt "--lora-modules"] ++ fields (LORA_MODULES env fs) ++
    [txt "--max-loras"] ++ fields (expand env "MAX_GPU_LORAS") ++
    [txt "--max-cpu-loras"] ++ fields (expand env "MAX_CPU_LORAS") ++
    [txt "--max-num-seqs"] ++ fields (expand env "MAX_NUM_SEQS") ++
    (if text_eqb (expand env "ENFORCE_EAGER") (txt "true") then [enforce_eager] else []).
Proof. apply launch_words. Qed.

Example argv_unset_and_blank_values :
  argv (setenv "HF_MODEL_ID" (txt "a b") (unsetenv "MAX_MODEL_LEN" notebook_env)) no_files =
    map txt ["python3"; "-m"; "vllm.entrypoints.openai.api_server"; "--port"; "8080";
             "--model"; "a"; "b"; "--max-model-len"; "--enable-lora"; "--lora-modules";
             "--max-loras"; "20"; "--max-cpu-loras"; "50"; "--max-num-seqs"; "100"]%string.
Proof. reflexivity. Qed.

(** *** The manifest, from the file to the arguments *)




(** X5. When the manifest file cannot be read, or holds the manifest of a
    listing that returned no [CommonPrefixes], the script goes on with an
    empty [LORA_MODULES]: the server is started with [--lora-modules]
    followed at once by [--max-loras], no adapter being named. *)
Theorem empty_manifest_launch (env : environment) (fs : files) (contents : list text) :
  fs (manifest_path env) = None ∨
  fs (manifest_path env) =
    Some (Manifest.vllm_arg_pattern
            (Manifest.leaf_directories_of (Manifest.Response contents None))) →
  Manifest.vllm_arg_pattern
    (Manifest.leaf_directories_of (Manifest.Response contents None)) = [] ∧
  LORA_MODULES env fs = [] ∧
  argv env fs =
    (module_words ++ fields (expand env "HF_MODEL_ID") ++
     [txt "--max-model-len"] ++ fields (expand env "MAX_MODEL_LEN") ++
     [txt "--enable-lora"]) ++
    [txt "--lora-modules"; txt "--max-loras"] ++
    (fields (expand env "MAX_GPU_LORAS") ++
     [txt "--max-cpu-loras"] ++ fields (expand env "MAX_CPU_LORAS") ++
     [txt "--max-num-seqs"] ++ fields (expand env "MAX_NUM_SEQS") ++
     (if text_eqb (expand env "ENFORCE_EAGER") (txt "true") then [enforce_eager] else [])).
Proof.
  intros Hfile.
  assert (LORA_MODULES env fs = []) as Hread.
  { unfold LORA_MODULES, read_file. fold (manifest_path env).
    by destruct Hfile as [-> | ->]. }
  split; [done|]. split; [done|].
  rewrite launch_words, Hread. by rewrite <-!app_assoc.
Qed.

Lemma empty_manifest_launch_witness :
  Manifest.vllm_arg_pattern
    (Manifest.leaf_directories_of
       (Manifest.Response [txt "vllm/mistral-adapters/lora_modules.txt"] None)) = [] ∧
  LORA_MODULES notebook_env no_files = [] ∧
  argv notebook_env no_files =
    (module_words ++ fields (expand notebook_env "HF_MODEL_ID") ++
     [txt "--max-model-len"] ++ fields (expand notebook_env "MAX_MODEL_LEN") ++
     [txt "--enable-lora"]) ++
    [txt "--lora-modules"; txt "--max-loras"] ++
    (fields (expand notebook_env "MAX_GPU_LORAS") ++
     [txt "--max-cpu-loras"] ++ fields (expand notebook_env "MAX_CPU_LORAS") ++
     [txt "--max-num-seqs"] ++ fields (expand notebook_env "MAX_NUM_SEQS") ++
     (if text_eqb (expand notebook_env "ENFORCE_EAGER") (txt "true")
      then [enforce_eager] else [])).
Proof.
  apply (empty_manifest_launch notebook_env no_files
           [txt "vllm/mistral-adapters/lora_modules.txt"]).
  left. reflexivity.
Defined.

(** *** The configuration of the deployment cell *)

Lemma config_expand file mml g c n b :
  let env := config file mml g c n b in
  expand env "MODEL_DIR" = txt "/opt/ml/model" ∧
  expand env "LORA_MODULES_MANIFEST_FILE" = file ∧
  expand env "HF_MODEL_ID" = txt "mistralai/Mistral-7B-Instruct-v0.1" ∧
  expand env "MAX_MODEL_LEN" = str_int mml ∧
  expand env "MAX_GPU_LORAS" = str_int g ∧
  expand env "MAX_CPU_LORAS" = str_int c ∧
  expand env "MAX_NUM_SEQS" = str_int n ∧
  expand env "ENFORCE_EAGER" = json_dumps_bool b.
Proof. by repeat split. Qed.

(** X6. With the environment the deployment cell declares, whatever
    integers and whatever Python [bool] it passes through [json.dumps]:
    every numeric option gets exactly one word, the decimal numeral;
    the manifest is read from [/opt/ml/model/] followed by the manifest
    file name; and [--enforce-eager] is the last word exactly when the
    [bool] is [True], because [json.dumps] writes it as [true]. *)
Theorem config_launch_command (lora_modules_manifest_file : text)
    (max_model_len max_gpu_loras max_cpu_loras max_num_seqs : Z)
    (eager : bool) (fs : files) :
  argv (config lora_modules_manifest_file max_model_len max_gpu_loras max_cpu_loras
          max_num_seqs eager) fs =
    module_words ++
    [txt "mistralai/Mistral-7B-Instruct-v0.1";
     txt "--max-model-len"; str_int max_model_len;
     txt "--enable-lora"; txt "--lora-modules"] ++
    fields (read_file fs (txt "/opt/ml/model/" ++ lora_modules_manifest_file)) ++
    [txt "--max-loras"; str_int max_gpu_loras;
     txt "--max-cpu-loras"; str_int max_cpu_loras;
     txt "--max-num-seqs"; str_int max_num_seqs] ++
    (if eager then [enforce_eager] else []).
Proof.
  rewrite launch_words. unfold LORA_MODULES.
  destruct (config_expand lora_modules_manifest_file max_model_len max_gpu_loras
              max_cpu_loras max_num_seqs eager)
    as (-> & -> & -> & -> & -> & -> & -> & ->).
  rewrite !fields_str_int.
  change (fields (txt "mistralai/Mistral-7B-Instruct-v0.1"))
    with [txt "mistralai/Mistral-7B-Instruct-v0.1"].
  change (txt "/opt/ml/model" ++ txt "/" ++ lora_modules_manifest_file)
    with (txt "/opt/ml/model/" ++ lora_modules_manifest_file).
  by destruct eager.
Qed.

(** The environment used in the examples above is the notebook's. *)
Example notebook_env_config :
  ∀ name, notebook_env name = config (txt "lora_modules.txt") 4096 20 50 100 false name.
Proof. intros name. unfold notebook_env, config. by repeat case_match. Qed.

End Entrypoint.

(** * The route substitutions of the container image *)

Module Route.

(** [sed 's|pat|rep|g'] on one line: scanning from the left, every
    occurrence of [pat] that starts outside the previous one is replaced.
    [skip] counts the characters of a matched occurrence still to drop. *)
Fixpoint gsub_from (pat rep : text) (skip : nat) (line : text) : text :=
  match line with
  | [] => []
  | c :: rest =>
      match skip with
      | S k => gsub_from pat rep k rest
      | O =>
          if starts_with pat line
          then rep ++ gsub_from pat rep (length pat - 1) rest
          else c :: gsub_from pat rep 0 rest
      end
  end.

Definition gsub (pat rep : text) (line : text) : text := gsub_from pat rep 0 line.

(** [sed -i 's|pat|rep|g' file]: the file is a list of lines. *)
Definition sed_s (pat rep : text) (file : list text) : list text :=
  map (gsub pat rep) file.

Definition health : text := txt "/health".
Definition ping : text := txt "/ping".
Definition completions : text := txt "/v1/completions".
Definition invocations : text := txt "/invocations".

(** The two [RUN sed -i ...] lines of the Dockerfile, in order. *)
Definition patch_server (file : list text) : list text :=
  sed_s completions invocations (sed_s health ping file).

Definition patch_line (line : text) : text :=
  gsub completions invocations (gsub health ping line).


(** A pattern [u] cannot be completed by the first characters of a
    replacement that starts with [a] and goes on with [r]. *)
Fixpoint safe (a r : ascii) (u : text) : bool :=
  match u with
  | [] => true
  | x :: u' =>
      (if is_char a x
       then match u' with [] => true | y :: _ => negb (is_char r y) end
       else true) && safe a r u'
  end.

(** *** Occurrences *)

Lemma gsub_cons pat rep c s :
  gsub pat rep (c :: s) =
    if starts_with pat (c :: s)
    then rep ++ gsub_from pat rep (length pat - 1) s
    else c :: gsub pat rep s.
Proof. done. Qed.



Lemma gsub_copy a p rep u s :
  Forall (λ c, c ≠ a) u → gsub (a :: p) rep (u ++ s) = u ++ gsub (a :: p) rep s.
Proof.
  induction 1 as [|c u Hc _ IH]; [done|].
  by rewrite <-!app_comm_cons, gsub_cons, starts_with_other, IH.
Qed.

(** *** One substitution whose pattern and replacement start alike *)

Section Replace.

Variables (a r : ascii) (pbody rbody : text).

Hypothesis rep_tail_clean : Forall (λ c, c ≠ a) (r :: rbody).

Lemma starts_with_gsub u s :
  safe a r u = true →
  starts_with u (gsub (a :: pbody) (a :: r :: rbody) s) = true →
  starts_with u s = true.
Proof.
  revert s. induction u as [|x u IH]; [done|]. intros s [Hx Hu]%andb_prop.
  destruct s as [|c s]; [done|]. rewrite gsub_cons.
  destruct (starts_with (a :: pbody) (c :: s)) eqn:Hm.
  - simpl. intros [Hxa Hrest]%andb_prop.
    apply is_char_true in Hxa. subst x.
    rewrite (proj2 (is_char_true a a)) in Hx by done.
    apply andb_prop in Hm as [-> _]. simpl.
    destruct u as [|y u]; [done|]. simpl in Hrest.
    apply andb_prop in Hrest as [Hyr _]. apply is_char_true in Hyr. subst y.
    by rewrite (proj2 (is_char_true r r)) in Hx.
  - simpl. intros [Hxc Hrest]%andb_prop. rewrite Hxc. simpl. by apply IH.
Qed.




End Replace.

(** *** The two substitutions of the Dockerfile *)







Lemma completions_in_health_output s :
  starts_with completions (gsub health ping s) = true →
  starts_with completions s = true.
Proof.
  apply (starts_with_gsub "/" "p" (txt "health") (txt "ing")). done.
Qed.




(** The other routes of the wrapped server keep their paths. *)
Example other_routes_untouched :
  map patch_line (map txt ["/v1/chat/completions"; "/v1/models"; "/version";
                           "@app.get(/health)"; "@app.post(/v1/completions)"]%string) =
  map txt ["/v1/chat/completions"; "/v1/models"; "/version";
           "@app.get(/ping)"; "@app.post(/invocations)"]%string.
Proof. reflexivity. Qed.

(** The substitution is by substring: a longer path that starts with one of
    the two is rewritten in that part. *)
Example longer_route_rewritten : patch_line (txt "/healthz") = txt "/pingz".
Proof. reflexivity. Qed.

(** *** The order of the two substitutions *)

Lemma starts_with_self pat s : starts_with pat (pat ++ s) = true.
Proof. induction pat as [|a p IH]; simpl; [done|]. by rewrite (proj2 (is_char_true a a)). Qed.

Lemma gsub_from_skip pat rep u s :
  gsub_from pat rep (length u) (u ++ s) = gsub pat rep s.
Proof. induction u as [|c u IH]; [done|]. simpl. exact IH. Qed.

(** An occurrence at the head of the line is replaced and the scan goes on
    behind it. *)
Lemma gsub_match a p rep s :
  gsub (a :: p) rep ((a :: p) ++ s) = rep ++ gsub (a :: p) rep s.
Proof.
  rewrite <-app_comm_cons, gsub_cons, app_comm_cons, starts_with_self.
  replace (length (a :: p) - 1)%nat with (length p) by (simpl; lia).
  by rewrite gsub_from_skip.
Qed.

(** Neither substitution finds its pattern inside a path of the other, old
    or new: it copies that path. *)
Lemma health_copies_completions s :
  gsub health ping (completions ++ s) = completions ++ gsub health ping s.
Proof. reflexivity. Qed.

Lemma health_copies_invocations s :
  gsub health ping (invocations ++ s) = invocations ++ gsub health ping s.
Proof. reflexivity. Qed.

Lemma completions_copies_health s :
  gsub completions invocations (health ++ s) = health ++ gsub completions invocations s.
Proof. reflexivity. Qed.

Lemma completions_copies_ping s :
  gsub completions invocations (ping ++ s) = ping ++ gsub completions invocations s.
Proof. reflexivity. Qed.

Lemma health_in_completions_output s :
  starts_with health (gsub completions invocations s) = true →
  starts_with health s = true.
Proof.
  apply (starts_with_gsub "/" "i" (txt "v1/completions") (txt "nvocations")). done.
Qed.

Lemma split_head (pat : text) c line n :
  starts_with pat (c :: line) = true → (length (c :: line) ≤ S n)%nat → pat ≠ [] →
  ∃ rest, c :: line = pat ++ rest ∧ (length rest ≤ n)%nat.
Proof.
  intros Hs Hlen Hne. apply starts_with_app in Hs.
  exists (drop (length pat) (c :: line)). split; [done|].
  apply (f_equal length) in Hs. rewrite length_app in Hs.
  destruct pat; [done|]. simpl in *. lia.
Qed.

Lemma substitutions_commute_bounded n line :
  (length line ≤ n)%nat →
  gsub completions invocations (gsub health ping line) =
  gsub health ping (gsub completions invocations line).
Proof.
  revert line. induction n as [|n IH]; intros line Hlen.
  - destruct line; [done | simpl in Hlen; lia].
  - destruct line as [|c line]; [done|].
    destruct (starts_with health (c :: line)) eqn:Hh.
    + destruct (split_head _ _ _ _ Hh Hlen ltac:(done)) as (rest & -> & Hrest).
      rewrite (gsub_match "/" (txt "health")), completions_copies_ping.
      rewrite completions_copies_health, (gsub_match "/" (txt "health")).
      by rewrite IH.
    + destruct (starts_with completions (c :: line)) eqn:Hc.
      * destruct (split_head _ _ _ _ Hc Hlen ltac:(done)) as (rest & -> & Hrest).
        rewrite health_copies_completions, (gsub_match "/" (txt "v1/completions")).
        rewrite (gsub_match "/" (txt "v1/completions")), health_copies_invocations.
        by rewrite IH.
      * assert (gsub health ping (c :: line) = c :: gsub health ping line) as E1
          by (by rewrite gsub_cons, Hh).
        assert (gsub completions invocations (c :: line) =
                c :: gsub completions invocations line) as E2
          by (by rewrite gsub_cons, Hc).
        rewrite E1, E2, !gsub_cons.
        destruct (starts_with completions (c :: gsub health ping line)) eqn:Hc'.
        { rewrite <-E1 in Hc'. apply completions_in_health_output in Hc'. congruence. }
        destruct (starts_with health (c :: gsub completions invocations line)) eqn:Hh'.
        { rewrite <-E2 in Hh'. apply health_in_completions_output in Hh'. congruence. }
        rewrite IH; [done|]. simpl in Hlen. lia.
Qed.

(** X7. The two [RUN sed] lines of the Dockerfile can be swapped: on every
    file, and on every line, substituting [/v1/completions] first and
    [/health] second gives the same text as the order of the Dockerfile. *)
Theorem substitutions_commute (file : list text) :
  patch_server file = sed_s health ping (sed_s completions invocations file) ∧
  ∀ line, patch_line line = gsub health ping (gsub completions invocations line).
Proof.
  assert (∀ line, patch_line line = gsub health ping (gsub completions invocations line))
    as Hline by (intros line; by apply (substitutions_commute_bounded (length line))).
  split; [|done]. unfold patch_server, sed_s. rewrite !map_map.
  apply map_ext. intros line. apply Hline.
Qed.

End Route.

(** * The benchmark harness *)

Module Harness.

Local Open Scope Z_scope.

(** Exceptions that end a worker thread. *)
Inductive exn :=
| PredictError   (* raised by [vllm_predictor.predict] *)
| IndexError.    (* raised by [adapter_counters[adapter_id - 1]] *)

(** Where a worker thread stands inside [invoke_adapter]. *)
Inductive pc :=
| AtLock                     (* top of [while True], before [with counters_lock] *)
| Testing                    (* lock held, before the eligibility test *)
| Claiming (adapter_id : Z)  (* lock held, test passed, before the decrement *)
| Releasing (adapter_id : Z) (* lock held, decrement done, leaving the [with] block *)
| Calling (adapter_id : Z)   (* lock released, [predict] in flight *)
| Leaving                    (* after [break], before [aggregate_latency.extend] *)
| Finished                   (* [invoke_adapter] returned *)
| Crashed (e : exn).         (* an exception ended the thread *)

Record worker := Worker {
  w_pc : pc;
  latencies : list Q;          (* the local list [latencies] *)
  aggregate_latency : list Q   (* the list [thread_latencies] handed in by the caller *)
}.

Record payload := Payload {
  model : text;
  prompt : text;
  max_tokens : Z;
  temperature : Z
}.

Record state := State {
  total_requests : Z;          (* module-level global *)
  adapter_counters : list Z;   (* module-level global *)
  counters_lock : option nat;  (* [None]: free; [Some t]: held by worker [t] *)
  workers : list worker;       (* the threads of the current [benchmark_scenario] *)
  sent : list payload          (* payloads handed to [predict], oldest first *)
}.

Definition the_prompt : text :=
  txt "[INST] Natalia sold clips to 48 of her friends in April, and then she sold half as many clips in May. How many clips did Natalia sell altogether in April and May? [/INST]".

Definition payload_adapter (adapter_id : Z) : payload :=
  {| model := str_int adapter_id; prompt := the_prompt;
     max_tokens := 64; temperature := 0 |}.

(** [[i for i, count in enumerate(adapter_counters) if count > 0]] *)
Fixpoint remaining_from (i : nat) (counters : list Z) : list nat :=
  match counters with
  | [] => []
  | count :: rest =>
      if 0 <? count then i :: remaining_from (S i) rest
      else remaining_from (S i) rest
  end.

Definition remaining_adapters (counters : list Z) : list nat :=
  remaining_from 0%nat counters.

(** Python list indexing: a negative index counts from the end, an index
    outside [-len, len) raises [IndexError]. *)
Definition py_index {A} (l : list A) (i : Z) : option nat :=
  let n := Z.of_nat (length l) in
  if (0 <=? i) && (i <? n) then Some (Z.to_nat i)
  else if (- n <=? i) && (i <? 0) then Some (Z.to_nat (n + i))
  else None.

(** Field updates. *)
Definition set_pc (p : pc) (w : worker) : worker :=
  {| w_pc := p; latencies := latencies w; aggregate_latency := aggregate_latency w |}.

Definition append_latency (latency : Q) (w : worker) : worker :=
  {| w_pc := w_pc w; latencies := latencies w ++ [latency];
     aggregate_latency := aggregate_latency w |}.

Definition extend (w : worker) : worker :=
  {| w_pc := w_pc w; latencies := latencies w;
     aggregate_latency := aggregate_latency w ++ latencies w |}.

Definition set_worker (t : nat) (w : worker) (s : state) : state :=
  {| total_requests := total_requests s; adapter_counters := adapter_counters s;
     counters_lock := counters_lock s; workers := <[t := w]> (workers s);
     sent := sent s |}.

Definition set_lock (l : option nat) (s : state) : state :=
  {| total_requests := total_requests s; adapter_counters := adapter_counters s;
     counters_lock := l; workers := workers s; sent := sent s |}.

Definition set_total (n : Z) (s : state) : state :=
  {| total_requests := n; adapter_counters := adapter_counters s;
     counters_lock := counters_lock s; workers := workers s; sent := sent s |}.

Definition set_counters (c : list Z) (s : state) : state :=
  {| total_requests := total_requests s; adapter_counters := c;
     counters_lock := counters_lock s; workers := workers s; sent := sent s |}.

Definition send (p : payload) (s : state) : state :=
  {| total_requests := total_requests s; adapter_counters := adapter_counters s;
     counters_lock := counters_lock s; workers := workers s; sent := sent s ++ [p] |}.

(** What a scheduler and the environment decide at each step. *)
Inductive event :=
| EAcquire                (* the worker obtains [counters_lock] *)
| ETest (pick : nat)      (* eligibility test; [pick] is what [random.choice] draws *)
| EDecrement              (* [total_requests -= 1] or [adapter_counters[..] -= 1] *)
| ERelease                (* end of the [with] block, then the call is issued *)
| EReturn (latency : Q)   (* [predict] returns after [latency] seconds *)
| ERaise                  (* [predict] raises *)
| EExtend.                (* [aggregate_latency.extend(latencies)] *)

(** One step of worker [t] of [invoke_adapter(_, single_adapter)]. *)
Definition exec (single_adapter : bool) (t : nat) (e : event) (s : state)
  : option state :=
  match workers s !! t with
  | None => None
  | Some w =>
      match w_pc w, e with
      | AtLock, EAcquire =>
          match counters_lock s with
          | None => Some (set_worker t (set_pc Testing w) (set_lock (Some t) s))
          | Some _ => None
          end
      | Testing, ETest pick =>
          if single_adapter then
            if 0 <? total_requests s
            then Some (set_worker t (set_pc (Claiming 1) w) s)
            else Some (set_worker t (set_pc Leaving w) (set_lock None s))
          else
            match remaining_adapters (adapter_counters s) with
            | [] => Some (set_worker t (set_pc Leaving w) (set_lock None s))
            | remaining =>
                match remaining !! pick with
                | Some i => Some (set_worker t (set_pc (Claiming (Z.of_nat i + 1)) w) s)
                | None => None
                end
            end
      | Claiming adapter_id, EDecrement =>
          if single_adapter then
            Some (set_worker t (set_pc (Releasing adapter_id) w)
                    (set_total (total_requests s - 1) s))
          else
            match py_index (adapter_counters s) (adapter_id - 1) with
            | Some i =>
                Some (set_worker t (set_pc (Releasing adapter_id) w)
                        (set_counters (alter (fun c => c - 1) i (adapter_counters s)) s))
            | None =>
                Some (set_worker t (set_pc (Crashed IndexError) w) (set_lock None s))
            end
      | Releasing adapter_id, ERelease =>
          Some (set_worker t (set_pc (Calling adapter_id) w)
                  (send (payload_adapter adapter_id) (set_lock None s)))
      | Calling _, EReturn latency =>
          Some (set_worker t (append_latency latency (set_pc AtLock w)) s)
      | Calling _, ERaise =>
          Some (set_worker t (set_pc (Crashed PredictError) w) s)
      | Leaving, EExtend =>
          Some (set_worker t (set_pc Finished (extend w)) s)
      | _, _ => None
      end
  end.

Definition step (single_adapter : bool) (s s' : state) : Prop :=
  ∃ t e, exec single_adapter t e s = Some s'.

Definition reachable (single_adapter : bool) : state → state → Prop :=
  rtc (step single_adapter).

(** Module-level configuration cell: [total_requests = T], [num_adapters = A],
    [adapter_counters = [T // A] * A]. Division by zero raises. *)
Definition configure (T A : Z) : option state :=
  if A =? 0 then None
  else Some {| total_requests := T;
               adapter_counters := replicate (Z.to_nat A) (T / A);
               counters_lock := None; workers := []; sent := [] |}.

Definition fresh_worker : worker :=
  {| w_pc := AtLock; latencies := []; aggregate_latency := [] |}.

(** [benchmark_scenario] up to the joins: [num_threads] workers, each with its
    own empty [thread_latencies]; the globals are whatever the module holds. *)
Definition benchmark_start (num_threads : nat) (s : state) : state :=
  {| total_requests := total_requests s; adapter_counters := adapter_counters s;
     counters_lock := counters_lock s;
     workers := replicate num_threads fresh_worker; sent := [] |}.

(** [thread.join()] returns for a thread that returned or died. *)
Definition terminated (w : worker) : bool :=
  match w_pc w with Finished | Crashed _ => true | _ => false end.

Definition finished (w : worker) : bool :=
  match w_pc w with Finished => true | _ => false end.

Definition crashed (w : worker) : bool :=
  match w_pc w with Crashed _ => true | _ => false end.

Definition all_joined (s : state) : bool := forallb terminated (workers s).

Definition all_finished (s : state) : bool := forallb finished (workers s).

Definition all_latencies (s : state) : list (list Q) :=
  map aggregate_latency (workers s).

(** [sum([len(latencies) for latencies in all_latencies])] *)
Definition total_requests_made (s : state) : Z :=
  foldr Z.add 0 (map (fun l => Z.of_nat (length l)) (all_latencies s)).

(** ** Bookkeeping for the invariant *)

Definition sumZ (l : list Z) : Z := foldr Z.add 0 l.

Definition sumw (f : worker → Z) (ws : list worker) : Z := sumZ (map f ws).

(** The counter that the mode draws from. *)
Definition budget (single_adapter : bool) (s : state) : Z :=
  if single_adapter then total_requests s else sumZ (adapter_counters s).

(** Inside the [with counters_lock] block. *)
Definition in_cs (p : pc) : bool :=
  match p with Testing | Claiming _ | Releasing _ => true | _ => false end.

(** A unit taken from the budget whose call is not issued yet. *)
Definition pending (w : worker) : Z :=
  match w_pc w with Releasing _ => 1 | _ => 0 end.

(** A call that was issued and has not produced a latency. *)
Definition unrecorded (w : worker) : Z :=
  match w_pc w with Calling _ | Crashed PredictError => 1 | _ => 0 end.

Definition recorded (w : worker) : Z := Z.of_nat (length (latencies w)).

(** The unit a worker is about to take is still there. *)
Definition claimable (single_adapter : bool) (adapter_id : Z) (s : state) : Prop :=
  if single_adapter then adapter_id = 1 ∧ 0 < total_requests s
  else 1 ≤ adapter_id ∧
       ∃ c, adapter_counters s !! Z.to_nat (adapter_id - 1) = Some c ∧ 0 < c.

Definition valid_id (single_adapter : bool) (adapter_id : Z) (s : state) : Prop :=
  if single_adapter then adapter_id = 1
  else 1 ≤ adapter_id ≤ Z.of_nat (length (adapter_counters s)).

Definition pc_id (p : pc) : option Z :=
  match p with
  | Claiming i | Releasing i | Calling i => Some i
  | _ => None
  end.

(** The invariant of one call of [benchmark_scenario] that started with
    budget [B0]: the lock is held exactly by the worker inside the [with]
    block; no counter is negative; a worker between test and decrement
    still finds its unit; every unit taken from the budget is a call issued
    or about to be; every call issued is a recorded latency, a call in
    flight or a crash; a worker that left its loop saw the budget spent. *)
Record inv (single_adapter : bool) (B0 : Z) (s : state) : Prop := Inv {
  inv_lock : ∀ t w, workers s !! t = Some w →
    in_cs (w_pc w) = true ↔ counters_lock s = Some t;
  inv_owner : ∀ t, counters_lock s = Some t → is_Some (workers s !! t);
  inv_total : 0 ≤ total_requests s;
  inv_counters : Forall (λ c, 0 ≤ c) (adapter_counters s);
  inv_claim : ∀ t w i, workers s !! t = Some w → w_pc w = Claiming i →
    claimable single_adapter i s;
  inv_ids : ∀ t w i, workers s !! t = Some w → pc_id (w_pc w) = Some i →
    valid_id single_adapter i s;
  inv_budget :
    budget single_adapter s + Z.of_nat (length (sent s)) + sumw pending (workers s) = B0;
  inv_calls :
    Z.of_nat (length (sent s)) = sumw recorded (workers s) + sumw unrecorded (workers s);
  inv_exhausted : ∀ t w, workers s !! t = Some w →
    w_pc w = Leaving ∨ w_pc w = Finished → budget single_adapter s ≤ 0;
  inv_aggregate : ∀ t w, workers s !! t = Some w →
    aggregate_latency w = if finished w then latencies w else [];
  inv_index : ∀ t w, workers s !! t = Some w → w_pc w ≠ Crashed IndexError;
  inv_sent : Forall (λ p, ∃ i, valid_id single_adapter i s ∧ p = payload_adapter i) (sent s)
}.

(** A run may start from any module state whose counters are not negative
    and whose lock is free. *)
Definition ready (s : state) : Prop :=
  0 ≤ total_requests s ∧ Forall (λ c, 0 ≤ c) (adapter_counters s) ∧
  counters_lock s = None.

(** ** An executable scheduler

    [drive] runs the workers round-robin, every remote call returning; it
    produces concrete runs of the model. *)

Definition next_event (s : state) (t : nat) (w : worker) : option event :=
  match w_pc w with
  | AtLock => match counters_lock s with None => Some EAcquire | Some _ => None end
  | Testing => Some (ETest t)
  | Claiming _ => Some EDecrement
  | Releasing _ => Some ERelease
  | Calling i => Some (EReturn (Z.of_nat t + i # 8))
  | Leaving => Some EExtend
  | Finished | Crashed _ => None
  end.

(** [random.choice] stand-in: the draw is reduced into the range of the list. *)
Definition clamp_pick (single_adapter : bool) (s : state) (e : event) : event :=
  match e with
  | ETest k =>
      ETest (if single_adapter then k
             else k `mod` length (remaining_adapters (adapter_counters s)))%nat
  | _ => e
  end.

Fixpoint first_enabled (single_adapter : bool) (s : state) (order : list nat)
  : option state :=
  match order with
  | [] => None
  | t :: rest =>
      match workers s !! t ≫= next_event s t with
      | Some e =>
          match exec single_adapter t (clamp_pick single_adapter s e) s with
          | Some s' => Some s'
          | None => first_enabled single_adapter s rest
          end
      | None => first_enabled single_adapter s rest
      end
  end.

Fixpoint drive (single_adapter : bool) (fuel : nat) (s : state) : state :=
  match fuel with
  | O => s
  | S n =>
      let W := length (workers s) in
      match first_enabled single_adapter s (rotate (fuel `mod` W) (seq 0 W)) with
      | Some s' => drive single_adapter n s'
      | None => s
      end
  end.

(** ** A measure that every step lowers *)

(** The distance of a worker from the end of its current loop round. *)
Definition rank (w : worker) : Z :=
  match w_pc w with
  | AtLock => 5
  | Testing => 4
  | Claiming _ => 3
  | Releasing _ => 8
  | Calling _ => 7
  | Leaving => 1
  | Finished | Crashed _ => 0
  end.

Definition measure (single_adapter : bool) (s : state) : Z :=
  6 * budget single_adapter s + sumw rank (workers s).

(** ** The notebook session: any sequence of [benchmark_scenario] calls

    A state of the session is the mode of the current call with the state
    of its workers and of the module globals. A new call may start once the
    workers of the previous one are joined; it keeps the globals. *)

Inductive notebook_step : bool * state → bool * state → Prop :=
| nb_worker m s s' :
    step m s s' → notebook_step (m, s) (m, s')
| nb_scenario m m' num_threads s :
    all_joined s = true → notebook_step (m, s) (m', benchmark_start num_threads s).

Definition session : bool * state → bool * state → Prop := rtc notebook_step.

(** Where the workers of a call that issues nothing can stand. *)
Definition idle_pc (p : pc) : Prop :=
  p = AtLock ∨ p = Testing ∨ p = Leaving ∨ p = Finished.

(** Every adapter identifier in use is 1. *)
Definition single_ids (s : state) : Prop :=
  (∀ t w i, workers s !! t = Some w → pc_id (w_pc w) = Some i → i = 1) ∧
  Forall (λ p, p = payload_adapter 1) (sent s).

(** ** The notebook's configuration and concrete runs from it *)

(** [total_requests = 300], [num_adapters = 50]. *)
Definition notebook_globals : state :=
  {| total_requests := 300; adapter_counters := replicate 50 6;
     counters_lock := None; workers := []; sent := [] |}.

(** The first call of the notebook, [benchmark_scenario(single_adapter=True)]
    with [num_threads = 20], run to its end. *)
Definition single_run : state :=
  drive true 2000 (benchmark_start 20 notebook_globals).

(** A complete random-mode call on the fresh configuration. *)
Definition random_run : state :=
  drive false 2000 (benchmark_start 20 notebook_globals).

(** A second single-adapter call after the first. *)
Definition second_single_run : state :=
  drive true 200 (benchmark_start 20 single_run).

(** The random-mode call that follows the first one in the notebook,
    stopped while workers are inside the [with] block and in calls. *)
Definition midway : state :=
  drive false 334 (benchmark_start 20 single_run).

(** ** The statistics of [benchmark_scenario] *)

Inductive error := ZeroDivisionError.

Inductive outcome (A : Type) :=
| Returned (a : A)
| Raised (e : error).

Arguments Returned {A} a.
Arguments Raised {A} e.

Record report := Report {
  total_time : Q;
  average_latency : Q;
  throughput : Q
}.

(** Python's [sum] over numbers: additions from the left, starting at 0. *)
Definition sumQ (l : list Q) : Q := foldl Qplus (0 # 1) l.

(** Python's [/]: raises on a zero divisor. *)
Definition py_div (a b : Q) : outcome Q :=
  if Qeq_bool b (0 # 1) then Raised ZeroDivisionError else Returned (Qdiv a b).

(** The lines of [benchmark_scenario] after the joins. [now1] and [now2]
    are what [time.time()] reads for the throughput and for the printed
    total time. *)
Definition statistics (all_latencies : list (list Q)) (start_time now1 now2 : Q)
  : outcome report :=
  let total_latency := sumQ (map sumQ all_latencies) in
  let total_requests_made :=
    foldr Z.add 0 (map (λ l, Z.of_nat (length l)) all_latencies) in
  match py_div total_latency (inject_Z total_requests_made) with
  | Raised e => Raised e
  | Returned average =>
      match py_div (inject_Z total_requests_made) (Qminus now1 start_time) with
      | Raised e => Raised e
      | Returned per_second =>
          Returned {| total_time := Qminus now2 start_time;
                      average_latency := average;
                      throughput := per_second |}
      end
  end.

(** [benchmark_scenario] from the joins on: nothing is computed while a
    [thread.join()] still blocks. *)
Definition benchmark_scenario_end (s : state) (start_time now1 now2 : Q)
  : option (outcome report) :=
  if all_joined s then Some (statistics (all_latencies s) start_time now1 now2)
  else None.

(** A lone worker whose first call raises: the run is joined with one call
    issued, the counter at 299 and no statistics. *)
Definition lone_crash : option state :=
  let s0 := benchmark_start 1 notebook_globals in
  s1 ← exec true 0 EAcquire s0;
  s2 ← exec true 0 (ETest 0) s1;
  s3 ← exec true 0 EDecrement s2;
  s4 ← exec true 0 ERelease s3;
  exec true 0 ERaise s4.

(** ** Bookkeeping per adapter *)

(** The calls issued so far for one adapter: the payloads handed to
    [predict] whose [model] is [str(adapter_id)]. *)
Definition calls_to (adapter_id : Z) (s : state) : Z :=
  Z.of_nat (length (filter (λ p, model p = str_int adapter_id) (sent s))).

(** A unit taken from the counter of [adapter_id] whose call is not issued
    yet. *)
Definition pending_for (adapter_id : Z) (w : worker) : Z :=
  match w_pc w with
  | Releasing i => if i =? adapter_id then 1 else 0
  | _ => 0
  end.

(** Per adapter: what its counter lost since the call started is a call
    issued or about to be. *)
Definition tally (initial : list Z) (s : state) : Prop :=
  length (adapter_counters s) = length initial ∧
  ∀ (k : nat) c0, initial !! k = Some c0 →
    ∃ c, adapter_counters s !! k = Some c ∧
         c + calls_to (Z.of_nat k + 1) s +
           sumw (pending_for (Z.of_nat k + 1)) (workers s) = c0.

(** The calls of a thread that an exception ended: its local [latencies]
    never reach [aggregate_latency]. *)
Definition lost_calls (w : worker) : Z :=
  if crashed w then recorded w + unrecorded w else 0.

(** The warm-up cell: one call per adapter,
    [for i in range(1, n_adapters + 1)]. *)
Definition warm_up (n_adapters : Z) : list payload :=
  map payload_adapter (seqZ 1 n_adapters).

(** ** Schedules played step by step, and more concrete runs *)

(** Which worker moves, and how. *)
Fixpoint replay (single_adapter : bool) (schedule : list (nat * event)) (s : state)
  : option state :=
  match schedule with
  | [] => Some s
  | (t, e) :: rest => exec single_adapter t e s ≫= replay single_adapter rest
  end.

(** Worker 0 completes one call, then its second call raises. *)
Definition crash_schedule : list (nat * event) :=
  [(0, EAcquire); (0, ETest 0); (0, EDecrement); (0, ERelease); (0, EReturn (1 # 2));
   (0, EAcquire); (0, ETest 0); (0, EDecrement); (0, ERelease); (0, ERaise)]%nat.

Definition crash_prefix : state :=
  default (benchmark_start 2 notebook_globals)
    (replay true crash_schedule (benchmark_start 2 notebook_globals)).

(** The single-adapter call with two workers after that crash, run to its
    end by the other worker. *)
Definition crash_run : state := drive true 2000 crash_prefix.

(** The first call of the notebook, stopped while workers wait for the
    lock. *)
Definition contended : state := drive true 33 (benchmark_start 20 notebook_globals).

(** A random-mode call on the fresh configuration, stopped on its way. *)
Definition random_midway : state := drive false 150 (benchmark_start 20 notebook_globals).

(** [total_requests = 30] with [num_adapters = 50]. *)
Definition sparse_globals : state :=
  {| total_requests := 30; adapter_counters := replicate 50 0;
     counters_lock := None; workers := []; sent := [] |}.

Definition sparse_run : state := drive false 200 (benchmark_start 20 sparse_globals).

(** A second random-mode call after a complete one. *)
Definition second_random_run : state := drive false 200 (benchmark_start 20 random_run).

(** The two calls of the notebook in the other order: single-adapter mode
    after a complete random-mode call. *)
Definition single_after_random : state := drive true 2000 (benchmark_start 20 random_run).

(** *** Sums over lists updated in place *)

Lemma sumZ_app l1 l2 : sumZ (l1 ++ l2) = sumZ l1 + sumZ l2.
Proof. induction l1 as [|x l1 IH]; simpl; [done | rewrite IH; lia]. Qed.

Lemma sumZ_replicate n c : sumZ (replicate n c) = Z.of_nat n * c.
Proof. induction n as [|n IH]; [done|]. simpl replicate. simpl sumZ. rewrite IH. lia. Qed.

Lemma sumZ_alter (f : Z → Z) l i c :
  l !! i = Some c → sumZ (alter f i l) = sumZ l - c + f c.
Proof.
  revert i. induction l as [|x l IH]; intros [|i] Hl; simplify_eq/=; [lia|].
  rewrite (IH _ Hl). lia.
Qed.

Lemma sumZ_nonneg l : Forall (λ c, 0 ≤ c) l → 0 ≤ sumZ l.
Proof. induction 1; simpl; lia. Qed.

Lemma sumZ_nonpos_zero l :
  Forall (λ c, 0 ≤ c) l → sumZ l ≤ 0 → Forall (λ c, c = 0) l.
Proof.
  induction 1 as [|x l Hx Hl IH]; simpl; intros Hs; [constructor|].
  pose proof (sumZ_nonneg l Hl). constructor; [lia | apply IH; lia].
Qed.

Lemma sumw_insert f ws t w w' :
  ws !! t = Some w → sumw f (<[t := w']> ws) = sumw f ws - f w + f w'.
Proof.
  unfold sumw. revert t. induction ws as [|x ws IH]; intros [|t] Hl; simplify_eq/=; [lia|].
  rewrite (IH _ Hl). lia.
Qed.

Lemma sumw_replicate f n w : sumw f (replicate n w) = Z.of_nat n * f w.
Proof. unfold sumw. induction n as [|n IH]; [done|]. simpl replicate. simpl. rewrite IH. lia. Qed.

Lemma sumw_zero f ws : Forall (λ w, f w = 0) ws → sumw f ws = 0.
Proof. unfold sumw. induction 1 as [|w ws Hw _ IH]; simpl; lia. Qed.

Lemma sumw_ext f g ws : Forall (λ w, f w = g w) ws → sumw f ws = sumw g ws.
Proof. unfold sumw. induction 1 as [|w ws Hw _ IH]; simpl; lia. Qed.

Lemma Forall_alter_nonneg l i c :
  Forall (λ c, 0 ≤ c) l → l !! i = Some c → 0 < c →
  Forall (λ c, 0 ≤ c) (alter (λ c, c - 1) i l).
Proof.
  intros Hl Hi Hc. apply Forall_lookup. intros j x Hj.
  destruct (decide (i = j)) as [->|Hne].
  - rewrite list_lookup_alter_eq, Hi in Hj. simplify_eq/=. lia.
  - rewrite list_lookup_alter_ne in Hj by done.
    exact (proj1 (Forall_lookup _ _) Hl j x Hj).
Qed.

(** *** The eligibility scan *)

Lemma remaining_from_spec k counters i :
  i ∈ remaining_from k counters ↔
  ∃ c, (k ≤ i)%nat ∧ counters !! (i - k)%nat = Some c ∧ 0 < c.
Proof.
  revert k. induction counters as [|x l IH]; intros k; simpl.
  - split; [by intros ?%elem_of_nil | by intros (c & _ & ? & _)].
  - destruct (Z.ltb_spec 0 x) as [Hx|Hx].
    + rewrite elem_of_cons, IH. split.
      * intros [->|(c & Hk & Hl & Hc)].
        -- exists x. rewrite Nat.sub_diag. auto.
        -- exists c. split; [lia|]. replace (i - k)%nat with (S (i - S k)) by lia. auto.
      * intros (c & Hk & Hl & Hc). destruct (decide (i = k)) as [->|Hne]; [by left|].
        right. exists c. split; [lia|].
        replace (i - k)%nat with (S (i - S k)) in Hl by lia. auto.
    + rewrite IH. split.
      * intros (c & Hk & Hl & Hc). exists c. split; [lia|].
        replace (i - k)%nat with (S (i - S k)) by lia. auto.
      * intros (c & Hk & Hl & Hc). destruct (decide (i = k)) as [->|Hne].
        -- rewrite Nat.sub_diag in Hl. simplify_eq/=. lia.
        -- exists c. split; [lia|].
           replace (i - k)%nat with (S (i - S k)) in Hl by lia. auto.
Qed.

Lemma remaining_adapters_spec counters i :
  i ∈ remaining_adapters counters ↔ ∃ c, counters !! i = Some c ∧ 0 < c.
Proof.
  unfold remaining_adapters. rewrite remaining_from_spec, Nat.sub_0_r.
  split; [intros (c & _ & ?); eauto | intros (c & ?); exists c; split; [lia | done]].
Qed.

Lemma remaining_adapters_nil counters :
  remaining_adapters counters = [] → Forall (λ c, c ≤ 0) counters.
Proof.
  intros Hnil. apply Forall_lookup. intros i c Hi.
  destruct (Z.le_gt_cases c 0) as [|Hc]; [done|].
  assert (i ∈ remaining_adapters counters) as Hin
    by (apply remaining_adapters_spec; eauto).
  rewrite Hnil in Hin. by apply elem_of_nil in Hin.
Qed.

Lemma sumZ_nonpos l : Forall (λ c, c ≤ 0) l → sumZ l ≤ 0.
Proof. induction 1; simpl; lia. Qed.

Lemma py_index_in_range {A} (l : list A) (i : nat) :
  (i < length l)%nat → py_index l (Z.of_nat i) = Some i.
Proof.
  intros Hi. unfold py_index.
  destruct (Z.leb_spec 0 (Z.of_nat i)); [|lia].
  destruct (Z.ltb_spec (Z.of_nat i) (Z.of_nat (length l))); [|lia].
  simpl. by rewrite Nat2Z.id.
Qed.

(** *** Every step keeps the invariant *)

Lemma lookup_insert_cases (ws : list worker) t w0 w t' w' :
  ws !! t = Some w0 → <[t := w]> ws !! t' = Some w' →
  (t' = t ∧ w' = w) ∨ (t' ≠ t ∧ ws !! t' = Some w').
Proof.
  intros H0 [(-> & -> & _)|(Hne & Hl)]%list_lookup_insert_Some; [by left|].
  right. split; [congruence | done].
Qed.

Ltac worker_cases Hw :=
  let t' := fresh "t'" in
  let w' := fresh "w'" in
  let Hl := fresh "Hl" in
  intros t' w' Hl; simpl in Hl;
  destruct (lookup_insert_cases _ _ _ _ _ _ Hw Hl) as [[-> ->]|[? ?]]; simpl.

Ltac inst_at I t w Hw :=
  pose proof (inv_lock _ _ _ I t w Hw);
  pose proof (λ i, inv_claim _ _ _ I t w i Hw);
  pose proof (λ i, inv_ids _ _ _ I t w i Hw);
  pose proof (inv_exhausted _ _ _ I t w Hw);
  pose proof (inv_aggregate _ _ _ I t w Hw);
  pose proof (inv_index _ _ _ I t w Hw).

Lemma cs_exclusive single_adapter B0 s t w t' w' :
  inv single_adapter B0 s → workers s !! t = Some w → workers s !! t' = Some w' →
  t' ≠ t → in_cs (w_pc w) = true → in_cs (w_pc w') = false.
Proof.
  intros I Hw Hw' Hne Hcs. destruct (in_cs (w_pc w')) eqn:Hcs'; [|done].
  apply (inv_lock _ _ _ I t w Hw) in Hcs. apply (inv_lock _ _ _ I t' w' Hw') in Hcs'.
  congruence.
Qed.

Ltac per_worker I Hw Hpc :=
  let t' := fresh "t'" in
  let w' := fresh "w'" in
  let Hl := fresh "Hl" in
  let Hne := fresh "Hne" in
  let Hold := fresh "Hold" in
  let Hex := fresh "Hex" in
  let Hpc' := fresh "Hpc'" in
  intros t' w'; simpl;
  lazymatch goal with
  | |- (_ !! _ = Some _) → _ => intros Hl
  | |- _ => let i := fresh "i" in intros i Hl
  end;
  match type of Hw with
  | _ !! ?t = Some ?w =>
      inst_at I t w Hw;
      destruct (lookup_insert_cases _ _ _ _ _ _ Hw Hl) as [[-> ->]|[Hne Hold]];
      [|inst_at I t' w' Hold;
        pose proof (cs_exclusive _ _ _ _ _ _ _ I Hw Hold Hne) as Hex;
        destruct (w_pc w') eqn:Hpc'];
      unfold finished, claimable, valid_id, budget in *;
      rewrite ?Hpc, ?Hpc' in *; simpl in *
  end.

Ltac fin :=
  solve [ eauto
        | match goal with H : ∀ i : Z, _ → _ |- _ → _ => exact (H _) end
        | intuition (simplify_eq/=; eauto; first [lia | congruence]) ].

Ltac sums I Hw Hpc :=
  pose proof (inv_budget _ _ _ I); pose proof (inv_calls _ _ _ I);
  simpl; rewrite ?(sumw_insert _ _ _ _ _ Hw);
  try set (P := sumw pending _) in *;
  try set (R := sumw recorded _) in *;
  try set (U := sumw unrecorded _) in *;
  unfold pending, recorded, unrecorded, budget in *; simpl in *;
  rewrite ?Hpc, ?length_app; simpl; try lia.

Lemma inv_acquire single_adapter B0 s t w :
  inv single_adapter B0 s → workers s !! t = Some w → w_pc w = AtLock →
  counters_lock s = None →
  inv single_adapter B0 (set_worker t (set_pc Testing w) (set_lock (Some t) s)).
Proof.
  intros I Hw Hpc Hlock. constructor; simpl; try apply I.
  - per_worker I Hw Hpc; fin.
  - intros ? [= <-]. rewrite list_lookup_insert_eq; eauto using lookup_lt_Some.
  - per_worker I Hw Hpc; fin.
  - per_worker I Hw Hpc; fin.
  - sums I Hw Hpc.
  - sums I Hw Hpc.
  - per_worker I Hw Hpc; fin.
  - per_worker I Hw Hpc; fin.
  - per_worker I Hw Hpc; fin.
Qed.

Lemma inv_pass single_adapter B0 s t w i :
  inv single_adapter B0 s → workers s !! t = Some w → w_pc w = Testing →
  claimable single_adapter i s → valid_id single_adapter i s →
  inv single_adapter B0 (set_worker t (set_pc (Claiming i) w) s).
Proof.
  intros I Hw Hpc Hclaim Hid. constructor; simpl; try apply I.
  - per_worker I Hw Hpc; fin.
  - intros t' Ht'. destruct (inv_owner _ _ _ I t' Ht') as [x Hx].
    destruct (decide (t = t')) as [->|Hne].
    + rewrite list_lookup_insert_eq; eauto using lookup_lt_Some.
    + rewrite list_lookup_insert_ne; eauto.
  - per_worker I Hw Hpc; fin.
  - per_worker I Hw Hpc; fin.
  - sums I Hw Hpc.
  - sums I Hw Hpc.
  - per_worker I Hw Hpc; fin.
  - per_worker I Hw Hpc; fin.
  - per_worker I Hw Hpc; fin.
Qed.

Ltac owner I Hw :=
  let t' := fresh "t'" in
  let Ht' := fresh "Ht'" in
  let x := fresh "x" in
  let Hx := fresh "Hx" in
  intros t' Ht'; simpl in *; try done;
  destruct (inv_owner _ _ _ I t' Ht') as [x Hx];
  match type of Hw with
  | _ !! ?t = Some _ =>
      destruct (decide (t = t')) as [->|?];
      [rewrite list_lookup_insert_eq; eauto using lookup_lt_Some
      |rewrite list_lookup_insert_ne; eauto]
  end.

Lemma inv_break single_adapter B0 s t w :
  inv single_adapter B0 s → workers s !! t = Some w → w_pc w = Testing →
  budget single_adapter s ≤ 0 →
  inv single_adapter B0 (set_worker t (set_pc Leaving w) (set_lock None s)).
Proof.
  intros I Hw Hpc Hzero. constructor; simpl; try apply I.
  - per_worker I Hw Hpc; fin.
  - owner I Hw.
  - per_worker I Hw Hpc; fin.
  - per_worker I Hw Hpc; fin.
  - sums I Hw Hpc.
  - sums I Hw Hpc.
  - per_worker I Hw Hpc; fin.
  - per_worker I Hw Hpc; fin.
  - per_worker I Hw Hpc; fin.
Qed.

Lemma inv_decrement_single B0 s t w i :
  inv true B0 s → workers s !! t = Some w → w_pc w = Claiming i →
  inv true B0 (set_worker t (set_pc (Releasing i) w) (set_total (total_requests s - 1) s)).
Proof.
  intros I Hw Hpc.
  assert (0 < total_requests s) as Hpos by (by destruct (inv_claim _ _ _ I t w i Hw Hpc)).
  constructor; simpl; try apply I.
  - per_worker I Hw Hpc; fin.
  - owner I Hw.
  - lia.
  - per_worker I Hw Hpc; fin.
  - per_worker I Hw Hpc; fin.
  - sums I Hw Hpc.
  - sums I Hw Hpc.
  - per_worker I Hw Hpc; fin.
  - per_worker I Hw Hpc; fin.
  - per_worker I Hw Hpc; fin.
Qed.

Lemma inv_decrement_random B0 s t w i :
  inv false B0 s → workers s !! t = Some w → w_pc w = Claiming i →
  inv false B0
    (set_worker t (set_pc (Releasing i) w)
       (set_counters (alter (λ c, c - 1) (Z.to_nat (i - 1)) (adapter_counters s)) s)).
Proof.
  intros I Hw Hpc.
  destruct (inv_claim _ _ _ I t w i Hw Hpc) as (Hi & c & Hc & Hpos).
  pose proof (sumZ_alter (λ c, c - 1) _ _ _ Hc) as Hsum.
  constructor; simpl; try apply I.
  - per_worker I Hw Hpc; fin.
  - owner I Hw.
  - eapply Forall_alter_nonneg; eauto. apply I.
  - per_worker I Hw Hpc; fin.
  - per_worker I Hw Hpc; rewrite ?length_alter; fin.
  - sums I Hw Hpc.
  - sums I Hw Hpc.
  - per_worker I Hw Hpc; fin.
  - per_worker I Hw Hpc; fin.
  - per_worker I Hw Hpc; fin.
  - unfold valid_id. simpl. rewrite length_alter. apply I.
Qed.

Lemma inv_release single_adapter B0 s t w i :
  inv single_adapter B0 s → workers s !! t = Some w → w_pc w = Releasing i →
  inv single_adapter B0
    (set_worker t (set_pc (Calling i) w) (send (payload_adapter i) (set_lock None s))).
Proof.
  intros I Hw Hpc. constructor; simpl; try apply I.
  - per_worker I Hw Hpc; fin.
  - owner I Hw.
  - per_worker I Hw Hpc; fin.
  - per_worker I Hw Hpc; fin.
  - sums I Hw Hpc.
  - sums I Hw Hpc.
  - per_worker I Hw Hpc; fin.
  - per_worker I Hw Hpc; fin.
  - per_worker I Hw Hpc; fin.
  - apply Forall_app. split; [apply I|]. constructor; [|constructor].
    exists i. split; [|done]. eapply (inv_ids _ _ _ I t w); [done|]. by rewrite Hpc.
Qed.

Lemma inv_return single_adapter B0 s t w i latency :
  inv single_adapter B0 s → workers s !! t = Some w → w_pc w = Calling i →
  inv single_adapter B0 (set_worker t (append_latency latency (set_pc AtLock w)) s).
Proof.
  intros I Hw Hpc. constructor; simpl; try apply I.
  - per_worker I Hw Hpc; fin.
  - owner I Hw.
  - per_worker I Hw Hpc; fin.
  - per_worker I Hw Hpc; fin.
  - sums I Hw Hpc.
  - sums I Hw Hpc.
  - per_worker I Hw Hpc; fin.
  - per_worker I Hw Hpc; fin.
  - per_worker I Hw Hpc; fin.
Qed.

Lemma inv_raise single_adapter B0 s t w i :
  inv single_adapter B0 s → workers s !! t = Some w → w_pc w = Calling i →
  inv single_adapter B0 (set_worker t (set_pc (Crashed PredictError) w) s).
Proof.
  intros I Hw Hpc. constructor; simpl; try apply I.
  - per_worker I Hw Hpc; fin.
  - owner I Hw.
  - per_worker I Hw Hpc; fin.
  - per_worker I Hw Hpc; fin.
  - sums I Hw Hpc.
  - sums I Hw Hpc.
  - per_worker I Hw Hpc; fin.
  - per_worker I Hw Hpc; fin.
  - per_worker I Hw Hpc; fin.
Qed.

Lemma inv_extend single_adapter B0 s t w :
  inv single_adapter B0 s → workers s !! t = Some w → w_pc w = Leaving →
  inv single_adapter B0 (set_worker t (set_pc Finished (extend w)) s).
Proof.
  intros I Hw Hpc. constructor; simpl; try apply I.
  - per_worker I Hw Hpc; fin.
  - owner I Hw.
  - per_worker I Hw Hpc; fin.
  - per_worker I Hw Hpc; fin.
  - sums I Hw Hpc.
  - sums I Hw Hpc.
  - per_worker I Hw Hpc; fin.
  - per_worker I Hw Hpc;
      [match goal with H : aggregate_latency _ = [] |- _ => by rewrite H end | fin..].
  - per_worker I Hw Hpc; fin.
Qed.

(** Every step of a worker preserves the invariant. *)
Lemma inv_step single_adapter B0 s s' :
  inv single_adapter B0 s → step single_adapter s s' → inv single_adapter B0 s'.
Proof.
  intros I (t & e & Hex). unfold exec in Hex.
  destruct (workers s !! t) as [w|] eqn:Hw; [|done].
  destruct (w_pc w) as [| |i|i|i| | |x] eqn:Hpc, e; try done.
  - destruct (counters_lock s) eqn:Hlock; [done|]. simplify_eq.
    by apply inv_acquire.
  - destruct single_adapter.
    + destruct (Z.ltb_spec 0 (total_requests s)); simplify_eq.
      * by apply inv_pass.
      * by apply inv_break.
    + destruct (remaining_adapters (adapter_counters s)) as [|r rs] eqn:Hrem.
      * simplify_eq. apply inv_break; [done..|].
        by apply sumZ_nonpos, remaining_adapters_nil.
      * destruct ((r :: rs) !! pick) as [i|] eqn:Hpick; simplify_eq.
        assert (i ∈ remaining_adapters (adapter_counters s)) as Hin
          by (rewrite Hrem; by eapply list_elem_of_lookup_2).
        apply remaining_adapters_spec in Hin as (c & Hc & Hpos).
        apply inv_pass; [done..| |].
        -- split; [lia|]. exists c. split; [|done].
           by replace (Z.to_nat (Z.of_nat i + 1 - 1)) with i by lia.
        -- apply lookup_lt_Some in Hc. unfold valid_id. lia.
  - destruct single_adapter.
    + simplify_eq. by apply inv_decrement_single.
    + destruct (inv_claim _ _ _ I t w i Hw Hpc) as (Hi & c & Hc & Hpos).
      replace (i - 1) with (Z.of_nat (Z.to_nat (i - 1))) in Hex by lia.
      rewrite py_index_in_range in Hex by (by eapply lookup_lt_Some).
      simplify_eq. by apply inv_decrement_random.
  - simplify_eq. by apply inv_release.
  - simplify_eq. by eapply inv_return.
  - simplify_eq. by eapply inv_raise.
  - simplify_eq. by apply inv_extend.
Qed.

Lemma inv_reachable single_adapter B0 s s' :
  inv single_adapter B0 s → reachable single_adapter s s' → inv single_adapter B0 s'.
Proof. intros I Hr. induction Hr; eauto using inv_step. Qed.

Lemma inv_start single_adapter num_threads s :
  ready s →
  inv single_adapter (budget single_adapter s) (benchmark_start num_threads s).
Proof.
  intros (Htot & Hcnt & Hlock).
  assert (∀ t w, replicate num_threads fresh_worker !! t = Some w → w = fresh_worker)
    as Hfresh by (intros t w [-> _]%lookup_replicate; done).
  constructor; simpl; try done.
  - intros t w ->%Hfresh. by rewrite Hlock.
  - by rewrite Hlock.
  - by intros t w i ->%Hfresh.
  - by intros t w i ->%Hfresh.
  - rewrite sumw_replicate. unfold budget, pending. simpl. lia.
  - rewrite !sumw_replicate. unfold recorded, unrecorded. simpl. lia.
  - intros t w ->%Hfresh. simpl. by intros [|].
  - by intros t w ->%Hfresh.
  - by intros t w ->%Hfresh.
Qed.

(** *** What the invariant gives once the workers are done *)

Lemma all_finished_Forall s :
  all_finished s = true → Forall (λ w, w_pc w = Finished) (workers s).
Proof.
  unfold all_finished. intros H. apply Forall_forall. intros w Hin.
  apply list_elem_of_In in Hin.
  pose proof (proj1 (forallb_forall _ _) H w Hin) as Hf.
  unfold finished in Hf. by destruct (w_pc w).
Qed.

Lemma all_joined_Forall s :
  all_joined s = true → Forall (λ w, terminated w = true) (workers s).
Proof.
  unfold all_joined. intros H. apply Forall_forall. intros w Hin.
  apply list_elem_of_In in Hin. exact (proj1 (forallb_forall _ _) H w Hin).
Qed.

Lemma all_finished_joined s : all_finished s = true → all_joined s = true.
Proof.
  unfold all_finished, all_joined. rewrite !forallb_forall. intros H w Hin.
  specialize (H w Hin). unfold finished, terminated in *. by destruct (w_pc w).
Qed.

Lemma total_requests_made_sumw s :
  total_requests_made s = sumw (λ w, Z.of_nat (length (aggregate_latency w))) (workers s).
Proof. unfold total_requests_made, all_latencies, sumw, sumZ. by rewrite map_map. Qed.

Lemma sumw_nonneg f ws : (∀ w, 0 ≤ f w) → 0 ≤ sumw f ws.
Proof. intros Hf. unfold sumw. induction ws as [|w ws IH]; simpl; [done|]. specialize (Hf w). lia. Qed.

Lemma sumw_zero_inv f ws :
  (∀ w, 0 ≤ f w) → sumw f ws = 0 → Forall (λ w, f w = 0) ws.
Proof.
  intros Hf. induction ws as [|w ws IH]; [constructor|].
  unfold sumw. simpl. fold (sumw f ws). intros Hs.
  pose proof (Hf w). pose proof (sumw_nonneg f ws Hf).
  constructor; [lia | apply IH; lia].
Qed.

Lemma pending_nonneg w : 0 ≤ pending w.
Proof. unfold pending. destruct (w_pc w); lia. Qed.

Lemma unrecorded_nonneg w : 0 ≤ unrecorded w.
Proof. unfold unrecorded. destruct (w_pc w) as [| | | | | | |[]]; lia. Qed.

Lemma recorded_nonneg w : 0 ≤ recorded w.
Proof. unfold recorded. lia. Qed.

Lemma budget_nonneg single_adapter B0 s : inv single_adapter B0 s → 0 ≤ budget single_adapter s.
Proof.
  intros I. unfold budget. destruct single_adapter; [apply I|].
  apply sumZ_nonneg, I.
Qed.

(** No overshoot, at any moment of a run: the calls issued never exceed the
    budget the run started with. *)
Lemma sent_le_budget single_adapter B0 s :
  inv single_adapter B0 s → Z.of_nat (length (sent s)) ≤ B0.
Proof.
  intros I. pose proof (inv_budget _ _ _ I). pose proof (budget_nonneg _ _ _ I).
  pose proof (sumw_nonneg pending (workers s) pending_nonneg). lia.
Qed.

Lemma existsb_finished s :
  existsb finished (workers s) = true →
  ∃ t w, workers s !! t = Some w ∧ w_pc w = Finished.
Proof.
  intros (w & Hin & Hf)%existsb_exists. apply list_elem_of_In in Hin.
  apply list_elem_of_lookup in Hin as [t Ht]. exists t, w. split; [done|].
  unfold finished in Hf. by destruct (w_pc w).
Qed.

Lemma all_finished_exists s :
  workers s ≠ [] → all_finished s = true → existsb finished (workers s) = true.
Proof.
  unfold all_finished. destruct (workers s) as [|w ws]; [done|]. intros _. simpl.
  by intros [-> _]%andb_prop.
Qed.

(** Once every worker is joined and one of them left its loop through
    [break], the budget is spent and each unit of it was one call. *)
Lemma joined_run single_adapter B0 s :
  inv single_adapter B0 s → all_joined s = true →
  existsb finished (workers s) = true →
  budget single_adapter s = 0 ∧ Z.of_nat (length (sent s)) = B0.
Proof.
  intros I Hj (t & w & Hw & Hpc)%existsb_finished.
  pose proof (budget_nonneg _ _ _ I).
  assert (budget single_adapter s ≤ 0) by (apply (inv_exhausted _ _ _ I t w); auto).
  assert (sumw pending (workers s) = 0) as Hp.
  { apply sumw_zero. eapply Forall_impl; [by apply all_joined_Forall|].
    intros w'. unfold terminated, pending. by destruct (w_pc w'). }
  pose proof (inv_budget _ _ _ I). split; lia.
Qed.

(** When every worker left through [break], each call also left one
    latency in the lists that the statistics read. *)
Lemma finished_run single_adapter B0 s :
  inv single_adapter B0 s → all_finished s = true →
  total_requests_made s = Z.of_nat (length (sent s)).
Proof.
  intros I Hfin. apply all_finished_Forall in Hfin.
  assert (sumw unrecorded (workers s) = 0) as Hu.
  { apply sumw_zero. eapply Forall_impl; [done|]. intros w Hw. unfold unrecorded. by rewrite Hw. }
  pose proof (inv_calls _ _ _ I).
  rewrite total_requests_made_sumw.
  rewrite (sumw_ext _ recorded); [lia|].
  apply Forall_lookup. intros t w Hw.
  pose proof (proj1 (Forall_lookup _ _) Hfin t w Hw) as Hpc. simpl in Hpc.
  rewrite (inv_aggregate _ _ _ I t w Hw). unfold finished. by rewrite Hpc.
Qed.

(** The state that the configuration cell leaves is a valid starting point. *)
Lemma configure_ready T A s0 : 0 ≤ T → configure T A = Some s0 → ready s0.
Proof.
  unfold configure. intros HT Hc. destruct (Z.eqb_spec A 0) as [|HA]; simplify_eq.
  repeat split; simpl; [done|].
  destruct (Z.lt_ge_cases A 0).
  - replace (Z.to_nat A) with 0%nat by lia. constructor.
  - apply Forall_replicate, Z.div_pos; lia.
Qed.

Lemma configure_budget T A s0 single_adapter :
  0 < A → configure T A = Some s0 →
  budget single_adapter s0 = if single_adapter then T else A * (T / A).
Proof.
  unfold configure. intros HA Hc. destruct (Z.eqb_spec A 0); simplify_eq.
  unfold budget. simpl. destruct single_adapter; [done|].
  rewrite sumZ_replicate. lia.
Qed.

Lemma benchmark_start_workers num_threads s :
  (0 < num_threads)%nat → workers (benchmark_start num_threads s) ≠ [].
Proof. intros H. simpl. destruct num_threads; [lia|done]. Qed.

Lemma step_workers_length single_adapter s s' :
  step single_adapter s s' → length (workers s') = length (workers s).
Proof.
  intros (t & e & Hex). unfold exec in Hex.
  repeat (case_match; simplify_eq/=); by rewrite ?length_insert.
Qed.

Lemma reachable_workers_length single_adapter s s' :
  reachable single_adapter s s' → length (workers s') = length (workers s).
Proof.
  induction 1 as [|s1 s2 s3 Hs _ IH]; [done|].
  rewrite IH. by eapply step_workers_length.
Qed.

Lemma reachable_workers_nonempty single_adapter num_threads s s' :
  (0 < num_threads)%nat →
  reachable single_adapter (benchmark_start num_threads s) s' → workers s' ≠ [].
Proof.
  intros H Hr. apply reachable_workers_length in Hr. simpl in Hr.
  rewrite length_replicate in Hr. destruct (workers s'); simpl in *; [lia|done].
Qed.

Lemma first_enabled_step single_adapter s order s' :
  first_enabled single_adapter s order = Some s' → step single_adapter s s'.
Proof.
  induction order as [|t rest IH]; simpl; [done|].
  destruct (workers s !! t ≫= next_event s t) as [e|]; [|done].
  destruct (exec single_adapter t _ s) as [s1|] eqn:Hex; [|done].
  intros [= <-]. by exists t, (clamp_pick single_adapter s e).
Qed.

Lemma drive_reachable single_adapter fuel s :
  reachable single_adapter s (drive single_adapter fuel s).
Proof.
  revert s. induction fuel as [|n IH]; intros s; simpl; [done|].
  destruct (first_enabled _ _ _) as [s'|] eqn:Hf; [|done].
  eapply rtc_l; [by eapply first_enabled_step | apply IH].
Qed.

(** *** Progress and termination *)

Lemma forallb_false_lookup {A} (f : A → bool) (l : list A) :
  forallb f l = false → ∃ i x, l !! i = Some x ∧ f x = false.
Proof.
  induction l as [|x l IH]; simpl; [done|].
  destruct (f x) eqn:Hx; simpl.
  - intros (i & y & ? & ?)%IH. by exists (S i), y.
  - intros _. by exists 0%nat, x.
Qed.

(** While some worker is alive, some worker can move without any call
    raising. *)
Lemma progress_quiet single_adapter B0 s :
  inv single_adapter B0 s → all_joined s = false →
  ∃ t e s', exec single_adapter t e s = Some s' ∧ e ≠ ERaise.
Proof.
  intros I (t & w & Hw & Hterm)%forallb_false_lookup.
  destruct (counters_lock s) as [t0|] eqn:Hlock.
  - destruct (inv_owner _ _ _ I t0 Hlock) as [w0 Hw0].
    pose proof (proj2 (inv_lock _ _ _ I t0 w0 Hw0) Hlock) as Hcs.
    destruct (w_pc w0) as [| |i|i|i| | |x] eqn:Hpc; try done.
    + destruct single_adapter.
      * destruct (0 <? total_requests s) eqn:Htest;
          exists t0, (ETest 0); eexists; unfold exec; by rewrite Hw0, Hpc, Htest.
      * destruct (remaining_adapters (adapter_counters s)) eqn:Hrem;
          exists t0, (ETest 0); eexists; unfold exec; by rewrite Hw0, Hpc, Hrem.
    + destruct single_adapter.
      * exists t0, EDecrement. eexists. unfold exec. by rewrite Hw0, Hpc.
      * destruct (py_index (adapter_counters s) (i - 1)) eqn:Hidx;
          exists t0, EDecrement; eexists; unfold exec; by rewrite Hw0, Hpc, Hidx.
    + exists t0, ERelease. eexists. unfold exec. by rewrite Hw0, Hpc.
  - pose proof (inv_lock _ _ _ I t w Hw) as Hcs. rewrite Hlock in Hcs.
    unfold terminated in Hterm.
    destruct (w_pc w) as [| |i|i|i| | |x] eqn:Hpc; simpl in *;
      try done; try (by destruct Hcs as [Hcs _]; specialize (Hcs eq_refl)).
    + exists t, EAcquire. eexists. unfold exec. by rewrite Hw, Hpc, Hlock.
    + exists t, (EReturn 0). eexists. unfold exec. by rewrite Hw, Hpc.
    + exists t, EExtend. eexists. unfold exec. by rewrite Hw, Hpc.
Qed.

(** While some worker is alive, some worker can move: the lock never blocks
    everybody. *)
Lemma progress single_adapter B0 s :
  inv single_adapter B0 s → all_joined s = false → ∃ s', step single_adapter s s'.
Proof.
  intros I Hj. destruct (progress_quiet _ _ _ I Hj) as (t & e & s' & Hex & _).
  exists s'. by exists t, e.
Qed.

Lemma rank_nonneg w : 0 ≤ rank w.
Proof. unfold rank. destruct (w_pc w); lia. Qed.

Lemma measure_nonneg single_adapter B0 s :
  inv single_adapter B0 s → 0 ≤ measure single_adapter s.
Proof.
  intros I. unfold measure. pose proof (budget_nonneg _ _ _ I).
  pose proof (sumw_nonneg rank (workers s) rank_nonneg). lia.
Qed.

Lemma step_measure single_adapter B0 s s' :
  inv single_adapter B0 s → step single_adapter s s' →
  measure single_adapter s' < measure single_adapter s.
Proof.
  intros I (t & e & Hex). unfold exec in Hex.
  destruct (workers s !! t) as [w|] eqn:Hw; [|done].
  assert (∀ w' s1, workers s1 = workers s →
            6 * budget single_adapter s1 + rank w' < 6 * budget single_adapter s + rank w →
            measure single_adapter (set_worker t w' s1) < measure single_adapter s) as Hdec.
  { intros w' s1 Hws Hb. unfold measure. simpl. rewrite Hws, (sumw_insert _ _ _ _ _ Hw).
    replace (budget single_adapter (set_worker t w' s1))
      with (budget single_adapter s1) by (by destruct single_adapter).
    lia. }
  assert (∀ w' s1, workers s1 = workers s →
            total_requests s1 = total_requests s →
            adapter_counters s1 = adapter_counters s → rank w' < rank w →
            measure single_adapter (set_worker t w' s1) < measure single_adapter s) as Hfr.
  { intros w' s1 Hws Ht Hc Hr. apply Hdec; [done|]. unfold budget. rewrite Ht, Hc. lia. }
  unfold rank in Hdec, Hfr.
  destruct (w_pc w) as [| |i|i|i| | |x] eqn:Hpc, e; try done.
  - destruct (counters_lock s); simplify_eq. by apply Hfr.
  - destruct single_adapter.
    + destruct (0 <? total_requests s); simplify_eq; by apply Hfr.
    + destruct (remaining_adapters (adapter_counters s)) as [|r rs]; simplify_eq.
      * by apply Hfr.
      * destruct ((r :: rs) !! pick); simplify_eq. by apply Hfr.
  - destruct single_adapter.
    + simplify_eq. apply Hdec; [done|]. unfold budget. simpl. lia.
    + destruct (inv_claim _ _ _ I t w i Hw Hpc) as (Hi & c & Hc & Hpos).
      replace (i - 1) with (Z.of_nat (Z.to_nat (i - 1))) in Hex by lia.
      rewrite py_index_in_range in Hex by (by eapply lookup_lt_Some).
      simplify_eq. apply Hdec; [done|]. unfold budget. simpl.
      rewrite (sumZ_alter _ _ _ _ Hc). lia.
  - simplify_eq. by apply Hfr.
  - simplify_eq. by apply Hfr.
  - simplify_eq. by apply Hfr.
  - simplify_eq. by apply Hfr.
Qed.

(** A run of [n] steps fits in the measure of its first state: every
    schedule ends, after at most [6 * budget + 5 * workers] steps. *)
Lemma run_bounded single_adapter B0 n s s' :
  inv single_adapter B0 s → nsteps (step single_adapter) n s s' →
  Z.of_nat n ≤ measure single_adapter s - measure single_adapter s'.
Proof.
  intros I Hn. induction Hn as [|n s1 s2 s3 Hs Hn IH]; [lia|].
  pose proof (step_measure _ _ _ _ I Hs).
  specialize (IH (inv_step _ _ _ _ I Hs)). lia.
Qed.

Lemma run_length single_adapter num_threads s0 n s :
  ready s0 → nsteps (step single_adapter) n (benchmark_start num_threads s0) s →
  Z.of_nat n ≤ 6 * budget single_adapter s0 + 5 * Z.of_nat num_threads.
Proof.
  intros Hr Hn. pose proof (inv_start single_adapter num_threads s0 Hr) as I.
  pose proof (run_bounded _ _ _ _ _ I Hn) as Hb.
  pose proof (measure_nonneg _ _ _ (inv_reachable _ _ _ _ I (rtc_nsteps_2 _ _ _ Hn))).
  unfold measure at 1 in Hb. simpl in Hb. rewrite sumw_replicate in Hb.
  replace (budget single_adapter (benchmark_start num_threads s0))
    with (budget single_adapter s0) in Hb by (by destruct single_adapter).
  unfold rank in Hb. simpl in Hb. lia.
Qed.

Lemma quiet_step_no_crash single_adapter B0 s t e s' :
  inv single_adapter B0 s → exec single_adapter t e s = Some s' → e ≠ ERaise →
  Forall (λ w, crashed w = false) (workers s) →
  Forall (λ w, crashed w = false) (workers s').
Proof.
  intros I Hex Hquiet Hall.
  assert (inv single_adapter B0 s') as I' by (eapply inv_step; [done|by exists t, e]).
  unfold exec in Hex. destruct (workers s !! t) as [w|] eqn:Hw; [|done].
  assert (∀ w1 s1, workers s1 = workers s →
            w_pc w1 ≠ Crashed PredictError →
            inv single_adapter B0 (set_worker t w1 s1) →
            Forall (λ w, crashed w = false) (workers (set_worker t w1 s1))) as Hkeep.
  { intros w1 s1 Hws Hpc1 I1. simpl. rewrite Hws. apply Forall_lookup.
    intros t' w' Hl.
    destruct (lookup_insert_cases _ _ _ _ _ _ Hw Hl) as [[-> ->]|[_ Hold]].
    - assert (workers (set_worker t w1 s1) !! t = Some w1) as Hnew.
      { simpl. rewrite Hws. apply list_lookup_insert_eq. by eapply lookup_lt_Some. }
      pose proof (inv_index _ _ _ I1 t w1 Hnew) as Hidx.
      unfold crashed. destruct (w_pc w1) as [| | | | | | |[]]; done.
    - exact (proj1 (Forall_lookup _ _) Hall t' w' Hold). }
  destruct (w_pc w) as [| |i|i|i| | |x] eqn:Hpc, e; try done.
  - destruct (counters_lock s); simplify_eq. by apply Hkeep.
  - destruct single_adapter.
    + destruct (0 <? total_requests s); simplify_eq; by apply Hkeep.
    + destruct (remaining_adapters (adapter_counters s)) as [|r rs]; simplify_eq.
      * by apply Hkeep.
      * destruct ((r :: rs) !! pick); simplify_eq. by apply Hkeep.
  - destruct single_adapter.
    + simplify_eq. by apply Hkeep.
    + destruct (py_index (adapter_counters s) (i - 1)); simplify_eq; by apply Hkeep.
  - simplify_eq. by apply Hkeep.
  - simplify_eq. by apply Hkeep.
  - simplify_eq. by apply Hkeep.
Qed.

(** From any state without a crashed worker the call can run to its end
    with every worker leaving through [break]. *)
Lemma run_finishes single_adapter B0 s :
  inv single_adapter B0 s → Forall (λ w, crashed w = false) (workers s) →
  ∃ s', reachable single_adapter s s' ∧ all_finished s' = true.
Proof.
  intros I. remember (Z.to_nat (measure single_adapter s)) as n eqn:Hn.
  revert s I Hn. induction n as [n IH] using lt_wf_ind. intros s I Hn Hno.
  destruct (all_joined s) eqn:Hj.
  - exists s. split; [apply rtc_refl|]. unfold all_finished.
    apply forallb_forall. intros w Hin.
    pose proof (proj1 (forallb_forall _ _) Hj w Hin) as Ht.
    apply list_elem_of_In in Hin.
    pose proof (proj1 (Forall_forall _ _) Hno w Hin) as Hc.
    unfold terminated, crashed, finished in *. by destruct (w_pc w).
  - destruct (progress_quiet _ _ _ I Hj) as (t & e & s1 & Hex & Hquiet).
    assert (step single_adapter s s1) as Hs1 by (by exists t, e).
    pose proof (step_measure _ _ _ _ I Hs1).
    pose proof (measure_nonneg _ _ _ I).
    pose proof (inv_step _ _ _ _ I Hs1) as I1.
    pose proof (measure_nonneg _ _ _ I1).
    destruct (IH (Z.to_nat (measure single_adapter s1)) ltac:(lia) s1 I1 eq_refl
                (quiet_step_no_crash _ _ _ _ _ _ I Hex Hquiet Hno)) as (s' & Hr & Hf).
    exists s'. split; [by eapply rtc_l|done].
Qed.

(** Every call of [benchmark_scenario] has a run in which all its workers
    leave through [break]. *)
Lemma benchmark_can_finish single_adapter num_threads s0 :
  ready s0 →
  ∃ s, reachable single_adapter (benchmark_start num_threads s0) s ∧
       all_finished s = true.
Proof.
  intros Hr. eapply run_finishes; [by apply inv_start|].
  simpl. by apply Forall_replicate.
Qed.

(** *** The session *)

Lemma reachable_session m s s' : reachable m s s' → session (m, s) (m, s').
Proof.
  induction 1 as [|s1 s2 s3 Hs _ IH]; [apply rtc_refl|].
  eapply rtc_l; [by apply nb_worker | done].
Qed.

Lemma joined_ready m B0 s : inv m B0 s → all_joined s = true → ready s.
Proof.
  intros I Hj. repeat split; [apply I..|].
  destruct (counters_lock s) as [t|] eqn:Hlock; [|done].
  destruct (inv_owner _ _ _ I t Hlock) as [w Hw].
  pose proof (proj2 (inv_lock _ _ _ I t w Hw) Hlock) as Hcs.
  apply all_joined_Forall in Hj.
  pose proof (proj1 (Forall_lookup _ _) Hj t w Hw) as Ht.
  unfold terminated in Ht. simpl in Ht. by destruct (w_pc w).
Qed.

Lemma inv_notebook_step m B0 s m' s' :
  inv m B0 s → notebook_step (m, s) (m', s') → ∃ B0', inv m' B0' s'.
Proof.
  intros I Hs. inversion Hs; subst.
  - exists B0. by eapply inv_step.
  - eexists. apply inv_start. by eapply joined_ready.
Qed.

Lemma inv_session m B0 s m' s' :
  inv m B0 s → session (m, s) (m', s') → ∃ B0', inv m' B0' s'.
Proof.
  intros I Hs. remember (m, s) as x eqn:Hx. remember (m', s') as y eqn:Hy.
  revert m B0 s I Hx. induction Hs as [|x [m1 s1] z Hstep _ IH]; intros m B0 s I ->.
  - simplify_eq. eauto.
  - destruct (inv_notebook_step _ _ _ _ _ I Hstep) as [B1 I1]. eauto.
Qed.

Lemma configure_inv m T A s0 :
  0 ≤ T → configure T A = Some s0 → inv m (budget m s0) s0.
Proof.
  intros HT Hc. pose proof (configure_ready _ _ _ HT Hc) as Hr.
  pose proof (inv_start m 0 s0 Hr) as I.
  unfold configure in Hc. destruct (A =? 0); simplify_eq. exact I.
Qed.

(** The harness only ever lowers [total_requests]. *)
Lemma step_total_requests m s s' :
  step m s s' → total_requests s' ≤ total_requests s.
Proof.
  intros (t & e & Hex). unfold exec in Hex.
  repeat (case_match; simplify_eq/=); lia.
Qed.

Lemma notebook_step_total_requests m s m' s' :
  notebook_step (m, s) (m', s') → total_requests s' ≤ total_requests s.
Proof.
  inversion 1; subst; [by eapply step_total_requests | simpl; lia].
Qed.

Lemma session_total_requests m s m' s' :
  session (m, s) (m', s') → total_requests s' ≤ total_requests s.
Proof.
  intros Hs. remember (m, s) as x eqn:Hx. remember (m', s') as y eqn:Hy.
  revert m s Hx. induction Hs as [|x [m1 s1] z Hstep _ IH]; intros m s ->.
  - simplify_eq. lia.
  - pose proof (notebook_step_total_requests _ _ _ _ Hstep).
    specialize (IH Hy m1 s1 eq_refl). lia.
Qed.

Lemma exhausted_run s :
  inv true 0 s →
  total_requests s = 0 ∧ sent s = [] ∧
  Forall (λ w, latencies w = [] ∧ aggregate_latency w = [] ∧ idle_pc (w_pc w)) (workers s) ∧
  total_requests_made s = 0.
Proof.
  intros I.
  pose proof (inv_budget _ _ _ I) as Hb. pose proof (inv_calls _ _ _ I) as Hc.
  pose proof (inv_total _ _ _ I) as Ht. unfold budget in Hb.
  pose proof (sumw_nonneg pending (workers s) pending_nonneg).
  pose proof (sumw_nonneg recorded (workers s) recorded_nonneg).
  pose proof (sumw_nonneg unrecorded (workers s) unrecorded_nonneg).
  assert (sent s = []) as Hsent by (destruct (sent s); simpl in *; [done|lia]).
  rewrite Hsent in *. simpl in *.
  pose proof (sumw_zero_inv pending (workers s) pending_nonneg ltac:(lia)) as Hp.
  pose proof (sumw_zero_inv recorded (workers s) recorded_nonneg ltac:(lia)) as Hr.
  pose proof (sumw_zero_inv unrecorded (workers s) unrecorded_nonneg ltac:(lia)) as Hu.
  assert (Forall (λ w, latencies w = [] ∧ aggregate_latency w = [] ∧ idle_pc (w_pc w))
            (workers s)) as Hall.
  { apply Forall_lookup. intros t w Hw.
    pose proof (proj1 (Forall_lookup _ _) Hp t w Hw) as Hp'.
    pose proof (proj1 (Forall_lookup _ _) Hr t w Hw) as Hr'.
    pose proof (proj1 (Forall_lookup _ _) Hu t w Hw) as Hu'.
    simpl in *. unfold recorded in Hr'.
    assert (latencies w = []) as Hl by (destruct (latencies w); simpl in *; [done|lia]).
    pose proof (inv_aggregate _ _ _ I t w Hw) as Ha. rewrite Hl in Ha.
    split; [done|]. split; [by destruct (finished w)|].
    pose proof (inv_index _ _ _ I t w Hw) as Hi.
    pose proof (inv_claim _ _ _ I t w) as Hcl.
    unfold pending in Hp'. unfold unrecorded in Hu'. unfold idle_pc.
    destruct (w_pc w) as [| |i|i|i| | |[]]; try lia; try done; auto.
    destruct (Hcl i Hw eq_refl) as [_ Hpos]. lia. }
  split; [lia|]. split; [done|]. split; [done|].
  rewrite total_requests_made_sumw. apply sumw_zero.
  eapply Forall_impl; [exact Hall|]. intros w (_ & -> & _). done.
Qed.

Lemma single_ids_step s s' : single_ids s → step true s s' → single_ids s'.
Proof.
  intros [Hid Hsent] (t & e & Hex). unfold exec in Hex.
  destruct (workers s !! t) as [w|] eqn:Hw; [|done].
  pose proof (λ i, Hid t w i Hw) as Hidw.
  assert (∀ w' s1, workers s1 = workers s → sent s1 = sent s →
            (∀ i, pc_id (w_pc w') = Some i → i = 1) →
            single_ids (set_worker t w' s1)) as Hkeep.
  { intros w' s1 Hws Hs Hw'. split; simpl; [|by rewrite Hs].
    rewrite Hws. intros t' w'' i Hl Hpc.
    destruct (lookup_insert_cases _ _ _ _ _ _ Hw Hl) as [[-> ->]|[_ Hold]]; eauto. }
  destruct (w_pc w) as [| |i|i|i| | |x] eqn:Hpc, e; try done; simpl in *.
  - destruct (counters_lock s); simplify_eq. by apply Hkeep.
  - destruct (0 <? total_requests s); simplify_eq; apply Hkeep; try done.
    simpl. intros ? [= <-]. done.
  - simplify_eq. apply Hkeep; try done; simpl; intros ? [= <-]; by apply Hidw.
  - simplify_eq. split; simpl.
    + intros t' w'' j Hl Hpc'.
      pose proof (Hidw i eq_refl).
      destruct (lookup_insert_cases _ _ _ _ _ _ Hw Hl) as [[-> ->]|[_ Hold]];
        [simpl in Hpc'; congruence | eauto].
    + apply Forall_app. split; [done|]. rewrite (Hidw i eq_refl). by repeat constructor.
  - simplify_eq. by apply Hkeep.
  - simplify_eq. by apply Hkeep.
  - simplify_eq. by apply Hkeep.
Qed.

Lemma single_ids_reachable s s' : single_ids s → reachable true s s' → single_ids s'.
Proof. intros I Hr. induction Hr; eauto using single_ids_step. Qed.

Lemma single_ids_start num_threads s : single_ids (benchmark_start num_threads s).
Proof.
  split; simpl; [|constructor].
  by intros t w i [-> _]%lookup_replicate.
Qed.

Lemma configure_notebook : configure 300 50 = Some notebook_globals.
Proof. reflexivity. Qed.

(** *** Single-adapter mode spends the budget exactly *)

(** C1. Single-adapter mode, [total_requests = 300], 1, 5 or 20 worker
    threads. Once every worker is joined and one of them left its loop
    through [break] (it saw the counter at zero), exactly 300 calls were
    issued and the counter is 0; if all of them left that way, 300
    latencies are recorded. At no moment of the run have more than 300
    calls been issued. *)
Theorem single_adapter_total_calls (W : nat) (s0 s : state) :
  W = 1%nat ∨ W = 5%nat ∨ W = 20%nat →
  configure 300 50 = Some s0 →
  reachable true (benchmark_start W s0) s →
  all_joined s = true → existsb finished (workers s) = true →
  Z.of_nat (length (sent s)) = 300 ∧ total_requests s = 0 ∧
  (all_finished s = true → total_requests_made s = 300) ∧
  ∀ s1, reachable true (benchmark_start W s0) s1 → Z.of_nat (length (sent s1)) ≤ 300.
Proof.
  intros _ Hc Hr Hj Hfin.
  pose proof (configure_ready 300 50 s0 ltac:(lia) Hc) as Hready.
  pose proof (inv_start true W s0 Hready) as I0.
  rewrite (configure_budget 300 50 s0 true ltac:(lia) Hc) in I0.
  pose proof (inv_reachable _ _ _ _ I0 Hr) as I.
  destruct (joined_run _ _ _ I Hj Hfin) as (Hb & Hs).
  split; [done|]. split; [done|]. split.
  - intros Hall. by rewrite (finished_run _ _ _ I Hall).
  - intros s1 Hr1. apply (sent_le_budget true). exact (inv_reachable _ _ _ _ I0 Hr1).
Qed.

Lemma single_adapter_total_calls_witness :
  Z.of_nat (length (sent single_run)) = 300 ∧ total_requests single_run = 0 ∧
  (all_finished single_run = true → total_requests_made single_run = 300) ∧
  ∀ s1, reachable true (benchmark_start 20 notebook_globals) s1 →
        Z.of_nat (length (sent s1)) ≤ 300.
Proof.
  apply (single_adapter_total_calls 20 notebook_globals single_run).
  - right. right. reflexivity.
  - reflexivity.
  - apply drive_reachable.
  - vm_compute. reflexivity.
  - vm_compute. reflexivity.
Defined.

(** *** No counter ever goes below zero *)

(** C2. In every state of a notebook session, whatever the sequence of
    [benchmark_scenario] calls and their modes: [total_requests] and every
    entry of [adapter_counters] are not negative; the workers that stand
    between the eligibility test and the end of the [with] block are exactly
    the holder of [counters_lock], so at most one; and a worker that passed
    the test and has not decremented yet still finds its counter positive. *)
Theorem counters_never_negative (T A : Z) (m0 m : bool) (s0 s : state) :
  0 ≤ T → configure T A = Some s0 → session (m0, s0) (m, s) →
  0 ≤ total_requests s ∧
  Forall (λ c, 0 ≤ c) (adapter_counters s) ∧
  (∀ t w, workers s !! t = Some w →
          in_cs (w_pc w) = true ↔ counters_lock s = Some t) ∧
  (∀ t t' w w', workers s !! t = Some w → workers s !! t' = Some w' →
                in_cs (w_pc w) = true → in_cs (w_pc w') = true → t = t') ∧
  (∀ t w i, workers s !! t = Some w → w_pc w = Claiming i → claimable m i s).
Proof.
  intros HT Hc Hs.
  destruct (inv_session _ _ _ _ _ (configure_inv m0 T A s0 HT Hc) Hs) as [B I].
  split; [apply I|]. split; [apply I|]. split; [apply I|]. split; [|apply I].
  intros t t' w w' Hw Hw' Hcs Hcs'.
  destruct (decide (t' = t)) as [|Hne]; [done|].
  pose proof (cs_exclusive _ _ _ _ _ _ _ I Hw Hw' Hne Hcs). congruence.
Qed.

Lemma counters_never_negative_witness :
  0 ≤ total_requests midway ∧
  Forall (λ c, 0 ≤ c) (adapter_counters midway) ∧
  (∀ t w, workers midway !! t = Some w →
          in_cs (w_pc w) = true ↔ counters_lock midway = Some t) ∧
  (∀ t t' w w', workers midway !! t = Some w → workers midway !! t' = Some w' →
                in_cs (w_pc w) = true → in_cs (w_pc w') = true → t = t') ∧
  (∀ t w i, workers midway !! t = Some w → w_pc w = Claiming i →
            claimable false i midway).
Proof.
  apply (counters_never_negative 300 50 true false notebook_globals midway).
  - lia.
  - reflexivity.
  - eapply rtc_l; [apply (nb_scenario true true 20); reflexivity|].
    eapply (@rtc_trans _ notebook_step);
      [apply reachable_session, (drive_reachable true 2000)|].
    eapply rtc_l; [apply (nb_scenario true false 20); vm_compute; reflexivity|].
    apply reachable_session, (drive_reachable false 334).
Defined.

(** *** Distributed-random mode *)

(** C3. With [total_requests = T] and [num_adapters = A], every one of the
    [A] counters starts at [T // A] (6 for 300 and 50). Once every worker of
    a random-mode call is joined and one of them left its loop through
    [break], [A * (T // A)] calls were issued, all recorded if every worker
    left that way; that number is [T] when [A] divides [T] and less than
    [T] otherwise. *)
Theorem distributed_random_total_calls (T A : Z) (W : nat) (s0 s : state) :
  0 ≤ T → 0 < A →
  configure T A = Some s0 →
  reachable false (benchmark_start W s0) s →
  all_joined s = true → existsb finished (workers s) = true →
  adapter_counters s0 = replicate (Z.to_nat A) (T / A) ∧
  (T = 300 → A = 50 → adapter_counters s0 = replicate 50 6) ∧
  Z.of_nat (length (sent s)) = A * (T / A) ∧
  (all_finished s = true → total_requests_made s = A * (T / A)) ∧
  ((A | T) → A * (T / A) = T) ∧
  (¬ (A | T) → A * (T / A) < T).
Proof.
  intros HT HA Hc Hr Hj Hfin.
  pose proof (configure_ready T A s0 HT Hc) as Hready.
  pose proof (inv_start false W s0 Hready) as I0.
  rewrite (configure_budget T A s0 false HA Hc) in I0.
  pose proof (inv_reachable _ _ _ _ I0 Hr) as I.
  destruct (joined_run _ _ _ I Hj Hfin) as (Hb & Hs).
  assert (adapter_counters s0 = replicate (Z.to_nat A) (T / A)) as Hinit.
  { unfold configure in Hc. destruct (A =? 0); by simplify_eq. }
  split; [done|]. split; [by intros -> ->|]. split; [done|].
  split; [intros Hall; by rewrite (finished_run _ _ _ I Hall)|].
  pose proof (Z.div_mod T A ltac:(lia)) as Hdm.
  pose proof (Z.mod_pos_bound T A HA) as Hmod.
  split.
  - intros Hdiv. apply Z.mod_divide in Hdiv; lia.
  - intros Hndiv. assert (T `mod` A ≠ 0); [|lia].
    intros Hz. apply Hndiv, Z.mod_divide; lia.
Qed.

Lemma distributed_random_total_calls_witness :
  adapter_counters notebook_globals = replicate (Z.to_nat 50) (300 / 50) ∧
  (300 = 300 → 50 = 50 → adapter_counters notebook_globals = replicate 50 6) ∧
  Z.of_nat (length (sent random_run)) = 50 * (300 / 50) ∧
  (all_finished random_run = true → total_requests_made random_run = 50 * (300 / 50)) ∧
  ((50 | 300) → 50 * (300 / 50) = 300) ∧
  (¬ (50 | 300) → 50 * (300 / 50) < 300).
Proof.
  apply (distributed_random_total_calls 300 50 20 notebook_globals random_run).
  - lia.
  - lia.
  - reflexivity.
  - apply drive_reachable.
  - vm_compute. reflexivity.
  - vm_compute. reflexivity.
Defined.

(** The notebook runs the random scenario after the single-adapter one: the
    first call leaves [adapter_counters] alone, so the second still issues
    [A * (T // A)] calls. *)
Lemma step_single_counters s s' :
  step true s s' → adapter_counters s' = adapter_counters s.
Proof.
  intros (t & e & Hex). unfold exec in Hex.
  repeat (case_match; simplify_eq/=); done.
Qed.

Lemma reachable_single_counters s s' :
  reachable true s s' → adapter_counters s' = adapter_counters s.
Proof.
  induction 1 as [|s1 s2 s3 Hs _ IH]; [done|].
  rewrite IH. by apply step_single_counters.
Qed.

Lemma random_after_single (T A : Z) (W W' : nat) (s0 s1 s : state) :
  0 ≤ T → 0 < A → (0 < W')%nat → configure T A = Some s0 →
  reachable true (benchmark_start W s0) s1 → all_joined s1 = true →
  reachable false (benchmark_start W' s1) s → all_finished s = true →
  Z.of_nat (length (sent s)) = A * (T / A) ∧ total_requests_made s = A * (T / A).
Proof.
  intros HT HA HW' Hc Hr1 Hj Hr Hfin.
  pose proof (all_finished_exists s (reachable_workers_nonempty _ _ _ _ HW' Hr) Hfin) as Hex.
  pose proof (configure_ready T A s0 HT Hc) as Hready.
  pose proof (inv_reachable _ _ _ _ (inv_start true W s0 Hready) Hr1) as I1.
  pose proof (inv_start false W' s1 (joined_ready _ _ _ I1 Hj)) as I0.
  assert (budget false s1 = A * (T / A)) as Hb1.
  { unfold budget. rewrite (reachable_single_counters _ _ Hr1). simpl.
    exact (configure_budget T A s0 false HA Hc). }
  rewrite Hb1 in I0.
  pose proof (inv_reachable _ _ _ _ I0 Hr) as I.
  destruct (joined_run _ _ _ I (all_finished_joined _ Hfin) Hex) as (_ & Hs).
  by rewrite (finished_run _ _ _ I Hfin).
Qed.

(** *** The single-adapter budget is spent once *)

(** C9. Once a single-adapter call has completed (every worker joined, one
    at least having left through [break]), [total_requests] is 0; nothing in the harness raises it again,
    so it is 0 in every later state of the session; and every later
    single-adapter call issues no remote call: its workers only ever stand
    at the lock, at the test, or past the loop, with no latency recorded. *)
Theorem total_requests_never_reset (T A : Z) (W' : nat) (m0 m1 : bool)
    (s0 s s1 s' : state) :
  0 ≤ T → configure T A = Some s0 →
  session (m0, s0) (true, s) →
  all_joined s = true → existsb finished (workers s) = true →
  session (true, s) (m1, s1) → all_joined s1 = true →
  reachable true (benchmark_start W' s1) s' →
  total_requests s = 0 ∧ total_requests s1 = 0 ∧
  total_requests (benchmark_start W' s1) = 0 ∧ total_requests s' = 0 ∧
  sent s' = [] ∧
  Forall (λ w, latencies w = [] ∧ aggregate_latency w = [] ∧ idle_pc (w_pc w))
    (workers s') ∧
  total_requests_made s' = 0.
Proof.
  intros HT Hc Hs Hj0 Hfin Hs1 Hj Hr.
  destruct (inv_session _ _ _ _ _ (configure_inv m0 T A s0 HT Hc) Hs) as [B I].
  destruct (joined_run _ _ _ I Hj0 Hfin) as (Hzero & _). unfold budget in Hzero.
  destruct (inv_session _ _ _ _ _ I Hs1) as [B1 I1].
  pose proof (session_total_requests _ _ _ _ Hs1) as Hle.
  pose proof (inv_total _ _ _ I1) as Hge.
  assert (total_requests s1 = 0) as Hzero1 by lia.
  pose proof (inv_start true W' s1 (joined_ready _ _ _ I1 Hj)) as I0.
  unfold budget in I0. rewrite Hzero1 in I0.
  destruct (exhausted_run s' (inv_reachable _ _ _ _ I0 Hr)) as (? & ? & ? & ?).
  done.
Qed.

Lemma total_requests_never_reset_witness :
  total_requests single_run = 0 ∧ total_requests single_run = 0 ∧
  total_requests (benchmark_start 20 single_run) = 0 ∧
  total_requests second_single_run = 0 ∧
  sent second_single_run = [] ∧
  Forall (λ w, latencies w = [] ∧ aggregate_latency w = [] ∧ idle_pc (w_pc w))
    (workers second_single_run) ∧
  total_requests_made second_single_run = 0.
Proof.
  apply (total_requests_never_reset 300 50 20 true true notebook_globals
           single_run single_run second_single_run).
  - lia.
  - reflexivity.
  - eapply rtc_l; [apply (nb_scenario true true 20); reflexivity|].
    apply reachable_session, (drive_reachable true 2000).
  - vm_compute. reflexivity.
  - vm_compute. reflexivity.
  - apply rtc_refl.
  - vm_compute. reflexivity.
  - apply (drive_reachable true 200).
Defined.

(** *** The adapter of single-adapter mode *)

(** C10. Whatever [total_requests], [num_adapters] and [num_threads] are
    configured to, every payload a single-adapter call hands to [predict]
    carries [model = "1"], and every worker that holds an adapter identifier
    holds 1. *)
Theorem single_adapter_id_fixed (T A : Z) (W : nat) (s0 s : state) :
  configure T A = Some s0 →
  reachable true (benchmark_start W s0) s →
  Forall (λ p, model p = txt "1" ∧ p = payload_adapter 1) (sent s) ∧
  ∀ t w i, workers s !! t = Some w → pc_id (w_pc w) = Some i → i = 1.
Proof.
  intros _ Hr.
  destruct (single_ids_reachable _ _ (single_ids_start W s0) Hr) as [Hid Hsent].
  split; [|done].
  eapply Forall_impl; [exact Hsent|]. by intros p ->.
Qed.

Lemma single_adapter_id_fixed_witness :
  Forall (λ p, model p = txt "1" ∧ p = payload_adapter 1) (sent single_run) ∧
  ∀ t w i, workers single_run !! t = Some w → pc_id (w_pc w) = Some i → i = 1.
Proof.
  apply (single_adapter_id_fixed 300 50 20 notebook_globals single_run).
  - reflexivity.
  - apply drive_reachable.
Defined.

(** *** The statistics *)







Lemma py_div_zero a b : Qeq b (0 # 1) → py_div a b = Raised ZeroDivisionError.
Proof. intros Hb. unfold py_div. by rewrite (Qeq_eq_bool _ _ Hb). Qed.




(** The second single-adapter call of a session records nothing, so its
    statistics raise. *)
Example second_single_run_raises :
  benchmark_scenario_end second_single_run (0 # 1) (1 # 1) (2 # 1) =
    Some (Raised ZeroDivisionError).
Proof. vm_compute. reflexivity. Qed.

Example single_run_statistics :
  ∃ r, benchmark_scenario_end single_run (0 # 1) (30 # 1) (31 # 1) = Some (Returned r) ∧
       Qeq (throughput r) (10 # 1).
Proof. eexists. split; [vm_compute; reflexivity|]. vm_compute. reflexivity. Qed.

Example lone_crash_undershoots :
  ∃ s, lone_crash = Some s ∧ all_joined s = true ∧ existsb finished (workers s) = false ∧
       length (sent s) = 1%nat ∧ total_requests s = 299 ∧
       benchmark_scenario_end s (0 # 1) (1 # 1) (2 # 1) = Some (Raised ZeroDivisionError).
Proof. eexists. split; [vm_compute; reflexivity|]. by vm_compute. Qed.

(** ** Further properties of the harness *)

Lemma notebook_globals_ready : ready notebook_globals.
Proof.
  split; [simpl; lia|]. split; [|done].
  change (Forall (λ c, 0 ≤ c) (replicate 50 6)). apply Forall_replicate. lia.
Qed.

Lemma replay_nsteps single_adapter schedule s s' :
  replay single_adapter schedule s = Some s' →
  nsteps (step single_adapter) (length schedule) s s'.
Proof.
  revert s. induction schedule as [|[t e] rest IH]; intros s; simpl.
  - intros [= ->]. constructor.
  - destruct (exec single_adapter t e s) as [s1|] eqn:Hex; [|done]. simpl.
    intros Hrest. eapply nsteps_l; [by exists t, e | by apply IH].
Qed.

Lemma replay_reachable single_adapter schedule s s' :
  replay single_adapter schedule s = Some s' → reachable single_adapter s s'.
Proof. intros H%replay_nsteps. by eapply rtc_nsteps_2. Qed.

Lemma crash_prefix_replay :
  replay true crash_schedule (benchmark_start 2 notebook_globals) = Some crash_prefix.
Proof. vm_compute. reflexivity. Qed.

(** *** No deadlock *)

Lemma lock_holder_enabled m B0 s t :
  inv m B0 s → counters_lock s = Some t → ∃ e s', exec m t e s = Some s' ∧ e ≠ ERaise.
Proof.
  intros I Hlock. destruct (inv_owner _ _ _ I t Hlock) as [w0 Hw0].
  pose proof (proj2 (inv_lock _ _ _ I t w0 Hw0) Hlock) as Hcs.
  destruct (w_pc w0) as [| |i|i|i| | |x] eqn:Hpc; try done.
  - destruct m.
    + destruct (0 <? total_requests s) eqn:Htest;
        exists (ETest 0); eexists; unfold exec; by rewrite Hw0, Hpc, Htest.
    + destruct (remaining_adapters (adapter_counters s)) eqn:Hrem;
        exists (ETest 0); eexists; unfold exec; by rewrite Hw0, Hpc, Hrem.
  - destruct m.
    + exists EDecrement. eexists. unfold exec. by rewrite Hw0, Hpc.
    + destruct (py_index (adapter_counters s) (i - 1)) eqn:Hidx;
        exists EDecrement; eexists; unfold exec; by rewrite Hw0, Hpc, Hidx.
  - exists ERelease. eexists. unfold exec. by rewrite Hw0, Hpc.
Qed.

(** X8. In every state a call of [benchmark_scenario] can reach, in either
    mode: while some thread has not ended, some thread can take its next
    step without any remote call failing; the thread that holds
    [counters_lock] is never blocked, so the lock is always given back; and
    once every thread is joined the lock is free, for the next call to
    take. *)
Theorem no_deadlock (single_adapter : bool) (W : nat) (s0 s : state) :
  ready s0 →
  reachable single_adapter (benchmark_start W s0) s →
  (all_joined s = false →
     ∃ t e s', exec single_adapter t e s = Some s' ∧ e ≠ ERaise) ∧
  (∀ t, counters_lock s = Some t →
     ∃ e s', exec single_adapter t e s = Some s' ∧ e ≠ ERaise) ∧
  (all_joined s = true → counters_lock s = None).
Proof.
  intros Hready Hr.
  pose proof (inv_reachable _ _ _ _ (inv_start single_adapter W s0 Hready) Hr) as I.
  split; [by apply (progress_quiet _ _ _ I)|]. split.
  - intros t. by apply (lock_holder_enabled _ _ _ _ I).
  - intros Hj. by destruct (joined_ready _ _ _ I Hj) as (_ & _ & ?).
Qed.

Lemma no_deadlock_witness :
  (all_joined contended = false →
     ∃ t e s', exec true t e contended = Some s' ∧ e ≠ ERaise) ∧
  (∀ t, counters_lock contended = Some t →
     ∃ e s', exec true t e contended = Some s' ∧ e ≠ ERaise) ∧
  (all_joined contended = true → counters_lock contended = None).
Proof.
  apply (no_deadlock true 20 notebook_globals contended).
  - exact notebook_globals_ready.
  - apply drive_reachable.
Defined.

Example contended_lock_held :
  counters_lock contended = Some 2%nat ∧ all_joined contended = false.
Proof. by vm_compute. Qed.

(** *** Termination *)

Lemma run_joins single_adapter B0 s :
  inv single_adapter B0 s →
  ∃ s', reachable single_adapter s s' ∧ all_joined s' = true.
Proof.
  intros I. remember (Z.to_nat (measure single_adapter s)) as n eqn:Hn.
  revert s I Hn. induction n as [n IH] using lt_wf_ind. intros s I Hn.
  destruct (all_joined s) eqn:Hj; [exists s; split; [apply rtc_refl|done]|].
  destruct (progress _ _ _ I Hj) as (s1 & Hs1).
  pose proof (step_measure _ _ _ _ I Hs1).
  pose proof (measure_nonneg _ _ _ I).
  pose proof (inv_step _ _ _ _ I Hs1) as I1.
  pose proof (measure_nonneg _ _ _ I1).
  destruct (IH (Z.to_nat (measure single_adapter s1)) ltac:(lia) s1 I1 eq_refl)
    as (s' & Hr & Hf).
  exists s'. split; [by eapply rtc_l|done].
Qed.

(** X9. A call of [benchmark_scenario] ends under every schedule: a run of
    [n] steps of its threads has [n] at most [6 * budget + 5 * num_threads],
    where the budget is [total_requests] in single-adapter mode and the sum
    of [adapter_counters] in random mode; from wherever the run stands the
    threads can all be joined; and the call has a run in which every thread
    returns from [invoke_adapter]. *)
Theorem every_schedule_ends (single_adapter : bool) (W n : nat) (s0 s : state) :
  ready s0 →
  nsteps (step single_adapter) n (benchmark_start W s0) s →
  Z.of_nat n ≤ 6 * budget single_adapter s0 + 5 * Z.of_nat W ∧
  (∃ s', reachable single_adapter s s' ∧ all_joined s' = true) ∧
  (∃ s', reachable single_adapter (benchmark_start W s0) s' ∧ all_finished s' = true).
Proof.
  intros Hready Hn. split; [by eapply run_length|]. split.
  - eapply run_joins, inv_reachable; [by apply (inv_start single_adapter W s0)|].
    by eapply rtc_nsteps_2.
  - by apply benchmark_can_finish.
Qed.

Lemma every_schedule_ends_witness :
  Z.of_nat (length crash_schedule) ≤ 6 * budget true notebook_globals + 5 * Z.of_nat 2 ∧
  (∃ s', reachable true crash_prefix s' ∧ all_joined s' = true) ∧
  (∃ s', reachable true (benchmark_start 2 notebook_globals) s' ∧ all_finished s' = true).
Proof.
  apply (every_schedule_ends true 2 (length crash_schedule) notebook_globals crash_prefix).
  - exact notebook_globals_ready.
  - apply replay_nsteps, crash_prefix_replay.
Defined.

(** *** Calls per adapter in random mode *)

Lemma calls_to_send k i s :
  calls_to k (send (payload_adapter i) s) = calls_to k s + (if i =? k then 1 else 0).
Proof.
  unfold calls_to. simpl. rewrite filter_app, length_app.
  rewrite filter_cons, filter_nil. simpl.
  destruct (Z.eqb_spec i k) as [->|Hne].
  - rewrite decide_True by done. simpl. lia.
  - rewrite decide_False by (by intros ?%str_int_inj). simpl. lia.
Qed.

Lemma py_index_Some {A} (l : list A) i k : py_index l i = Some k → (k < length l)%nat.
Proof. unfold py_index. repeat case_match; intros; simplify_eq; lia. Qed.

Lemma tally_step initial B0 s s' :
  inv false B0 s → tally initial s → step false s s' → tally initial s'.
Proof.
  intros I [Hlen Ht] (t & e & Hex). unfold exec in Hex.
  destruct (workers s !! t) as [w|] eqn:Hw; [|done].
  assert (∀ w' s1, workers s1 = workers s → adapter_counters s1 = adapter_counters s →
            sent s1 = sent s → (∀ k, pending_for k w' = pending_for k w) →
            tally initial (set_worker t w' s1)) as Hkeep.
  { intros w' s1 Hws Hc Hs Hp. split; simpl; [by rewrite Hc|].
    intros k c0 Hk. destruct (Ht k c0 Hk) as (c & Hck & Hsum).
    exists c. rewrite Hc. split; [done|].
    unfold calls_to. simpl. rewrite Hs, Hws, (sumw_insert _ _ _ _ _ Hw), Hp.
    unfold calls_to in Hsum. lia. }
  destruct (w_pc w) as [| |i|i|i| | |x] eqn:Hpc, e; try done.
  - destruct (counters_lock s); simplify_eq. apply Hkeep; try done.
    intros k. unfold pending_for. simpl. by rewrite Hpc.
  - destruct (remaining_adapters (adapter_counters s)) as [|r rs]; simplify_eq.
    + apply Hkeep; try done. intros k. unfold pending_for. simpl. by rewrite Hpc.
    + destruct ((r :: rs) !! pick); simplify_eq.
      apply Hkeep; try done. intros k. unfold pending_for. simpl. by rewrite Hpc.
  - destruct (inv_claim _ _ _ I t w i Hw Hpc) as (Hi & c & Hc & Hpos).
    replace (i - 1) with (Z.of_nat (Z.to_nat (i - 1))) in Hex by lia.
    rewrite py_index_in_range in Hex by (by eapply lookup_lt_Some).
    simplify_eq. split; simpl; [by rewrite length_alter|].
    intros k c0 Hk. destruct (Ht k c0 Hk) as (ck & Hck & Hsum).
    rewrite (sumw_insert _ _ _ _ _ Hw). unfold pending_for at 2 3. simpl. rewrite Hpc.
    unfold calls_to in *. simpl.
    destruct (decide (Z.to_nat (i - 1) = k)) as [<-|Hne].
    + exists (c - 1). rewrite list_lookup_alter_eq, Hc. split; [done|].
      simplify_eq. replace (i =? Z.of_nat (Z.to_nat (i - 1)) + 1) with true
        by (symmetry; apply Z.eqb_eq; lia).
      lia.
    + exists ck. rewrite list_lookup_alter_ne by done. split; [done|].
      replace (i =? Z.of_nat k + 1) with false by (symmetry; apply Z.eqb_neq; lia).
      lia.
  - simplify_eq. split; simpl; [done|].
    intros k c0 Hk. destruct (Ht k c0 Hk) as (ck & Hck & Hsum).
    exists ck. split; [done|].
    rewrite (sumw_insert _ _ _ _ _ Hw). unfold pending_for at 2 3. simpl. rewrite Hpc.
    pose proof (calls_to_send (Z.of_nat k + 1) i (set_lock None s)) as Hsend.
    unfold calls_to in *. simpl in *. lia.
  - simplify_eq. apply Hkeep; try done. intros k. unfold pending_for. simpl. by rewrite Hpc.
  - simplify_eq. apply Hkeep; try done. intros k. unfold pending_for. simpl. by rewrite Hpc.
  - simplify_eq. apply Hkeep; try done. intros k. unfold pending_for. simpl. by rewrite Hpc.
Qed.

Lemma tally_reachable initial B0 s s' :
  inv false B0 s → tally initial s → reachable false s s' → tally initial s'.
Proof.
  intros I Ht Hr. induction Hr as [|s1 s2 s3 Hs _ IH]; [done|].
  apply IH; [by eapply inv_step | by eapply tally_step].
Qed.

Lemma tally_start num_threads s :
  tally (adapter_counters s) (benchmark_start num_threads s).
Proof.
  split; [done|]. intros k c0 Hk. exists c0. split; [done|].
  unfold calls_to. simpl. rewrite sumw_replicate. unfold pending_for. simpl. lia.
Qed.

Lemma step_counters_length m s s' :
  step m s s' → length (adapter_counters s') = length (adapter_counters s).
Proof.
  intros (t & e & Hex). unfold exec in Hex.
  repeat (case_match; simplify_eq/=); by rewrite ?length_alter.
Qed.

Lemma reachable_counters_length m s s' :
  reachable m s s' → length (adapter_counters s') = length (adapter_counters s).
Proof.
  induction 1 as [|s1 s2 s3 Hs _ IH]; [done|].
  rewrite IH. by eapply step_counters_length.
Qed.

Lemma calls_to_outside k s :
  Forall (λ p, ∃ i, 1 ≤ i ≤ Z.of_nat (length (adapter_counters s)) ∧ p = payload_adapter i)
    (sent s) →
  ¬ (1 ≤ k ≤ Z.of_nat (length (adapter_counters s))) → calls_to k s = 0.
Proof.
  intros Hsent Hk. unfold calls_to.
  induction Hsent as [|p ps (i & Hi & ->) _ IH]; [done|].
  rewrite filter_cons. simpl.
  rewrite decide_False; [done|]. intros ->%str_int_inj. lia.
Qed.

(** X10. Random mode, adapter by adapter. Once every thread of a
    random-mode call is joined and one of them left its loop through
    [break], each adapter [i] was called exactly as many times as
    [adapter_counters[i - 1]] held when the call started, no call went to
    any other identifier, and every counter is 0. On the fresh
    configuration that is [T // A] calls for each of the adapters 1 to
    [A]. *)
Theorem random_calls_per_adapter (W : nat) (s0 s : state) :
  ready s0 →
  reachable false (benchmark_start W s0) s →
  all_joined s = true → existsb finished (workers s) = true →
  (∀ adapter_id c0, 1 ≤ adapter_id →
     adapter_counters s0 !! Z.to_nat (adapter_id - 1) = Some c0 →
     calls_to adapter_id s = c0) ∧
  (∀ adapter_id, ¬ (1 ≤ adapter_id ≤ Z.of_nat (length (adapter_counters s0))) →
     calls_to adapter_id s = 0) ∧
  Forall (λ c, c = 0) (adapter_counters s) ∧
  (∀ T A, 0 < A → configure T A = Some s0 →
     ∀ adapter_id, 1 ≤ adapter_id ≤ A → calls_to adapter_id s = T / A).
Proof.
  intros Hready Hr Hj Hfin.
  pose proof (inv_reachable _ _ _ _ (inv_start false W s0 Hready) Hr) as I.
  pose proof (tally_reachable _ _ _ _ (inv_start false W s0 Hready)
                (tally_start W s0) Hr) as [Hlen Ht].
  destruct (joined_run _ _ _ I Hj Hfin) as (Hb & _). unfold budget in Hb.
  pose proof (sumZ_nonpos_zero _ (inv_counters _ _ _ I) ltac:(lia)) as Hzero.
  assert (∀ k, sumw (pending_for k) (workers s) = 0) as Hp.
  { intros k. apply sumw_zero. eapply Forall_impl; [by apply all_joined_Forall|].
    intros w. unfold terminated, pending_for. by destruct (w_pc w). }
  assert (∀ adapter_id c0, 1 ≤ adapter_id →
            adapter_counters s0 !! Z.to_nat (adapter_id - 1) = Some c0 →
            calls_to adapter_id s = c0) as Hcalls.
  { intros i c0 Hi Hc0. destruct (Ht _ _ Hc0) as (c & Hc & Hsum).
    pose proof (proj1 (Forall_lookup _ _) Hzero _ _ Hc) as Hz. simpl in Hz.
    replace (Z.of_nat (Z.to_nat (i - 1)) + 1) with i in Hsum by lia.
    rewrite Hp in Hsum. lia. }
  split; [done|]. split; [|split; [done|]].
  - intros i Hi. apply calls_to_outside.
    + eapply Forall_impl; [exact (inv_sent _ _ _ I)|]. by intros p (k & Hk & ->); exists k.
    + by rewrite Hlen.
  - intros T A HA Hc i Hi. apply Hcalls; [lia|].
    unfold configure in Hc. destruct (A =? 0); simplify_eq. simpl.
    apply lookup_replicate_2. lia.
Qed.

Lemma random_calls_per_adapter_witness :
  (∀ adapter_id c0, 1 ≤ adapter_id →
     adapter_counters notebook_globals !! Z.to_nat (adapter_id - 1) = Some c0 →
     calls_to adapter_id random_run = c0) ∧
  (∀ adapter_id, ¬ (1 ≤ adapter_id ≤ Z.of_nat (length (adapter_counters notebook_globals))) →
     calls_to adapter_id random_run = 0) ∧
  Forall (λ c, c = 0) (adapter_counters random_run) ∧
  (∀ T A, 0 < A → configure T A = Some notebook_globals →
     ∀ adapter_id, 1 ≤ adapter_id ≤ A → calls_to adapter_id random_run = T / A).
Proof.
  apply (random_calls_per_adapter 20 notebook_globals random_run).
  - exact notebook_globals_ready.
  - apply drive_reachable.
  - vm_compute. reflexivity.
  - vm_compute. reflexivity.
Defined.

Example random_run_calls :
  map (λ i, calls_to i random_run) [0; 1; 2; 25; 50; 51] = [0; 6; 6; 6; 6; 0].
Proof. vm_compute. reflexivity. Qed.

(** X11. In every state of a random-mode call: [adapter_counters] keeps
    its length; every payload handed to [predict] names an adapter between
    1 and that length; every index [adapter_id - 1] a thread is about to
    use is inside the list, counted from its start; so the decrement never
    raises [IndexError]. *)
Theorem random_ids_in_range (W : nat) (s0 s : state) :
  ready s0 →
  reachable false (benchmark_start W s0) s →
  length (adapter_counters s) = length (adapter_counters s0) ∧
  Forall (λ p, ∃ adapter_id,
            1 ≤ adapter_id ≤ Z.of_nat (length (adapter_counters s0)) ∧
            p = payload_adapter adapter_id ∧ model p = str_int adapter_id) (sent s) ∧
  (∀ t w adapter_id, workers s !! t = Some w → pc_id (w_pc w) = Some adapter_id →
     py_index (adapter_counters s) (adapter_id - 1) = Some (Z.to_nat (adapter_id - 1)) ∧
     1 ≤ adapter_id ≤ Z.of_nat (length (adapter_counters s0))) ∧
  (∀ t w, workers s !! t = Some w → w_pc w ≠ Crashed IndexError).
Proof.
  intros Hready Hr.
  pose proof (inv_reachable _ _ _ _ (inv_start false W s0 Hready) Hr) as I.
  pose proof (reachable_counters_length _ _ _ Hr) as Hlen. simpl in Hlen.
  split; [done|]. split; [|split; [|apply I]].
  - eapply Forall_impl; [exact (inv_sent _ _ _ I)|].
    intros p (k & Hk & ->). exists k. unfold valid_id in Hk. rewrite Hlen in Hk. done.
  - intros t w i Hw Hpc. pose proof (inv_ids _ _ _ I t w i Hw Hpc) as Hi.
    unfold valid_id in Hi. rewrite Hlen in Hi. split; [|done].
    replace (i - 1) with (Z.of_nat (Z.to_nat (i - 1))) at 1 by lia.
    apply py_index_in_range. lia.
Qed.

Lemma random_ids_in_range_witness :
  length (adapter_counters random_midway) = length (adapter_counters notebook_globals) ∧
  Forall (λ p, ∃ adapter_id,
            1 ≤ adapter_id ≤ Z.of_nat (length (adapter_counters notebook_globals)) ∧
            p = payload_adapter adapter_id ∧ model p = str_int adapter_id)
    (sent random_midway) ∧
  (∀ t w adapter_id, workers random_midway !! t = Some w →
     pc_id (w_pc w) = Some adapter_id →
     py_index (adapter_counters random_midway) (adapter_id - 1) =
       Some (Z.to_nat (adapter_id - 1)) ∧
     1 ≤ adapter_id ≤ Z.of_nat (length (adapter_counters notebook_globals))) ∧
  (∀ t w, workers random_midway !! t = Some w → w_pc w ≠ Crashed IndexError).
Proof.
  apply (random_ids_in_range 20 notebook_globals random_midway).
  - exact notebook_globals_ready.
  - apply drive_reachable.
Defined.

(** *** Threads ended by an exception *)

Lemma sumw_le f g ws : Forall (λ w, f w ≤ g w) ws → sumw f ws ≤ sumw g ws.
Proof. unfold sumw. induction 1 as [|w ws Hw _ IH]; simpl; lia. Qed.

Lemma sumw_plus f g ws : sumw (λ w, f w + g w) ws = sumw f ws + sumw g ws.
Proof. unfold sumw. induction ws as [|w ws IH]; simpl; lia. Qed.

(** X12. A thread hands its latencies over only when it returns:
    [thread_latencies] is empty until then and the local list afterwards.
    So the count the statistics use never exceeds the calls issued, and
    once the threads are joined it falls short of them by the calls of the
    threads that an exception ended: for each such thread the call that
    raised and every call it had completed before. *)
Theorem crashed_worker_latencies_dropped (single_adapter : bool) (W : nat)
    (s0 s : state) :
  ready s0 →
  reachable single_adapter (benchmark_start W s0) s →
  (∀ t w, workers s !! t = Some w →
     aggregate_latency w = if finished w then latencies w else []) ∧
  total_requests_made s ≤ Z.of_nat (length (sent s)) ∧
  (all_joined s = true →
     Z.of_nat (length (sent s)) = total_requests_made s + sumw lost_calls (workers s) ∧
     ∀ t w, workers s !! t = Some w → crashed w = true →
       w_pc w = Crashed PredictError ∧ aggregate_latency w = [] ∧
       lost_calls w = Z.of_nat (length (latencies w)) + 1).
Proof.
  intros Hready Hr.
  pose proof (inv_reachable _ _ _ _ (inv_start single_adapter W s0 Hready) Hr) as I.
  pose proof (inv_calls _ _ _ I) as Hcalls.
  split; [apply I|]. split.
  - rewrite total_requests_made_sumw, Hcalls.
    pose proof (sumw_nonneg unrecorded (workers s) unrecorded_nonneg).
    assert (sumw (λ w, Z.of_nat (length (aggregate_latency w))) (workers s) ≤
            sumw recorded (workers s)); [|lia].
    apply sumw_le, Forall_lookup. intros t w Hw. simpl.
    rewrite (inv_aggregate _ _ _ I t w Hw). unfold recorded.
    destruct (finished w); simpl; lia.
  - intros Hj. apply all_joined_Forall in Hj. split.
    + rewrite total_requests_made_sumw, Hcalls, <-!sumw_plus.
      apply sumw_ext, Forall_lookup. intros t w Hw. simpl.
      pose proof (proj1 (Forall_lookup _ _) Hj t w Hw) as Ht. simpl in Ht.
      rewrite (inv_aggregate _ _ _ I t w Hw).
      unfold lost_calls, terminated, finished, crashed, recorded, unrecorded in *.
      destruct (w_pc w) as [| | | | | | |[]]; simpl; try done; lia.
    + intros t w Hw Hc.
      pose proof (inv_index _ _ _ I t w Hw) as Hi.
      rewrite (inv_aggregate _ _ _ I t w Hw).
      unfold lost_calls, finished, crashed, recorded, unrecorded in *.
      destruct (w_pc w) as [| | | | | | |[]]; simpl; try done.
Qed.

Lemma crashed_worker_latencies_dropped_witness :
  (∀ t w, workers crash_run !! t = Some w →
     aggregate_latency w = if finished w then latencies w else []) ∧
  total_requests_made crash_run ≤ Z.of_nat (length (sent crash_run)) ∧
  (all_joined crash_run = true →
     Z.of_nat (length (sent crash_run)) =
       total_requests_made crash_run + sumw lost_calls (workers crash_run) ∧
     ∀ t w, workers crash_run !! t = Some w → crashed w = true →
       w_pc w = Crashed PredictError ∧ aggregate_latency w = [] ∧
       lost_calls w = Z.of_nat (length (latencies w)) + 1).
Proof.
  apply (crashed_worker_latencies_dropped true 2 notebook_globals crash_run).
  - exact notebook_globals_ready.
  - eapply (@rtc_trans _ (step true));
      [exact (replay_reachable _ _ _ _ crash_prefix_replay) | apply drive_reachable].
Defined.

Example crash_run_counts :
  all_joined crash_run = true ∧ length (sent crash_run) = 300%nat ∧
  total_requests_made crash_run = 298 ∧ sumw lost_calls (workers crash_run) = 2.
Proof. by vm_compute. Qed.

(** *** A budget of zero *)

Lemma exhausted_any single_adapter s :
  inv single_adapter 0 s → sent s = [] ∧ total_requests_made s = 0.
Proof.
  intros I.
  pose proof (inv_budget _ _ _ I) as Hb. pose proof (inv_calls _ _ _ I) as Hc.
  pose proof (budget_nonneg _ _ _ I).
  pose proof (sumw_nonneg pending (workers s) pending_nonneg).
  pose proof (sumw_nonneg recorded (workers s) recorded_nonneg).
  pose proof (sumw_nonneg unrecorded (workers s) unrecorded_nonneg).
  assert (sent s = []) as Hsent by (destruct (sent s); simpl in *; [done|lia]).
  split; [done|]. rewrite Hsent in Hc. simpl in Hc.
  pose proof (sumw_zero_inv recorded (workers s) recorded_nonneg ltac:(lia)) as Hr.
  rewrite total_requests_made_sumw. apply sumw_zero, Forall_lookup. intros t w Hw.
  pose proof (proj1 (Forall_lookup _ _) Hr t w Hw) as Hr'. simpl in Hr'.
  rewrite (inv_aggregate _ _ _ I t w Hw). unfold recorded in Hr'.
  destruct (finished w); simpl; [lia|done].
Qed.

Lemma no_calls_no_report s start_time now1 now2 :
  all_joined s = true → total_requests_made s = 0 →
  benchmark_scenario_end s start_time now1 now2 = Some (Raised ZeroDivisionError).
Proof.
  intros Hj Hz. unfold benchmark_scenario_end. rewrite Hj. f_equal.
  unfold statistics. fold (total_requests_made s). rewrite Hz. by rewrite py_div_zero.
Qed.

(** X13. With fewer requests than adapters, [0 <= T < A], the
    configuration sets every counter to [T // A = 0]: a random-mode call
    then issues no call at all, records nothing, and once its threads are
    joined [benchmark_scenario] raises [ZeroDivisionError] where it
    computes the average. *)
Theorem fewer_requests_than_adapters (T A : Z) (W : nat) (s0 s : state) :
  0 ≤ T < A →
  configure T A = Some s0 →
  reachable false (benchmark_start W s0) s →
  adapter_counters s0 = replicate (Z.to_nat A) 0 ∧
  sent s = [] ∧ total_requests_made s = 0 ∧
  (all_joined s = true →
     ∀ start_time now1 now2,
       benchmark_scenario_end s start_time now1 now2 = Some (Raised ZeroDivisionError)).
Proof.
  intros HT Hc Hr.
  pose proof (configure_ready T A s0 ltac:(lia) Hc) as Hready.
  pose proof (inv_start false W s0 Hready) as I0.
  rewrite (configure_budget T A s0 false ltac:(lia) Hc) in I0.
  rewrite (Z.div_small T A HT), Z.mul_0_r in I0.
  destruct (exhausted_any _ _ (inv_reachable _ _ _ _ I0 Hr)) as [Hsent Hmade].
  split.
  { unfold configure in Hc. destruct (A =? 0); simplify_eq. simpl.
    by rewrite (Z.div_small T A HT). }
  split; [done|]. split; [done|].
  intros Hj start_time now1 now2. by apply no_calls_no_report.
Qed.

Lemma fewer_requests_than_adapters_witness :
  adapter_counters sparse_globals = replicate (Z.to_nat 50) 0 ∧
  sent sparse_run = [] ∧ total_requests_made sparse_run = 0 ∧
  (all_joined sparse_run = true →
     ∀ start_time now1 now2,
       benchmark_scenario_end sparse_run start_time now1 now2 =
         Some (Raised ZeroDivisionError)).
Proof.
  apply (fewer_requests_than_adapters 30 50 20 sparse_globals sparse_run).
  - lia.
  - reflexivity.
  - apply drive_reachable.
Defined.

Example sparse_run_joined : all_joined sparse_run = true.
Proof. vm_compute. reflexivity. Qed.

(** *** The per-adapter counters are spent once *)

Lemma step_counters_sum m s s' :
  step m s s' → sumZ (adapter_counters s') ≤ sumZ (adapter_counters s).
Proof.
  intros (t & e & Hex). unfold exec in Hex.
  repeat (case_match; simplify_eq/=); try lia.
  match goal with H : py_index _ _ = Some ?n |- _ =>
    apply py_index_Some, lookup_lt_is_Some_2 in H as [c Hc];
    rewrite (sumZ_alter _ _ _ _ Hc) end.
  lia.
Qed.

Lemma session_counters_sum m s m' s' :
  session (m, s) (m', s') → sumZ (adapter_counters s') ≤ sumZ (adapter_counters s).
Proof.
  intros Hs. remember (m, s) as x eqn:Hx. remember (m', s') as y eqn:Hy.
  revert m s Hx. induction Hs as [|x [m1 s1] z Hstep _ IH]; intros m s ->.
  - simplify_eq. lia.
  - specialize (IH Hy m1 s1 eq_refl).
    assert (sumZ (adapter_counters s1) ≤ sumZ (adapter_counters s)); [|lia].
    inversion Hstep; subst; [by eapply step_counters_sum | simpl; lia].
Qed.

(** X14. [adapter_counters] is filled once, by the configuration cell.
    Once a random-mode call has completed (every thread joined, one at
    least through [break]) every counter is 0; nothing in the harness
    raises a counter, so they are all 0 in every later state of the
    session; and every later random-mode call issues no call, records
    nothing and, once joined, raises [ZeroDivisionError]. *)
Theorem adapter_counters_never_reset (T A : Z) (W' : nat) (m0 m1 : bool)
    (s0 s s1 s' : state) :
  0 ≤ T → configure T A = Some s0 →
  session (m0, s0) (false, s) →
  all_joined s = true → existsb finished (workers s) = true →
  session (false, s) (m1, s1) → all_joined s1 = true →
  reachable false (benchmark_start W' s1) s' →
  Forall (λ c, c = 0) (adapter_counters s) ∧
  Forall (λ c, c = 0) (adapter_counters s1) ∧
  Forall (λ c, c = 0) (adapter_counters s') ∧
  sent s' = [] ∧ total_requests_made s' = 0 ∧
  (all_joined s' = true →
     ∀ start_time now1 now2,
       benchmark_scenario_end s' start_time now1 now2 = Some (Raised ZeroDivisionError)).
Proof.
  intros HT Hc Hs Hj0 Hfin Hs1 Hj Hr.
  destruct (inv_session _ _ _ _ _ (configure_inv m0 T A s0 HT Hc) Hs) as [B I].
  destruct (joined_run _ _ _ I Hj0 Hfin) as (Hzero & _). unfold budget in Hzero.
  destruct (inv_session _ _ _ _ _ I Hs1) as [B1 I1].
  pose proof (session_counters_sum _ _ _ _ Hs1) as Hle.
  pose proof (inv_start false W' s1 (joined_ready _ _ _ I1 Hj)) as I0.
  pose proof (sumZ_nonneg _ (inv_counters _ _ _ I1)) as Hge.
  assert (budget false s1 = 0) as Hb1 by (unfold budget; lia).
  rewrite Hb1 in I0.
  pose proof (inv_reachable _ _ _ _ I0 Hr) as I'.
  pose proof (inv_budget _ _ _ I') as Hb'. unfold budget in Hb'.
  pose proof (sumw_nonneg pending (workers s') pending_nonneg).
  pose proof (sumZ_nonneg _ (inv_counters _ _ _ I')).
  destruct (exhausted_any _ _ I') as [Hsent Hmade].
  split; [apply sumZ_nonpos_zero; [apply I | lia]|].
  split; [apply sumZ_nonpos_zero; [apply I1 | lia]|].
  split; [apply sumZ_nonpos_zero; [apply I' | lia]|].
  split; [done|]. split; [done|].
  intros Hj' start_time now1 now2. by apply no_calls_no_report.
Qed.

Lemma adapter_counters_never_reset_witness :
  Forall (λ c, c = 0) (adapter_counters random_run) ∧
  Forall (λ c, c = 0) (adapter_counters random_run) ∧
  Forall (λ c, c = 0) (adapter_counters second_random_run) ∧
  sent second_random_run = [] ∧ total_requests_made second_random_run = 0 ∧
  (all_joined second_random_run = true →
     ∀ start_time now1 now2,
       benchmark_scenario_end second_random_run start_time now1 now2 =
         Some (Raised ZeroDivisionError)).
Proof.
  apply (adapter_counters_never_reset 300 50 20 false false notebook_globals
           random_run random_run second_random_run).
  - lia.
  - reflexivity.
  - eapply rtc_l; [apply (nb_scenario false false 20); reflexivity|].
    apply reachable_session, (drive_reachable false 2000).
  - vm_compute. reflexivity.
  - vm_compute. reflexivity.
  - apply rtc_refl.
  - vm_compute. reflexivity.
  - apply (drive_reachable false 200).
Defined.

(** *** The two modes draw from separate budgets *)

Lemma step_random_total s s' : step false s s' → total_requests s' = total_requests s.
Proof.
  intros (t & e & Hex). unfold exec in Hex.
  repeat (case_match; simplify_eq/=); done.
Qed.

Lemma reachable_random_total s s' :
  reachable false s s' → total_requests s' = total_requests s.
Proof.
  induction 1 as [|s1 s2 s3 Hs _ IH]; [done|].
  rewrite IH. by apply step_random_total.
Qed.

(** X15. The two calls of the notebook in the other order. A random-mode
    call never writes [total_requests], and a single-adapter call never
    writes [adapter_counters]: after a random-mode call, however it went, a
    completed single-adapter call still issues exactly [total_requests]
    calls, as many as before the random-mode call. *)
Theorem modes_use_separate_budgets (W W' : nat) (s0 s1 s : state) :
  ready s0 →
  reachable false (benchmark_start W s0) s1 → all_joined s1 = true →
  reachable true (benchmark_start W' s1) s →
  all_joined s = true → existsb finished (workers s) = true →
  total_requests s1 = total_requests s0 ∧
  adapter_counters s = adapter_counters s1 ∧
  Z.of_nat (length (sent s)) = total_requests s0.
Proof.
  intros Hready Hr1 Hj1 Hr Hj Hfin.
  pose proof (reachable_random_total _ _ Hr1) as Ht. simpl in Ht.
  pose proof (reachable_single_counters _ _ Hr) as Hc. simpl in Hc.
  split; [done|]. split; [done|].
  pose proof (inv_reachable _ _ _ _ (inv_start false W s0 Hready) Hr1) as I1.
  pose proof (inv_reachable _ _ _ _ (inv_start true W' s1 (joined_ready _ _ _ I1 Hj1)) Hr)
    as I.
  destruct (joined_run _ _ _ I Hj Hfin) as (_ & ->). unfold budget. by rewrite Ht.
Qed.

Lemma modes_use_separate_budgets_witness :
  total_requests random_run = total_requests notebook_globals ∧
  adapter_counters single_after_random = adapter_counters random_run ∧
  Z.of_nat (length (sent single_after_random)) = total_requests notebook_globals.
Proof.
  apply (modes_use_separate_budgets 20 20 notebook_globals random_run single_after_random).
  - exact notebook_globals_ready.
  - apply drive_reachable.
  - vm_compute. reflexivity.
  - apply drive_reachable.
  - vm_compute. reflexivity.
  - vm_compute. reflexivity.
Defined.

(** *** The adapters called are registered *)

(** X16. The benchmark and the warm-up cell call adapters by the names the
    manifest gives them. With [num_adapters] at most the number of adapters
    uploaded, and the listing returning the upload prefixes in any order:
    for every payload a call of [benchmark_scenario] hands to [predict], in
    either mode, and for every payload of the warm-up loop, the manifest
    holds the token [model=/opt/ml/model/model/]. *)
Theorem called_adapters_are_registered (T A n_adapters : Z) (W : nat)
    (single_adapter : bool) (base_prefix : text) (listed : list text) (s0 s : state) :
  0 ≤ T → 0 < A ≤ n_adapters →
  configure T A = Some s0 →
  listed ≡ₚ map (λ prefix, prefix ++ txt "/")
              (Upload.adapter_prefixes base_prefix n_adapters) →
  reachable single_adapter (benchmark_start W s0) s →
  Forall (λ p, Manifest.manifest_token (model p) ∈ Manifest.registered listed) (sent s) ∧
  Forall (λ p, Manifest.manifest_token (model p) ∈ Manifest.registered listed)
    (warm_up n_adapters).
Proof.
  intros HT HA Hc Hlisted Hr.
  pose proof (configure_ready T A s0 HT Hc) as Hready.
  pose proof (inv_reachable _ _ _ _ (inv_start single_adapter W s0 Hready) Hr) as I.
  pose proof (reachable_counters_length _ _ _ Hr) as Hlen. simpl in Hlen.
  assert (length (adapter_counters s0) = Z.to_nat A) as Hlen0.
  { unfold configure in Hc. destruct (A =? 0); simplify_eq. simpl. by rewrite length_replicate. }
  split.
  - eapply Forall_impl; [exact (inv_sent _ _ _ I)|].
    intros p (i & Hi & ->). apply (Manifest.registered_adapter base_prefix n_adapters); [done|].
    unfold valid_id in Hi. destruct single_adapter; [lia|]. rewrite Hlen, Hlen0 in Hi. lia.
  - unfold warm_up. apply Forall_fmap, Forall_forall.
    intros i Hi%elem_of_seqZ.
    apply (Manifest.registered_adapter base_prefix n_adapters); [done|lia].
Qed.

Lemma called_adapters_are_registered_witness :
  Forall (λ p, Manifest.manifest_token (model p) ∈
               Manifest.registered
                 (map (λ prefix, prefix ++ txt "/")
                      (Upload.adapter_prefixes (txt "vllm/mistral-adapters") 50)))
    (sent random_run) ∧
  Forall (λ p, Manifest.manifest_token (model p) ∈
               Manifest.registered
                 (map (λ prefix, prefix ++ txt "/")
                      (Upload.adapter_prefixes (txt "vllm/mistral-adapters") 50)))
    (warm_up 50).
Proof.
  apply (called_adapters_are_registered 300 50 50 20 false (txt "vllm/mistral-adapters")
           _ notebook_globals random_run).
  - lia.
  - lia.
  - reflexivity.
  - reflexivity.
  - apply drive_reachable.
Defined.

End Harness.
